(** * guessface-api: the API build task ([tasks/build-api.js])

    A shallow embedding of the gulp task that resizes the question images
    and writes [dist/api/index.json], the properties of it that the
    specification states, and further properties read off the code.

    Promises are modelled by their eventual state once the event loop has
    drained ([Outcome]): a promise is fulfilled, rejected, or stays pending
    for ever.  A continuation given to [then] runs when its promise is
    fulfilled; when [Q.allSettled] is in front of it, when every promise of
    the list has settled; an exception thrown by a continuation rejects the
    promise that [then] returned, and reaches nobody when that promise was
    dropped.  What the run does to the outside world is the list of
    [Event]s it emits, the events of one question, role and width kept
    together in program order.

    The content tree, the configuration and the external tools are the
    [World].  Every call of a tool calls back, and the calls to the file
    system succeed, with one exception: a file cannot be written into a
    directory that does not exist, and the run deletes the output directory
    before anything else, so the index file can only be written once
    [fs.mkdirParent] has made a directory below it again.  The two things
    that the timing of the tools decides -- which identification callback
    of a role runs last, and the order in which the resize tasks reach
    their limiter -- are the [Schedule], and the properties below hold for
    every schedule unless they name one. *)

From Stdlib Require Import ZArith String Ascii DecimalString DecimalNat DecimalZ
  DecimalPos Permutation.
From stdpp Require Import base option list strings gmap.
Local Open Scope string_scope.
Local Open Scope list_scope.

(** ** JavaScript values the task relies on *)

Module JS.

(** [String.prototype.includes]. *)
Fixpoint includes (sep s : string) : bool :=
  String.prefix sep s ||
  match s with
  | EmptyString => false
  | String _ s' => includes sep s'
  end.

(** [split] with a non-empty separator, reading [s] left to right; [skip]
    counts the characters of a separator just matched that are still to be
    passed over. *)
Fixpoint split_go (sep : string) (skip : nat) (s : string) : list string :=
  match s with
  | EmptyString => [EmptyString]
  | String c s' =>
      match skip with
      | S k => split_go sep k s'
      | O =>
          if String.prefix sep s
          then EmptyString :: split_go sep (String.length sep - 1) s'
          else match split_go sep 0 s' with
               | [] => [String c EmptyString]
               | p :: ps => String c p :: ps
               end
      end
  end.

(** [String.prototype.split(sep)]: an empty separator cuts the string into
    its characters (and the empty string into no piece at all). *)
Definition split (sep s : string) : list string :=
  match sep with
  | EmptyString => map (fun c => String c EmptyString) (list_ascii_of_string s)
  | _ => split_go sep 0 s
  end.

(** Number to string, for the integers the task prints. *)
Definition str_nat (n : nat) : string := NilZero.string_of_uint (Nat.to_uint n).
Definition str_Z (z : Z) : string := NilZero.string_of_int (Z.to_int z).

(** [a[i] = x] on an array that may have holes: writing past the end extends
    the array, the skipped slots staying empty. *)
Definition array_set {A} (a : list (option A)) (i : nat) (x : A) : list (option A) :=
  if decide (i < length a) then <[i := Some x]> a
  else a ++ replicate (i - length a) None ++ [Some x].

(** Truthiness of a string: only the empty string is falsy. *)
Definition truthy (s : string) : bool :=
  match s with EmptyString => false | _ => true end.

(** Truthiness of a number that may be [undefined]. *)
Definition truthy_num (n : option Z) : bool :=
  match n with Some z => negb (Z.eqb z 0) | None => false end.

(** Does the string end with ['/']? *)
Fixpoint endsWithSlash (s : string) : bool :=
  match s with
  | EmptyString => false
  | String c EmptyString => Ascii.eqb c "/"
  | String _ s' => endsWithSlash s'
  end.

(** The directory that holds the file of the given path: what stands
    before the last ['/'] of the path; [None] when the path has no ['/'],
    the file then lying in the working directory. *)
Fixpoint dirname (p : string) : option string :=
  match p with
  | EmptyString => None
  | String c p' =>
      match dirname p' with
      | Some d => Some (String c d)
      | None => if Ascii.eqb c "/" then Some EmptyString else None
      end
  end.

End JS.

(** ** Configuration *)

Record Config := {
  apiOutputDir : string;
  imageOutputSubDir : string;
  apiPathPrefix : string;
  imgSizes : list Z;
  imgFormat : string;
  imThreadConcurrency : nat
}.

(** The [defaults] object; [build-api-config.json] is merged over it, so any
    [Config] can be the one in force. *)
Definition defaults : Config := {|
  apiOutputDir := "./dist/api/";
  imageOutputSubDir := "imgs/";
  apiPathPrefix := "/";
  imgSizes := [320; 640; 960]%Z;
  imgFormat := "jpg";
  imThreadConcurrency := 20
|}.

(** Lines 486-494 of [createImageVariant]: the path handed to the front end.
    Indexing an array past its end yields [undefined], which [+] prints. *)
Definition apiFilePath (config : Config) (outputFileName : string) : string :=
  match JS.split (apiOutputDir config) outputFileName with
  | [p] => p
  | parts => apiPathPrefix config +:+ nth 1 parts "undefined"
  end.

(** ** The thread manager ([tasks/helpers/ThreadManager.js]) *)

Module ThreadManager.
Section Limiter.
Context {J : Type} `{EqDecision J}.

(** Modelled from the spec: the source of [helpers/ThreadManager] is not in
    the tree.  A limiter has a fixed capacity, the tasks in flight, and the
    submissions waiting for a slot, oldest first.  [started] records the
    order in which tasks were let in. *)
Record t := {
  capacity : nat;
  running : list J;
  queue : list J;
  started : list J
}.

(** Modelled from the spec: [require('./helpers/ThreadManager')(capacity)],
    a limiter with every slot free. *)
Definition create (c : nat) : t :=
  {| capacity := c; running := []; queue := []; started := [] |}.

(** Modelled from the spec: [newThread(fn)] runs [fn] at once when fewer
    than [capacity] tasks are in flight, and otherwise queues it behind the
    earlier submissions. *)
Definition newThread (tm : t) (j : J) : t :=
  if decide (length (running tm) < capacity tm)
  then {| capacity := capacity tm; running := running tm ++ [j];
          queue := queue tm; started := started tm ++ [j] |}
  else {| capacity := capacity tm; running := running tm;
          queue := queue tm ++ [j]; started := started tm |}.

(** The first occurrence of [j] taken out of a list. *)
Fixpoint remove1 (j : J) (l : list J) : list J :=
  match l with
  | [] => []
  | k :: l' => if decide (k = j) then l' else k :: remove1 j l'
  end.

(** Modelled from the spec: [thread.resolve()], called by a task in flight,
    frees its slot; the oldest waiting submission, if any, begins.  Nothing
    else frees a slot (no time-outs, no cancellation). *)
Definition resolve (tm : t) (j : J) : t :=
  if decide (j ∈ running tm)
  then match queue tm with
       | [] => {| capacity := capacity tm; running := remove1 j (running tm);
                  queue := []; started := started tm |}
       | k :: q => {| capacity := capacity tm;
                      running := remove1 j (running tm) ++ [k];
                      queue := q; started := started tm ++ [k] |}
       end
  else tm.

(** What can happen to a limiter: a submission, or a task in flight
    announcing that it is done. *)
Inductive event :=
| Submit (j : J)
| Resolve (j : J).

Definition step (tm : t) (e : event) : t :=
  match e with
  | Submit j => newThread tm j
  | Resolve j => resolve tm j
  end.

Definition run (tm : t) (es : list event) : t := foldl step tm es.

(** The submissions among the events, in order. *)
Definition submitted (es : list event) : list J :=
  omap (fun e => match e with Submit j => Some j | Resolve _ => None end) es.

(** One submission followed to its end: the task is handed to the limiter
    and, if it was let in and is one that calls [thread.resolve()], it
    finishes. *)
Definition handle (releases : J -> bool) (tm : t) (j : J) : t :=
  let tm' := newThread tm j in
  if releases j then resolve tm' j else tm'.

(** The limiter once every task submitted in [order] that could finish has
    finished.  Each task is followed to its end before the next is
    submitted; any other interleaving of the same submissions lets the same
    tasks in ([ThreadManagerFacts.interleaving_irrelevant]). *)
Definition drain (releases : J -> bool) (tm : t) (order : list J) : t :=
  foldl (handle releases) tm order.

(** Is task [j] ever let in? *)
Definition verdict (releases : J -> bool) (tm : t) (order : list J) (j : J) : bool :=
  bool_decide (j ∈ started (drain releases tm order)).

(** Never more tasks in flight than slots, and a task waits only while
    every slot is taken. *)
Definition bounded (tm : t) : Prop :=
  length (running tm) <= capacity tm /\
  (queue tm <> [] -> length (running tm) = capacity tm).

(** An interleaving of submissions and completions that the tasks can
    produce: only a task in flight that calls [thread.resolve()] is ever
    resolved. *)
Fixpoint valid (releases : J -> bool) (tm : t) (es : list event) : Prop :=
  match es with
  | [] => True
  | Submit j :: es' => valid releases (newThread tm j) es'
  | Resolve j :: es' =>
      j ∈ running tm /\ releases j = true /\ valid releases (resolve tm j) es'
  end.

(** Nothing more can happen: every task in flight is one that never calls
    [thread.resolve()]. *)
Definition quiescent (releases : J -> bool) (tm : t) : Prop :=
  forall j, j ∈ running tm -> releases j = false.

(** A limiter at rest after the submissions [order]: the tasks let in are
    a prefix of [order], each was let in while fewer than [capacity] tasks
    held their slot for ever, those that hold their slot for ever are the
    ones still in flight, and a task waits only while every slot is
    taken. *)
Definition atRest (releases : J -> bool) (c : nat) (order : list J) (tm : t) : Prop :=
  started tm ++ queue tm = order /\
  length (running tm) = length (filter (fun j => releases j = false) (started tm)) /\
  (queue tm <> [] -> length (running tm) = c) /\
  forall p j rest, started tm = p ++ j :: rest ->
    length (filter (fun j => releases j = false) p) < c.

(** What holds of a limiter all along a valid interleaving, [sub] being
    the submissions so far. *)
Definition sound (releases : J -> bool) (c : nat) (sub : list J) (tm : t) : Prop :=
  capacity tm = c /\ bounded tm /\
  started tm ++ queue tm = sub /\
  (forall j, j ∈ started tm -> releases j = false -> j ∈ running tm) /\
  NoDup (running tm) /\
  (forall j, j ∈ running tm -> j ∈ started tm) /\
  forall p j rest, started tm = p ++ j :: rest ->
    length (filter (fun j => releases j = false) p) < c.

End Limiter.
Arguments t : clear implicits.
Arguments event : clear implicits.
End ThreadManager.

(** ** Data *)

(** Author-supplied values of the question metadata files. *)
#[local] Unset Elimination Schemes.
Inductive Json :=
| JNull
| JBool (b : bool)
| JNum (z : Z)
| JStr (s : string)
| JArr (l : list Json)
| JObj (l : list (string * Json)).
#[local] Set Elimination Schemes.

(** The fields of a metadata object, in file order. *)
Definition Fields := list (string * Json).

(** What [im.identify] reports of an image, as far as the task reads it. *)
Record Metadata := {
  height : option Z;
  width : option Z
}.

(** [imgFileData] once a probe has filled it: lines 367-369 set the three
    properties together, so the object is either [{}] ([None] below) or
    carries all three. *)
Record SrcImg := {
  metadata : Metadata;
  path : string;
  imgName : string
}.

(** [height/width], kept as the pair it is the quotient of. *)
Inductive Ratio := Quot (h w : Z).

(** [imgVariantsData]: [aspectRatio] is [null] ([None]) when a dimension is
    unknown; [srcs] maps a width to the API path of its variant. *)
Record ImgVariantsData := {
  srcs : gmap Z string;
  aspectRatio : option Ratio
}.

(** A question's identity: a sequence number, or a string. *)
Inductive QuestionId :=
| QNum (n : nat)
| QStr (s : string).

Definition str_questionId (q : QuestionId) : string :=
  match q with
  | QNum n => JS.str_nat n
  | QStr s => s
  end.

(** The [roundData] back-reference stored on a question. *)
Record RoundRef := {
  rr_roundId : nat;
  rr_title : string
}.

(** A question object: the author's fields, then what the task sets on it.
    [qd_imgs] is unset until the images have been dealt with. *)
Record QuestionData := {
  qd_fields : Fields;
  qd_questionId : QuestionId;
  qd_roundData : RoundRef;
  qd_imgs : option (list (string * ImgVariantsData))
}.

(** An entry of [src/questions/index.json]. *)
Record RoundSpec := {
  rs_title : string;
  rs_questions : list string;
  rs_example : option string
}.

(** The same object once [processRound] is done with it: [questions] and
    [example] deleted, [roundId], [questionsData] and possibly
    [exampleData] added. *)
Record RoundData := {
  rd_title : string;
  rd_roundId : nat;
  rd_questionsData : list (option QuestionData);
  rd_exampleData : option QuestionData
}.

Record ApiData := {
  rounds : list (option RoundData)
}.

(** One call of the resize tool: the source file, the file to write, the
    width, and the position of that width in [imgSizes]. *)
Record Job := {
  job_src : string;
  job_out : string;
  job_size : Z;
  job_pos : nat
}.

#[global] Instance Job_eq_dec : EqDecision Job.
Proof. solve_decision. Defined.

#[global] Instance QuestionId_eq_dec : EqDecision QuestionId.
Proof. solve_decision. Defined.

Inductive Error :=
| RequireFailed (dir : string)
| NotFound (imgPath : string)
| NoMetadata
| ResizeFailed (err : string)
| ENOENT (file : string).

(** What a run does that can be seen from outside. *)
Inductive Event :=
| DeleteFolder (dir : string)
| Log (msg : string)
| LogError (e : Error)
| Throw (e : Error)
| Mkdir (dir : string)
| NewThreadResize (j : Job)
| WriteFile (file data : string)
| WriteJson (file : string) (data : ApiData).

(** Has [fs.mkdirParent] been called in the trace? *)
Definition mkdirCalled (t : list Event) : bool :=
  existsb (fun e => match e with Mkdir _ => true | _ => false end) t.

(** The state a promise ends in. *)
Inductive Outcome (A : Type) :=
| Pending
| Fulfilled (value : A)
| Rejected (reason : Error).
Arguments Pending {A}.
Arguments Fulfilled {A} value.
Arguments Rejected {A} reason.

Definition settled {A} (p : Outcome A) : bool :=
  match p with Pending => false | _ => true end.

Definition fulfilled {A} (p : Outcome A) : bool :=
  match p with Fulfilled _ => true | _ => false end.

(** [Q.allSettled(ps).then(...)] gets to run exactly when every promise of
    [ps] has settled. *)
Definition allSettled {A} (ps : list (Outcome A)) : bool := forallb settled ps.

(** The content tree, the configuration and the external tools. *)
Record World := {
  config : Config;
  (** [src/questions/index.json] *)
  questionsIndex : list RoundSpec;
  (** [require] of a question's [index.json]; [None] when it throws *)
  requireQuestion : string -> option Fields;
  (** the metadata [im.identify] passes to its callback; [None] is
      [undefined] *)
  im_identify : string -> option Metadata;
  fs_readFileSync : string -> string;
  (** the file system before the run: is there a directory of this path;
      only asked of directories that lie outside the output directory *)
  dirBefore : string -> bool;
  (** [im.resize] on given bytes, width and format: an error, or the bytes
      of the resized image *)
  im_resize : string -> Z -> string -> string + string
}.

(** What the timing of the external tools decides. *)
Record Schedule := {
  (** for the role with this base path: does the png identification
      callback run after the jpg one *)
  pngLast : string -> bool;
  (** the order in which the resize tasks are handed to their limiter *)
  resizeOrder : list Job
}.

(** ** Computations that emit events *)

Definition Task (A : Type) : Type := list Event * A.

#[global] Instance Task_ret : MRet Task := fun A x => ([], x).
#[global] Instance Task_bind : MBind Task :=
  fun A B f m => let r := f m.2 in (m.1 ++ r.1, r.2).

Definition emit (e : Event) : Task unit := ([e], tt).

(** [array.forEach(function (x, i) {...})], collecting what each call
    produced. *)
Fixpoint forEachFrom {A B} (i : nat) (f : A -> nat -> Task B) (l : list A)
  : Task (list B) :=
  match l with
  | [] => mret []
  | x :: l' => y ← f x i; ys ← forEachFrom (S i) f l'; mret (y :: ys)
  end.

Definition forEach {A B} (f : A -> nat -> Task B) (l : list A) : Task (list B) :=
  forEachFrom 0 f l.

(** A [forEach] whose callback updates variables of the enclosing scope. *)
Fixpoint foldTask {A S} (f : S -> A -> Task S) (st : S) (l : list A) : Task S :=
  match l with
  | [] => mret st
  | x :: l' => st' ← f st x; foldTask f st' l'
  end.

(** ** The build, given what the limiters decide *)

Section Build.

Variable W : World.
(** [pngLast] of the schedule. *)
Variable pngLast_ : string -> bool.
(** Is the resize task ever let in by [threadManager_imResize]? *)
Variable slot : Job -> bool.

(** Every identification task calls [thread.resolve()] (line 379), so
    [threadManager_imIdentify] lets each one in as soon as it has a slot at
    all. *)
Definition identifySlot : bool :=
  bool_decide (0 < imThreadConcurrency (config W)).

(** The callback of [im.resize] (lines 475-500), run for a task that was
    let in: the promise of the variant, and whether [thread.resolve()] was
    reached.  On an error the callback returns at line 480. *)
Definition resizeThread (imgData : string) (size : Z) (outputFileName : string)
  : Task (Outcome string * bool) :=
  match im_resize W imgData size (imgFormat (config W)) with
  | inl err => mret (Rejected (ResizeFailed err), false)
  | inr stdout =>
      emit (WriteFile outputFileName stdout);;
      mret (Fulfilled (apiFilePath (config W) outputFileName), true)
  end.

(** [createImageVariant]; [pos] is the position of [size] in [imgSizes]. *)
Definition createImageVariant (srcImg : SrcImg) (outputDir : string) (size : Z)
    (roundId : nat) (questionId : QuestionId) (pos : nat) : Task (Outcome string) :=
  let imgData := fs_readFileSync W (path srcImg) in
  let outputDir := outputDir +:+ "/" +:+ imgName srcImg in
  emit (Mkdir outputDir);;
  let outputFileName :=
    outputDir +:+ "/" +:+
    "r" +:+ JS.str_nat roundId +:+
    "q" +:+ str_questionId questionId +:+ "." +:+
    imgName srcImg +:+ "." +:+ JS.str_Z size +:+
    "." +:+ imgFormat (config W) in
  let job := {| job_src := path srcImg; job_out := outputFileName;
                job_size := size; job_pos := pos |} in
  emit (NewThreadResize job);;
  if slot job
  then r ← resizeThread imgData size outputFileName; mret r.1
  else mret Pending.

(** One identification probe (lines 353-388): the promise
    [foundImgPromises[imgType]], carrying what the callback stores in
    [imgFileData] when it finds metadata. *)
Definition probe (imgPath imgName_ imgType : string) : Outcome SrcImg :=
  let imgFilePath := imgPath +:+ "." +:+ imgType in
  if identifySlot
  then match im_identify W imgFilePath with
       | Some md => Fulfilled {| metadata := md; path := imgFilePath;
                                 imgName := imgName_ |}
       | None => Rejected NoMetadata
       end
  else Pending.

(** A probe's callback overwrites [imgFileData] when it found metadata. *)
Definition store (imgFileData : option SrcImg) (p : Outcome SrcImg) : option SrcImg :=
  match p with
  | Fulfilled src => Some src
  | _ => imgFileData
  end.

Definition aspectRatioOf (md : Metadata) : option Ratio :=
  if JS.truthy_num (height md) && JS.truthy_num (width md)
  then match height md, width md with
       | Some h, Some w => Some (Quot h w)
       | _, _ => None
       end
  else None.

(** [imgVariantsData.srcs[size] = fileName], run for a fulfilled variant. *)
Definition saveSrc (m : gmap Z string) (v : Z * Outcome string) : gmap Z string :=
  match v.2 with
  | Fulfilled fileName => <[v.1 := fileName]> m
  | _ => m
  end.

(** [imgFileData] once the callbacks of both probes have run, in the order
    the schedule gives them. *)
Definition imgFileData (imgPath imgName_ : string) : option SrcImg :=
  let png := probe imgPath imgName_ "png" in
  let jpg := probe imgPath imgName_ "jpg" in
  foldl store None (if pngLast_ imgPath then [jpg; png] else [png; jpg]).

(** The callback of [config.imgSizes.forEach] (lines 417-429): the promise
    of the variant of one width, with the width. *)
Definition forEachSize (src : SrcImg) (outputDir : string) (roundId : nat)
    (questionId : QuestionId) (size : Z) (pos : nat) : Task (Z * Outcome string) :=
  p ← createImageVariant src outputDir size roundId questionId pos;
  mret (size, p).

(** [createImageVariants]: the promise [imgProcessComplete]. *)
Definition createImageVariants (imgPath distDir imgName_ : string)
    (roundId : nat) (questionId : QuestionId) : Task (Outcome ImgVariantsData) :=
  let outputDir :=
    distDir +:+ "round-" +:+ JS.str_nat roundId +:+ "/" +:+
    "question-" +:+ str_questionId questionId in
  let png := probe imgPath imgName_ "png" in
  let jpg := probe imgPath imgName_ "jpg" in
  if allSettled [png; jpg]
  then match imgFileData imgPath imgName_ with
       | None =>
           emit (LogError (NotFound imgPath));;
           emit (Throw (NotFound imgPath));;
           mret Pending
       | Some src =>
           imgVariantPromises ←
             forEach (forEachSize src outputDir roundId questionId)
                     (imgSizes (config W));
           mret (if allSettled (imgVariantPromises.*2)
                 then Fulfilled {| srcs := foldl saveSrc ∅ imgVariantPromises;
                                   aspectRatio := aspectRatioOf (metadata src) |}
                 else Pending)
       end
  else mret Pending.

Definition imgKeys : list string := ["a"; "b"; "mix"].

(** [tempImgsData[imgName] = imgVariantsData], run when the role's promise
    is fulfilled. *)
Definition saveImg (m : gmap string ImgVariantsData)
    (v : string * Outcome ImgVariantsData) : gmap string ImgVariantsData :=
  match v.2 with
  | Fulfilled d => <[v.1 := d]> m
  | _ => m
  end.

(** [imgReadyPromise]: resolved by the fulfilment handler of line 284 and by
    nothing else. *)
Definition imgReady (v : string * Outcome ImgVariantsData) : Outcome unit :=
  match v.2 with
  | Fulfilled _ => Fulfilled tt
  | _ => Pending
  end.

(** The callback of [imgKeys.forEach] (lines 274-294): the promise of the
    role's variants, with the role. *)
Definition forEachImg (questionImgDir distDir : string)
    (questionDataTemp : QuestionData) (imgName_ : string) (_ : nat)
  : Task (string * Outcome ImgVariantsData) :=
  v ← createImageVariants (questionImgDir +:+ "/" +:+ imgName_) distDir imgName_
        (rr_roundId (qd_roundData questionDataTemp))
        (qd_questionId questionDataTemp);
  mret (imgName_, v).

(** [createQuestionsImages], on the clone of [questionDataTemp]. *)
Definition createQuestionsImages (questionDir : string)
    (questionDataTemp : QuestionData) : Task (Outcome QuestionData) :=
  let distDir := apiOutputDir (config W) +:+ imageOutputSubDir (config W) in
  let questionImgDir := "./src/questions/" +:+ questionDir in
  emit (Log ("Started:   " +:+ questionDir));;
  variants ← forEach (forEachImg questionImgDir distDir questionDataTemp) imgKeys;
  let tempImgsData := foldl saveImg ∅ variants in
  if allSettled (imgReady <$> variants)
  then
    emit (Log ("Completed: " +:+ questionDir));;
    mret (Fulfilled
            {| qd_fields := qd_fields questionDataTemp;
               qd_questionId := qd_questionId questionDataTemp;
               qd_roundData := qd_roundData questionDataTemp;
               qd_imgs := Some (omap (fun k => (fun d => (k, d)) <$> tempImgsData !! k)
                                     imgKeys) |})
  else mret Pending.

(** [getQuestionData]: the metadata object, or [null]. *)
Definition getQuestionData (questionDir : string) : Task (option Fields) :=
  match requireQuestion W questionDir with
  | Some questionData => mret (Some questionData)
  | None => emit (LogError (RequireFailed questionDir));; mret None
  end.

(** The variables of [processRound] that [forEachQuestion] updates. *)
Record RoundState := {
  questionId : nat;
  questionPromises : list (Outcome QuestionData)
}.

Definition forEachQuestion (roundData : RoundRef) (isExample : bool)
    (st : RoundState) (questionDir : string) : Task RoundState :=
  questionDataTemp ← getQuestionData questionDir;
  match questionDataTemp with
  | Some fields =>
      let id := if isExample then QStr "e" else QNum (questionId st) in
      let next := if isExample then questionId st else S (questionId st) in
      p ← createQuestionsImages questionDir
            {| qd_fields := fields; qd_questionId := id;
               qd_roundData := roundData; qd_imgs := None |};
      mret {| questionId := next;
              questionPromises := questionPromises st ++ [p] |}
  | None => mret st
  end.

(** The fulfilment handler of lines 178-188.  An identity other than ['e']
    is a sequence number here; a string would name a property of the array
    that is not one of its elements. *)
Definition saveQuestion (roundData : RoundData) (p : Outcome QuestionData) : RoundData :=
  match p with
  | Fulfilled questionData =>
      if decide (qd_questionId questionData <> QStr "e")
      then
        match qd_questionId questionData with
        | QNum n =>
            {| rd_title := rd_title roundData; rd_roundId := rd_roundId roundData;
               rd_questionsData :=
                 JS.array_set (rd_questionsData roundData) n questionData;
               rd_exampleData := rd_exampleData roundData |}
        | QStr _ => roundData
        end
      else
        {| rd_title := rd_title roundData; rd_roundId := rd_roundId roundData;
           rd_questionsData := rd_questionsData roundData;
           rd_exampleData := Some questionData |}
  | _ => roundData
  end.

(** [processRound]: the promise [roundReadyPromise]. *)
Definition processRound (roundData : RoundSpec) (i : nat) : Task (Outcome RoundData) :=
  let ref := {| rr_roundId := i; rr_title := rs_title roundData |} in
  st ← foldTask (forEachQuestion ref false)
         {| questionId := 0; questionPromises := [] |} (rs_questions roundData);
  st ← match rs_example roundData with
       | Some dir => if JS.truthy dir then forEachQuestion ref true st dir else mret st
       | None => mret st
       end;
  mret (if allSettled (questionPromises st)
        then Fulfilled
               (foldl saveQuestion
                  {| rd_title := rs_title roundData; rd_roundId := i;
                     rd_questionsData := []; rd_exampleData := None |}
                  (questionPromises st))
        else Pending).

(** The fulfilment handler of lines 109-112. *)
Definition saveRound (apiData : ApiData) (p : Outcome RoundData) : ApiData :=
  match p with
  | Fulfilled roundData =>
      {| rounds := JS.array_set (rounds apiData) (rd_roundId roundData) roundData |}
  | _ => apiData
  end.

Definition successMessage : string := "SUCCESS! JSON saved to API.".

(** [roundPromises], with what building them emits. *)
Definition roundPromises : Task (list (Outcome RoundData)) :=
  forEach processRound (questionsIndex W).

(** Is there a directory for [index.json] when [saveJsonApi] runs?  Line 99
    has deleted the output directory, and only [fs.mkdirParent] (line 460)
    makes directories; each one it makes lies below the output directory
    and is made with its ancestors.  [made] says whether it has been called
    since the deletion.  When [apiOutputDir] ends with ['/'] the file lies
    in the deleted directory itself, which is there again exactly when
    [fs.mkdirParent] has made something below it.  Otherwise the file lies
    beside the output directory, in a directory that the deletion leaves
    alone: the working directory when [apiOutputDir] has no ['/'], else a
    directory that is there when it was there before the run or came back
    as an ancestor of what [fs.mkdirParent] made. *)
Definition indexDirExists (made : bool) : bool :=
  match JS.dirname (apiOutputDir (config W) +:+ "index.json") with
  | None => true
  | Some dir =>
      made
      || (negb (JS.endsWithSlash (apiOutputDir (config W))) && dirBefore W dir)
  end.

(** [saveJsonApi]: [jsonfile.writeFileSync] throws when there is no
    directory for the file.  The result tells whether the call returned. *)
Definition saveJsonApi (made : bool) (data : ApiData) : Task bool :=
  let file := apiOutputDir (config W) +:+ "index.json" in
  if indexDirExists made
  then emit (WriteJson file data);; mret true
  else emit (Throw (ENOENT file));; mret false.

(** [buildApiMaster]: the promise [taskComplete].  An exception thrown by
    [saveJsonApi] leaves the continuation of line 120 before the success
    message and before [taskComplete.resolve()]. *)
Definition buildApiMaster : Task (Outcome unit) :=
  emit (DeleteFolder (apiOutputDir (config W)));;
  ps ← roundPromises;
  let apiData := foldl saveRound {| rounds := [] |} ps in
  if allSettled ps
  then
    saveJsonApi (mkdirCalled roundPromises.1) apiData ≫= fun saved : bool =>
    if saved
    then emit (Log successMessage);; mret (Fulfilled tt)
    else mret Pending
  else mret Pending.

End Build.

(** ** The run *)

(** The two limiters of lines 76-77, both of the one configured capacity. *)
Definition threadManager_imIdentify (W : World) : ThreadManager.t string :=
  ThreadManager.create (imThreadConcurrency (config W)).
Definition threadManager_imResize (W : World) : ThreadManager.t Job :=
  ThreadManager.create (imThreadConcurrency (config W)).

(** Does the resize task of [j] reach [thread.resolve()]? *)
Definition resizeReleases (W : World) (j : Job) : bool :=
  (resizeThread W (fs_readFileSync W (job_src j)) (job_size j) (job_out j)).2.2.

(** The resize limiter's decisions under a schedule. *)
Definition resizeSlot (W : World) (S : Schedule) : Job -> bool :=
  ThreadManager.verdict (resizeReleases W) (threadManager_imResize W) (resizeOrder S).

(** The gulp task ['build-api']: one call of [buildApiMaster]. *)
Definition build_api (W : World) (S : Schedule) : Task (Outcome unit) :=
  buildApiMaster W (pngLast S) (resizeSlot W S).

(** The resize tasks a trace submits, in the order of the trace. *)
Definition resizeJobs (t : list Event) : list Job :=
  omap (fun e => match e with NewThreadResize j => Some j | _ => None end) t.

(** A schedule fits a run when it orders exactly the resize tasks that the
    run submits. *)
Definition schedule_ok (W : World) (S : Schedule) : Prop :=
  resizeOrder S ≡ₚ resizeJobs (build_api W S).1.

(** The schedule in which the resize tasks reach their limiter in program
    order. *)
Definition inOrder (W : World) (pl : string -> bool) : Schedule :=
  {| pngLast := pl;
     resizeOrder := resizeJobs (buildApiMaster W pl (fun _ => true)).1 |}.

(** The index files a trace writes. *)
Definition indexWrites (t : list Event) : list ApiData :=
  omap (fun e => match e with WriteJson _ d => Some d | _ => None end) t.

(** ** The two limiters side by side *)

(** An event on one of the two limiters. *)
Inductive LimiterEvent :=
| OnIdentify (e : ThreadManager.event string)
| OnResize (e : ThreadManager.event Job).

Definition limiters_step
    (s : ThreadManager.t string * ThreadManager.t Job) (e : LimiterEvent)
  : ThreadManager.t string * ThreadManager.t Job :=
  match e with
  | OnIdentify e => (ThreadManager.step s.1 e, s.2)
  | OnResize e => (s.1, ThreadManager.step s.2 e)
  end.

Definition limiters_run (W : World) (es : list LimiterEvent)
  : ThreadManager.t string * ThreadManager.t Job :=
  foldl limiters_step (threadManager_imIdentify W, threadManager_imResize W) es.

Definition identifyEvents (es : list LimiterEvent) : list (ThreadManager.event string) :=
  omap (fun e => match e with OnIdentify e => Some e | _ => None end) es.

Definition resizeEvents (es : list LimiterEvent) : list (ThreadManager.event Job) :=
  omap (fun e => match e with OnResize e => Some e | _ => None end) es.

(** ** Reading a trace *)

(** Events of the work below the top level: neither the index file nor the
    success message. *)
Definition inner (e : Event) : Prop :=
  match e with
  | WriteJson _ _ => False
  | Log msg => msg <> successMessage
  | _ => True
  end.

(** The continuation of line 120 runs and [saveJsonApi] returns: every
    round has settled and there is a directory for the index file. *)
Definition indexSaved (W : World) (pl : string -> bool) (slot : Job -> bool) : bool :=
  allSettled (roundPromises W pl slot).2
  && indexDirExists W (mkdirCalled (roundPromises W pl slot).1).

(** What the continuation of line 120 emits, when it runs. *)
Definition ending (W : World) (pl : string -> bool) (slot : Job -> bool) : list Event :=
  if allSettled (roundPromises W pl slot).2
  then if indexDirExists W (mkdirCalled (roundPromises W pl slot).1)
       then [WriteJson (apiOutputDir (config W) +:+ "index.json")
               (foldl saveRound {| rounds := [] |} (roundPromises W pl slot).2);
             Log successMessage]
       else [Throw (ENOENT (apiOutputDir (config W) +:+ "index.json"))]
  else [].

(** Every resize task that the trace submits is let in. *)
Definition letIn (slot : Job -> bool) (t : list Event) : Prop :=
  forall j, NewThreadResize j ∈ t -> slot j = true.

(** The questions a round refers to: the declared ones, then the example
    when the round has one. *)
Definition questionRefs (r : RoundSpec) : list string :=
  rs_questions r ++
  match rs_example r with
  | Some dir => if JS.truthy dir then [dir] else []
  | None => []
  end.

(** The base path of the source image of a role. *)
Definition imgPathOf (questionDir imgName_ : string) : string :=
  ("./src/questions/" +:+ questionDir) +:+ "/" +:+ imgName_.

(** The promise of one role of a question, as [createQuestionsImages]
    requests it. *)
Definition role (W : World) (pl : string -> bool) (slot : Job -> bool)
    (questionDir : string) (q : QuestionData) (k : string)
  : Task (Outcome ImgVariantsData) :=
  createImageVariants W pl slot (imgPathOf questionDir k)
    (apiOutputDir (config W) +:+ imageOutputSubDir (config W)) k
    (rr_roundId (qd_roundData q)) (qd_questionId q).

(** The question object that [createQuestionsImages] resolves with. *)
Definition withImgs (q : QuestionData) (imgs : list (string * ImgVariantsData))
  : QuestionData :=
  {| qd_fields := qd_fields q; qd_questionId := qd_questionId q;
     qd_roundData := qd_roundData q; qd_imgs := Some imgs |}.

(** The question object that [forEachQuestion] hands to
    [createQuestionsImages]; [n] is the sequence counter at that point. *)
Definition questionOf (ref : RoundRef) (isExample : bool) (n : nat)
    (fields : Fields) : QuestionData :=
  {| qd_fields := fields;
     qd_questionId := if isExample then QStr "e" else QNum n;
     qd_roundData := ref; qd_imgs := None |}.

(** The questions of a list whose metadata loads, in order, with their
    metadata. *)
Definition loadedQuestions (W : World) (dirs : list string) : list (string * Fields) :=
  omap (fun dir => (fun f => (dir, f)) <$> requireQuestion W dir) dirs.

(** The example question of a round, when the round names one and its
    metadata loads. *)
Definition exampleOf (W : World) (r : RoundSpec) : option (string * Fields) :=
  match rs_example r with
  | Some dir =>
      if JS.truthy dir then (fun f => (dir, f)) <$> requireQuestion W dir else None
  | None => None
  end.

(** The promises of the numbered questions of a round, the counter
    starting at [n]. *)
Definition numberedPromises (W : World) (pl : string -> bool) (slot : Job -> bool)
    (ref : RoundRef) (n : nat) (loaded : list (string * Fields))
  : list (Outcome QuestionData) :=
  imap (fun k df =>
          (createQuestionsImages W pl slot df.1 (questionOf ref false (n + k) df.2)).2)
       loaded.

(** The promise of the example question, if there is one. *)
Definition examplePromise (W : World) (pl : string -> bool) (slot : Job -> bool)
    (ref : RoundRef) (n : nat) (r : RoundSpec) : list (Outcome QuestionData) :=
  match exampleOf W r with
  | Some df => [(createQuestionsImages W pl slot df.1 (questionOf ref true n df.2)).2]
  | None => []
  end.

(** [questionPromises] when [processRound] reaches its [Q.allSettled]. *)
Definition questionPromisesOf (W : World) (pl : string -> bool) (slot : Job -> bool)
    (r : RoundSpec) (i : nat) : list (Outcome QuestionData) :=
  let ref := {| rr_roundId := i; rr_title := rs_title r |} in
  numberedPromises W pl slot ref 0 (loadedQuestions W (rs_questions r))
  ++ examplePromise W pl slot ref (length (loadedQuestions W (rs_questions r))) r.

(** [roundData] as [processRound] has it before any question is saved. *)
Definition emptyRound (r : RoundSpec) (i : nat) : RoundData :=
  {| rd_title := rs_title r; rd_roundId := i;
     rd_questionsData := []; rd_exampleData := None |}.

(** What [processRound] emits for the example question, [st] being the
    state after the numbered questions. *)
Definition exampleTask (W : World) (pl : string -> bool) (slot : Job -> bool)
    (ref : RoundRef) (st : RoundState) (r : RoundSpec) : Task RoundState :=
  match rs_example r with
  | Some dir =>
      if JS.truthy dir then forEachQuestion W pl slot ref true st dir else mret st
  | None => mret st
  end.

(** [q] is [q0] with the results of its three roles as [imgs]. *)
Definition resultOf (W : World) (pl : string -> bool) (slot : Job -> bool)
    (questionDir : string) (q0 q : QuestionData) : Prop :=
  exists da db dm,
    (role W pl slot questionDir q0 "a").2 = Fulfilled da /\
    (role W pl slot questionDir q0 "b").2 = Fulfilled db /\
    (role W pl slot questionDir q0 "mix").2 = Fulfilled dm /\
    q = withImgs q0 [("a", da); ("b", db); ("mix", dm)].

(** Some accepted format of the image yields metadata. *)
Definition found (W : World) (imgPath : string) : bool :=
  bool_decide (is_Some (im_identify W (imgPath +:+ "." +:+ "png"))) ||
  bool_decide (is_Some (im_identify W (imgPath +:+ "." +:+ "jpg"))).

(** Every question whose metadata loads has a source image for each of its
    three roles. *)
Definition sourcesFound (W : World) : bool :=
  forallb (fun r =>
    forallb (fun dir =>
      match requireQuestion W dir with
      | Some _ => forallb (fun k => found W (imgPathOf dir k)) imgKeys
      | None => true
      end) (questionRefs r)) (questionsIndex W).

(** The run reaches its end: [taskComplete] is resolved and the success
    message is printed. *)
Definition completes (W : World) (S : Schedule) : Prop :=
  (build_api W S).2 = Fulfilled tt /\ Log successMessage ∈ (build_api W S).1.

(** ** Statements *)

(** The resize tasks of a schedule that never free their slot. *)
Definition leaks (W : World) (S : Schedule) : list Job :=
  filter (fun j => resizeReleases W j = false) (resizeOrder S).

(** The index file is written exactly once. *)
Definition writesIndexOnce (W : World) (S : Schedule) : Prop :=
  length (indexWrites (build_api W S).1) = 1.

(** The error of a missing source image propagates out of the processing
    of the role [k] of the question in [dir]: the promise that
    [createImageVariants] returns for the role is rejected. *)
Definition propagates (W : World) (S : Schedule) (dir k : string) : Prop :=
  exists q e, (role W (pngLast S) (resizeSlot W S) dir q k).2 = Rejected e.

(** The run leaves work that remains beside the question in [dir]: some
    other question of the index whose metadata loads is not completed. *)
Definition abandons (W : World) (S : Schedule) (dir : string) : Prop :=
  exists r dir',
    r ∈ questionsIndex W /\ dir' ∈ questionRefs r /\
    is_Some (requireQuestion W dir') /\ dir' <> dir /\
    Log ("Completed: " +:+ dir') ∉ (build_api W S).1.

(** The run aborts on the role [k] of the question in [dir]: the error
    propagates out of the role's processing and the run does not complete
    the work that remains. *)
Definition abortsOn (W : World) (S : Schedule) (dir k : string) : Prop :=
  propagates W S dir k /\ abandons W S dir.

(** The identities and the author's fields of the entries of
    [questionsData], hole for hole. *)
Definition questionIds (rd : RoundData) : list (option QuestionId) :=
  (fun q : option QuestionData => qd_questionId <$> q) <$> rd_questionsData rd.
Definition questionFields (rd : RoundData) : list (option Fields) :=
  (fun q : option QuestionData => qd_fields <$> q) <$> rd_questionsData rd.

(** The identity of the example question, if the round has one. *)
Definition exampleId (rd : RoundData) : option QuestionId :=
  qd_questionId <$> rd_exampleData rd.

(** The identities in a round of the output: the numbered questions carry
    0, 1, ... in the order of declaration, one number per question whose
    metadata loads and no gap in the array; the example question, kept
    apart in [exampleData], carries the string [sentinel]. *)
Definition numbering (sentinel : string) (W : World) (pl : string -> bool)
    (slot : Job -> bool) (r : RoundSpec) (i : nat) : Prop :=
  forall rd, (processRound W pl slot r i).2 = Fulfilled rd ->
    questionIds rd
      = (fun n => Some (QNum n)) <$> seq 0 (length (loadedQuestions W (rs_questions r))) /\
    questionFields rd
      = (fun df => Some df.2) <$> loadedQuestions W (rs_questions r) /\
    exampleId rd = (fun _ => QStr sentinel) <$> exampleOf W r /\
    qd_fields <$> rd_exampleData rd = snd <$> exampleOf W r.

(** The source resolved for a role does not depend on the schedule. *)
Definition sameSource (W : World) (imgPath imgName_ : string) : Prop :=
  forall pl1 pl2 : string -> bool,
    imgFileData W pl1 imgPath imgName_ = imgFileData W pl2 imgPath imgName_.

(** What a probe stores when its format yields the metadata [md]. *)
Definition sourceOf (imgPath imgName_ imgType : string) (md : Metadata) : SrcImg :=
  {| metadata := md; path := imgPath +:+ "." +:+ imgType; imgName := imgName_ |}.



(** The file that [createImageVariant] writes, and the task it submits. *)
Definition outputFileNameOf (W : World) (src : SrcImg) (outputDir : string)
    (size : Z) (roundId : nat) (qid : QuestionId) : string :=
  (outputDir +:+ "/" +:+ imgName src) +:+ "/" +:+
  "r" +:+ JS.str_nat roundId +:+
  "q" +:+ str_questionId qid +:+ "." +:+
  imgName src +:+ "." +:+ JS.str_Z size +:+
  "." +:+ imgFormat (config W).

Definition jobOf (W : World) (src : SrcImg) (outputDir : string)
    (size : Z) (roundId : nat) (qid : QuestionId) (pos : nat) : Job :=
  {| job_src := path src;
     job_out := outputFileNameOf W src outputDir size roundId qid;
     job_size := size; job_pos := pos |}.

(** The resize tool succeeds on the source at this width. *)
Definition resizes (W : World) (src : SrcImg) (size : Z) : Prop :=
  exists out,
    im_resize W (fs_readFileSync W (path src)) size (imgFormat (config W)) = inr out.

(** The files a trace writes, the index apart. *)
Definition writtenFiles (t : list Event) : list string :=
  omap (fun e => match e with WriteFile f _ => Some f | _ => None end) t.

(** ** Calls, paths and errors *)

(** The directory below which the variants of a question are written
    (lines 259 and 344-347). *)
Definition outputDirOf (W : World) (roundId : nat) (qid : QuestionId) : string :=
  (apiOutputDir (config W) +:+ imageOutputSubDir (config W)) +:+
  "round-" +:+ JS.str_nat roundId +:+ "/" +:+
  "question-" +:+ str_questionId qid.

(** The calls of [createQuestionsImages] that [processRound] makes for the
    round [r] at position [i]: the directory and the question object handed
    over, the numbered questions first, then the example. *)
Definition questionCalls (W : World) (r : RoundSpec) (i : nat)
  : list (string * QuestionData) :=
  let ref := {| rr_roundId := i; rr_title := rs_title r |} in
  imap (fun k df => (df.1, questionOf ref false k df.2))
       (loadedQuestions W (rs_questions r))
  ++ match exampleOf W r with
     | Some df =>
         [(df.1, questionOf ref true (length (loadedQuestions W (rs_questions r))) df.2)]
     | None => []
     end.

(** Events that [createImageVariant] emits. *)
Definition variantEvent (e : Event) : Prop :=
  match e with
  | Mkdir _ | NewThreadResize _ | WriteFile _ _ => True
  | _ => False
  end.

(** The path of a variant below the output directory, as lines 259,
    344-347, 457 and 463-467 put it together. *)
Definition variantPath (W : World) (roundId : nat) (qid : QuestionId)
    (k : string) (w : Z) : string :=
  imageOutputSubDir (config W) +:+ "round-" +:+ JS.str_nat roundId +:+
  "/" +:+ "question-" +:+ str_questionId qid +:+ "/" +:+ k +:+ "/" +:+
  "r" +:+ JS.str_nat roundId +:+ "q" +:+ str_questionId qid +:+ "." +:+
  k +:+ "." +:+ JS.str_Z w +:+ "." +:+ imgFormat (config W).

(** A call of [createImageVariant] within a run: the round, the question,
    the role, the source resolved for it, and the width. *)
Record VariantCall := {
  vc_round : nat;
  vc_spec : RoundSpec;
  vc_dir : string;
  vc_question : QuestionData;
  vc_role : string;
  vc_src : SrcImg;
  vc_pos : nat;
  vc_size : Z
}.

(** What the call emits, and the promise it returns. *)
Definition variantOf (W : World) (slot : Job -> bool) (c : VariantCall)
  : Task (Outcome string) :=
  createImageVariant W slot (vc_src c)
    (outputDirOf W (vc_round c) (qd_questionId (vc_question c)))
    (vc_size c) (vc_round c) (qd_questionId (vc_question c)) (vc_pos c).

(** The call is made in a run over [W]: its round is in the index, its
    question is handed over by [processRound], its role is one of the
    three, its source is the one the probes resolved, and its width is
    configured. *)
Definition called (W : World) (pl : string -> bool) (c : VariantCall) : Prop :=
  questionsIndex W !! vc_round c = Some (vc_spec c) /\
  (vc_dir c, vc_question c) ∈ questionCalls W (vc_spec c) (vc_round c) /\
  vc_role c ∈ imgKeys /\
  imgFileData W pl (imgPathOf (vc_dir c) (vc_role c)) (vc_role c) = Some (vc_src c) /\
  imgSizes (config W) !! vc_pos c = Some (vc_size c).

(** The identities that [forEachQuestion] hands out: a sequence number, or
    ['e'] for the example. *)
Definition handedOut (qid : QuestionId) : Prop :=
  qid = QStr "e" \/ exists n, qid = QNum n.

(** A file of the output tree at the place of a variant: round [i] of the
    index, a question identity, one of the three roles, a configured
    width. *)
Definition variantFileOf (W : World) (file : string) : Prop :=
  exists i qid k w,
    i < length (questionsIndex W) /\ handedOut qid /\
    k ∈ imgKeys /\ w ∈ imgSizes (config W) /\
    file = apiOutputDir (config W) +:+ variantPath W i qid k w.

(** A resize task that comes from the content tree: identification has a
    slot and recognised the source file, which is the png or the jpg of a
    role of a question whose metadata loads, and the width is the
    configured one at the task's position. *)
Definition sourcedJob (W : World) (j : Job) : Prop :=
  0 < imThreadConcurrency (config W) /\
  is_Some (im_identify W (job_src j)) /\
  imgSizes (config W) !! job_pos j = Some (job_size j) /\
  variantFileOf W (job_out j) /\
  exists r dir k ext,
    r ∈ questionsIndex W /\ dir ∈ questionRefs r /\
    is_Some (requireQuestion W dir) /\ k ∈ imgKeys /\
    ext ∈ ["png"; "jpg"] /\
    job_src j = imgPathOf dir k +:+ "." +:+ ext.

(** Some question of the index has metadata that loads. *)
Definition anyLoaded (W : World) : bool :=
  existsb (fun r =>
    existsb (fun dir => bool_decide (is_Some (requireQuestion W dir)))
            (questionRefs r)) (questionsIndex W).

(** The run has a variant to make: some question of the index has metadata
    that loads, and some width is configured. *)
Definition variantsDue (W : World) : bool :=
  anyLoaded W && negb (bool_decide (imgSizes (config W) = [])).

(** There is a directory for the index file at the end of a run in which
    [fs.mkdirParent] is called for the variants that are due. *)
Definition indexDirReady (W : World) : bool := indexDirExists W (variantsDue W).

(** A promise that is fulfilled or stays pending. *)
Definition notRejected {A} (p : Outcome A) : Prop :=
  match p with Rejected _ => False | _ => True end.

(** Events other than the deletion of a folder. *)
Definition keepsFolders (e : Event) : Prop :=
  match e with DeleteFolder _ => False | _ => True end.


(** Does the character occur in the string? *)
Fixpoint occurs (c : ascii) (s : string) : bool :=
  match s with
  | EmptyString => false
  | String c' s' => Ascii.eqb c c' || occurs c s'
  end.

(** The base path [p] is that of a role of a question of the index whose
    metadata loads, no accepted format of the image yields metadata, and
    identification has a slot. *)
Definition missingSource (W : World) (p : string) : Prop :=
  0 < imThreadConcurrency (config W) /\ found W p = false /\
  exists r dir k,
    r ∈ questionsIndex W /\ dir ∈ questionRefs r /\
    is_Some (requireQuestion W dir) /\ k ∈ imgKeys /\ p = imgPathOf dir k.

(** The errors that a run reports. *)
Definition reportedError (e : Event) : option Error :=
  match e with
  | LogError err | Throw err => Some err
  | _ => None
  end.

(** No image of the tree is identified in both formats: for every role of
    every question that the index refers to, the png or the jpg yields no
    metadata. *)
Definition oneFormat (W : World) : Prop :=
  forall r dir k,
    r ∈ questionsIndex W -> dir ∈ questionRefs r -> k ∈ imgKeys ->
    im_identify W (imgPathOf dir k +:+ "." +:+ "png") = None \/
    im_identify W (imgPathOf dir k +:+ "." +:+ "jpg") = None.

(** ** Sample content trees *)

Definition sampleIndex : list RoundSpec :=
  [ {| rs_title := "Round 1"; rs_questions := ["q0"; "bad"; "q1"];
       rs_example := Some "ex" |} ].

(** A tree with the rounds [index], in which the directory [bad] has no
    metadata file and every image exists as a 200 by 100 jpg only, except
    those that [noSource] takes away; the resize tool fails where
    [resizeFails] says so.  A file's bytes are named by its path, and no
    directory is there before the run. *)
Definition sampleWorld (cfg : Config) (index : list RoundSpec)
    (noSource : string -> bool) (resizeFails : string -> Z -> bool) : World :=
  {| config := cfg;
     questionsIndex := index;
     requireQuestion := fun dir =>
       if decide (dir = "bad") then None else Some [("answer", JStr dir)];
     im_identify := fun p =>
       if noSource p then None
       else if JS.includes ".jpg" p
            then Some {| height := Some 100%Z; width := Some 200%Z |}
            else None;
     fs_readFileSync := fun p => p;
     dirBefore := fun _ => false;
     im_resize := fun data w _ =>
       if resizeFails data w then inl "resize failed"
       else inr (data +:+ "@" +:+ JS.str_Z w) |}.

(** Everything in place, but the tool cannot resize [q0]'s combined image
    to 640. *)
Definition oneResizeFails : World :=
  sampleWorld defaults sampleIndex (fun _ => false)
    (fun data w => bool_decide (data = "./src/questions/q0/mix.jpg") && (w =? 640)%Z).

(** The combined image of [q0] exists in neither format. *)
Definition mixMissing : World :=
  sampleWorld defaults sampleIndex (fun p => JS.includes "q0/mix." p)
    (fun _ _ => false).

(** One question whose images exist both as a 400 by 300 png and as a 200
    by 100 jpg. *)
Definition bothFormats : World :=
  {| config := defaults;
     questionsIndex :=
       [ {| rs_title := "Round 1"; rs_questions := ["q0"]; rs_example := None |} ];
     requireQuestion := fun dir => Some [("answer", JStr dir)];
     im_identify := fun p =>
       if JS.includes ".png" p
       then Some {| height := Some 300%Z; width := Some 400%Z |}
       else Some {| height := Some 100%Z; width := Some 200%Z |};
     fs_readFileSync := fun p => p;
     dirBefore := fun _ => false;
     im_resize := fun data w _ => inr (data +:+ "@" +:+ JS.str_Z w) |}.

(** Everything in place, but the tool cannot resize the first image of
    [q0] at any width. *)
Definition noVariantOfA : World :=
  sampleWorld defaults sampleIndex (fun _ => false)
    (fun data _ => bool_decide (data = "./src/questions/q0/a.jpg")).

(** One round with the question [q0] and no example. *)
Definition oneQuestion : list RoundSpec :=
  [ {| rs_title := "Round 1"; rs_questions := ["q0"]; rs_example := None |} ].

(** The defaults, but the API is written to the directory [a/] and one
    width is configured. *)
Definition outputInA : Config :=
  {| apiOutputDir := "a/"; imageOutputSubDir := "imgs/"; apiPathPrefix := "/";
     imgSizes := [320]%Z; imgFormat := "jpg"; imThreadConcurrency := 20 |}.

Definition treeInA : World :=
  sampleWorld outputInA oneQuestion (fun _ => false) (fun _ _ => false).

(** The defaults, but two widths and [c] slots per limiter. *)
Definition slots (c : nat) : Config :=
  {| apiOutputDir := "./dist/api/"; imageOutputSubDir := "imgs/";
     apiPathPrefix := "/"; imgSizes := [320; 640]%Z; imgFormat := "jpg";
     imThreadConcurrency := c |}.

(** One question; the tool cannot resize its first image to 320. *)
Definition firstResizeFails (c : nat) : World :=
  sampleWorld (slots c) oneQuestion (fun _ => false)
    (fun data w => bool_decide (data = "./src/questions/q0/a.jpg") && (w =? 320)%Z).

(** A tree whose only question has no metadata file. *)
Definition noMetadata : World :=
  sampleWorld defaults
    [ {| rs_title := "Round 1"; rs_questions := ["bad"]; rs_example := None |} ]
    (fun _ => false) (fun _ _ => false).

(** The tree of [noMetadata], but the API is written to [dist/api], with
    no ['/'] at its end, so that the index file is [dist/apiindex.json],
    and the directory [dist] is there before the run. *)
Definition besideDist : World :=
  {| config :=
       {| apiOutputDir := "dist/api"; imageOutputSubDir := "imgs/";
          apiPathPrefix := "/"; imgSizes := [320; 640; 960]%Z; imgFormat := "jpg";
          imThreadConcurrency := 20 |};
     questionsIndex := questionsIndex noMetadata;
     requireQuestion := requireQuestion noMetadata;
     im_identify := im_identify noMetadata;
     fs_readFileSync := fs_readFileSync noMetadata;
     dirBefore := fun dir => bool_decide (dir = "dist");
     im_resize := im_resize noMetadata |}.

(** ** Proof tools *)

#[local] Arguments createImageVariant : simpl never.
#[local] Arguments forEachSize : simpl never.
#[local] Arguments createImageVariants : simpl never.
#[local] Arguments forEachImg : simpl never.
#[local] Arguments createQuestionsImages : simpl never.
#[local] Arguments forEachQuestion : simpl never.
#[local] Arguments processRound : simpl never.
#[local] Arguments forEach : simpl never.
#[local] Arguments forEachFrom : simpl never.
#[local] Arguments foldTask : simpl never.

Ltac task_unfold :=
  unfold mbind, Task_bind, mret, Task_ret, emit; cbn [fst snd].

Ltac case_cond :=
  match goal with
  | |- context [if ?b then _ else _] => destruct b eqn:?
  end.

(** * Properties *)

(** ** Strings and arrays *)

Lemma prefix_append (sep rest : string) : String.prefix sep (sep +:+ rest) = true.
Proof.
  induction sep as [|c sep IH]; simpl.
  - by destruct rest.
  - destruct (ascii_dec c c); [done | congruence].
Qed.

Lemma includes_empty (s : string) : JS.includes "" s = true.
Proof. by destruct s. Qed.

Lemma split_go_absent (sep s : string) :
  JS.includes sep s = false -> JS.split_go sep 0 s = [s].
Proof.
  induction s as [|c s IH]; [done |].
  cbn [JS.includes JS.split_go]. intros [Hp Hs]%orb_false_elim.
  rewrite Hp, (IH Hs). done.
Qed.

Lemma split_go_skip (sep pre rest : string) :
  JS.split_go sep (String.length pre) (pre +:+ rest) = JS.split_go sep 0 rest.
Proof.
  induction pre as [|c pre IH]; simpl; [| done].
  by destruct rest.
Qed.

Lemma split_prefix_once (sep rest : string) :
  sep <> "" -> JS.includes sep rest = false ->
  JS.split sep (sep +:+ rest) = [""; rest].
Proof.
  intros Hne Habs. destruct sep as [|c sep]; [done |].
  unfold JS.split.
  change (String c sep +:+ rest) with (String c (sep +:+ rest)).
  cbn [JS.split_go].
  change (String c (sep +:+ rest)) with (String c sep +:+ rest).
  rewrite prefix_append.
  replace (String.length (String c sep) - 1) with (String.length sep) by (simpl; lia).
  rewrite split_go_skip, split_go_absent; done.
Qed.

(** When the output directory starts the generated path and does not come
    back later in it, the API path is the rest of the path behind the API
    prefix. *)
Lemma apiFilePath_after (cfg : Config) (rest : string) :
  apiOutputDir cfg <> "" ->
  JS.includes (apiOutputDir cfg) rest = false ->
  apiFilePath cfg (apiOutputDir cfg +:+ rest) = apiPathPrefix cfg +:+ rest.
Proof.
  intros Hne Habs. unfold apiFilePath. by rewrite split_prefix_once.
Qed.

(** A path that does not contain the output directory is returned as it
    is. *)
Lemma apiFilePath_fallback (cfg : Config) (outputFileName : string) :
  JS.includes (apiOutputDir cfg) outputFileName = false ->
  apiFilePath cfg outputFileName = outputFileName.
Proof.
  intros Habs. unfold apiFilePath, JS.split.
  destruct (apiOutputDir cfg) as [|c sep] eqn:E.
  - by rewrite includes_empty in Habs.
  - by rewrite split_go_absent.
Qed.

(** ** The thread manager *)

Module ThreadManagerFacts.
Import ThreadManager.
Section Facts.
Context {J : Type} `{EqDecision J}.
Implicit Types (tm : t J) (j : J) (es : list (event J)).

Lemma remove1_length j (l : list J) :
  j ∈ l -> S (length (remove1 j l)) = length l.
Proof.
  induction l as [|k l IH]; intros Hin; [by apply elem_of_nil in Hin |].
  simpl. destruct (decide (k = j)) as [->|Hne]; [done |].
  simpl. f_equal. apply IH.
  apply elem_of_cons in Hin as [Heq|Hin']; [congruence | done].
Qed.

Lemma remove1_snoc_fresh j (l : list J) :
  j ∉ l -> remove1 j (l ++ [j]) = l.
Proof.
  induction l as [|k l IH]; simpl; intros Hnin.
  - by rewrite decide_True.
  - rewrite decide_False by set_solver. f_equal. apply IH. set_solver.
Qed.

Lemma create_bounded c : bounded (create (J := J) c).
Proof. split; simpl; [lia | done]. Qed.

Lemma newThread_capacity tm j : capacity (newThread tm j) = capacity tm.
Proof. unfold newThread. by case_decide. Qed.

Lemma resolve_capacity tm j : capacity (resolve tm j) = capacity tm.
Proof. unfold resolve. case_decide; [destruct (queue tm) |]; done. Qed.

Lemma newThread_bounded tm j : bounded tm -> bounded (newThread tm j).
Proof.
  intros [Hle Hq]. unfold newThread. case_decide as Hlt; split; simpl.
  - rewrite length_app. simpl. lia.
  - intros Hne. specialize (Hq Hne). lia.
  - done.
  - intros _. lia.
Qed.

Lemma resolve_bounded tm j : bounded tm -> bounded (resolve tm j).
Proof.
  intros [Hle Hq]. unfold resolve. case_decide as Hin; [| done].
  pose proof (remove1_length _ _ Hin) as Hlen.
  destruct (queue tm) as [|k q] eqn:E; split; simpl.
  - lia.
  - done.
  - rewrite length_app. simpl. lia.
  - intros _. rewrite length_app. simpl.
    assert (length (running tm) = capacity tm) by (by apply Hq). lia.
Qed.

Lemma step_bounded tm (e : event J) : bounded tm -> bounded (step tm e).
Proof. destruct e; [apply newThread_bounded | apply resolve_bounded]. Qed.

Lemma run_bounded tm es : bounded tm -> bounded (run tm es).
Proof.
  revert tm. induction es as [|e es IH]; intros tm Hb; [done |].
  apply IH, step_bounded, Hb.
Qed.

Lemma run_capacity tm es : capacity (run tm es) = capacity tm.
Proof.
  revert tm. induction es as [|e es IH]; intros tm; [done |].
  simpl. rewrite IH. destruct e; [apply newThread_capacity | apply resolve_capacity].
Qed.

(** Tasks are let in in the order of their submission: those let in so
    far, followed by those still waiting, are the submissions so far. *)
Lemma step_fifo tm (e : event J) :
  bounded tm ->
  started (step tm e) ++ queue (step tm e)
  = (started tm ++ queue tm) ++ submitted [e].
Proof.
  intros [Hle Hq]. destruct e as [j|j]; simpl.
  - unfold newThread. case_decide as Hlt; simpl.
    + destruct (decide (queue tm = [])) as [->|Hne].
      * by rewrite !app_nil_r.
      * specialize (Hq Hne). lia.
    + by rewrite !(assoc_L (++)).
  - rewrite app_nil_r. unfold resolve. case_decide; [| done].
    destruct (queue tm); simpl; [done |]. by rewrite <- (assoc_L (++)).
Qed.

Lemma submitted_app es1 es2 :
  submitted (es1 ++ es2) = submitted es1 ++ submitted es2.
Proof. apply omap_app. Qed.

Lemma run_fifo tm es :
  bounded tm ->
  started (run tm es) ++ queue (run tm es)
  = (started tm ++ queue tm) ++ submitted es.
Proof.
  revert tm. induction es as [|e es IH]; intros tm Hb.
  - by rewrite app_nil_r.
  - change (run tm (e :: es)) with (run (step tm e) es).
    rewrite IH by by apply step_bounded.
    rewrite step_fifo by done.
    change (e :: es) with ([e] ++ es).
    by rewrite submitted_app, (assoc_L (++)).
Qed.

(** When fewer tasks keep their slot for ever than there are slots, every
    task is let in, whatever the order of submission. *)
Lemma drain_few_leaks (releases : J -> bool) (c : nat) (order : list J) :
  length (filter (fun j => releases j = false) order) < c ->
  started (drain releases (create c) order) = order /\
  queue (drain releases (create c) order) = [] /\
  running (drain releases (create c) order)
    = filter (fun j => releases j = false) order /\
  capacity (drain releases (create c) order) = c.
Proof.
  induction order as [|j order IH] using rev_ind; [done |].
  rewrite filter_app, length_app. intros Hlt.
  destruct IH as (Hs & Hq & Hr & Hc); [lia |].
  unfold drain in *. rewrite foldl_app. simpl.
  set (tm := foldl (handle releases) (create c) order) in *.
  unfold handle, newThread. rewrite Hr, Hc, decide_True by lia. simpl.
  rewrite filter_cons, filter_nil.
  destruct (releases j) eqn:Hj; simpl.
  - rewrite app_nil_r.
    unfold resolve. simpl. rewrite decide_True by set_solver.
    rewrite Hq. simpl. rewrite Hs. split_and!; try done.
    apply remove1_snoc_fresh. intros [Hf _]%list_elem_of_filter. congruence.
  - rewrite Hs, Hq. done.
Qed.

Lemma verdict_few_leaks (releases : J -> bool) (c : nat) (order : list J) j :
  length (filter (fun j => releases j = false) order) < c ->
  j ∈ order ->
  verdict releases (create c) order j = true.
Proof.
  intros Hlt Hin. unfold verdict. apply bool_decide_eq_true.
  by destruct (drain_few_leaks releases c order Hlt) as (-> & _).
Qed.

(** A limiter without a slot lets nothing in. *)
Lemma drain_no_slot (releases : J -> bool) (order : list J) :
  started (drain releases (create 0) order) = [] /\
  running (drain releases (create 0) order) = [] /\
  capacity (drain releases (create 0) order) = 0.
Proof.
  induction order as [|j order IH] using rev_ind; [done |].
  destruct IH as (Hs & Hr & Hc).
  unfold drain in *. rewrite foldl_app. simpl.
  set (tm := foldl (handle releases) (create 0) order) in *.
  unfold handle, newThread. rewrite Hr, Hc. simpl.
  destruct (releases j); simpl; done.
Qed.

(** Tasks that all free their slot are all let in, as soon as there is a
    slot at all: this is [identifySlot]. *)
Lemma verdict_all_release (c : nat) (order : list J) j :
  j ∈ order ->
  verdict (fun _ => true) (create c) order j = bool_decide (0 < c).
Proof.
  intros Hin. destruct c as [|c].
  - unfold verdict. destruct (drain_no_slot (fun _ => true) order) as (-> & _).
    rewrite bool_decide_eq_false_2 by set_solver.
    by rewrite bool_decide_eq_false_2 by lia.
  - rewrite verdict_few_leaks; [| | done].
    + by rewrite bool_decide_eq_true_2 by lia.
    + assert (filter (fun _ : J => true = false) order = []) as ->; [| simpl; lia].
      clear Hin. induction order as [|k order IH]; [done |].
      by rewrite filter_cons_False.
Qed.

(** *** Any interleaving lets the same tasks in *)

Lemma elem_of_remove1 j (l : list J) x : x ∈ remove1 j l -> x ∈ l.
Proof.
  induction l as [|k l IH]; simpl; [done |].
  destruct (decide (k = j)); [by right |].
  intros [->|Hx]%elem_of_cons; [left | right; by apply IH].
Qed.

Lemma elem_of_remove1_ne j (l : list J) x : x ∈ l -> x <> j -> x ∈ remove1 j l.
Proof.
  induction l as [|k l IH]; simpl; [done |].
  intros [->|Hx]%elem_of_cons Hne.
  - rewrite decide_False by done. left.
  - destruct (decide (k = j)); [done |]. right. by apply IH.
Qed.

Lemma NoDup_remove1 j (l : list J) : NoDup l -> NoDup (remove1 j l).
Proof.
  induction 1 as [|k l Hk Hl IH]; simpl; [constructor |].
  destruct (decide (k = j)); [done |].
  constructor; [| done]. intros Hin. by apply Hk, (elem_of_remove1 j).
Qed.

Lemma NoDup_incl_length (l k : list J) :
  NoDup l -> (forall x, x ∈ l -> x ∈ k) -> length l <= length k.
Proof. intros Hl Hlk. by apply submseteq_length, NoDup_submseteq. Qed.

(** Two limiters at rest after the same submissions have let the same
    tasks in. *)
Lemma atRest_unique (releases : J -> bool) (c : nat) (order : list J) tm1 tm2 :
  atRest releases c order tm1 -> atRest releases c order tm2 ->
  started tm1 = started tm2.
Proof.
  assert (forall a b,
    atRest releases c order a -> atRest releases c order b ->
    forall k, started a = started b ++ k -> k = []) as Hone.
  { intros a b (Ha & _ & _ & Hva) (Hb & Hlb & Hqb & _) k Hk.
    destruct k as [|j rest]; [done |]. exfalso.
    pose proof (Hva _ _ _ Hk) as Hlt.
    assert (queue b <> []) as Hne.
    { intros Hq. rewrite Hq, app_nil_r in Hb. rewrite <- Ha, Hk in Hb.
      rewrite <- (app_nil_r (started b)) in Hb at 1.
      rewrite <- (assoc_L (++)) in Hb. by apply app_inv_head in Hb. }
    specialize (Hqb Hne). lia. }
  intros H1 H2. pose proof H1 as (Ha & _). pose proof H2 as (Hb & _).
  rewrite <- Hb in Ha. apply app_eq_inv in Ha as [(k & Hk & _)|(k & Hk & _)].
  - rewrite (Hone tm1 tm2 H1 H2 k Hk), app_nil_r in Hk. done.
  - rewrite (Hone tm2 tm1 H2 H1 k Hk), app_nil_r in Hk. done.
Qed.

(** [drain] leaves the limiter at rest. *)
Lemma drain_atRest (releases : J -> bool) (c : nat) (order : list J) :
  atRest releases c order (drain releases (create c) order) /\
  capacity (drain releases (create c) order) = c /\
  length (running (drain releases (create c) order)) <= c /\
  running (drain releases (create c) order)
  = filter (fun j => releases j = false) (started (drain releases (create c) order)).
Proof.
  induction order as [|j order IH] using rev_ind.
  { cbn. split_and!; try done; try lia.
    split_and!; try done. intros p j rest H. by destruct p. }
  destruct IH as ((Hfifo & Hlen & Hfull & Hlet) & Hcap & Hle & Hrun).
  unfold drain in *. rewrite foldl_app. cbn [foldl].
  set (tm := foldl (handle releases) (create c) order) in *.
  assert (forall x, x ∈ running tm -> releases x = false) as Hnonrel.
  { intros x. rewrite Hrun. by intros [? _]%list_elem_of_filter. }
  assert (releases j = true -> j ∉ running tm) as Hfresh.
  { intros Hj Hin. specialize (Hnonrel j Hin). congruence. }
  unfold handle, newThread. rewrite Hcap.
  destruct (decide (length (running tm) < c)) as [Hlt|Hge].
  - assert (queue tm = []) as Hq.
    { destruct (queue tm) eqn:E; [done |]. assert (length (running tm) = c); [| lia].
      by apply Hfull. }
    rewrite Hq, app_nil_r in Hfifo.
    assert (forall p x rest, started tm ++ [j] = p ++ x :: rest ->
              length (filter (fun j => releases j = false) p) < c) as Hlet'.
    { intros p x rest Heq. destruct rest as [|y rest] using rev_ind.
      - apply app_inj_tail in Heq as [<- _]. by rewrite <- Hrun.
      - rewrite app_comm_cons, (assoc_L (++)) in Heq.
        apply app_inj_tail in Heq as [Heq _]. by apply (Hlet p x rest). }
    destruct (releases j) eqn:Hj.
    + unfold resolve. cbn [running queue started capacity].
      rewrite decide_True by set_solver. rewrite Hq.
      unfold atRest. cbn [running queue started capacity].
      rewrite remove1_snoc_fresh by auto.
      rewrite filter_app, filter_cons_False, filter_nil, !app_nil_r by congruence.
      rewrite Hfifo in *. split_and!; try done; try lia.
    + unfold atRest. cbn [running queue started capacity].
      rewrite filter_app, filter_cons_True, filter_nil by done.
      rewrite Hq, !app_nil_r, !length_app, Hrun, Hfifo in *. cbn [length].
      split_and!; try done; try lia.
  - assert (length (running tm) = c) as Hc by lia.
    set (tm' := if releases j
                then resolve {| capacity := c; running := running tm;
                                queue := queue tm ++ [j]; started := started tm |} j
                else {| capacity := c; running := running tm;
                        queue := queue tm ++ [j]; started := started tm |}).
    assert (started tm' = started tm /\ running tm' = running tm /\
            queue tm' = queue tm ++ [j] /\ capacity tm' = c)
      as (Hs' & Hr' & Hq' & Hc').
    { subst tm'. destruct (releases j) eqn:Hj; [| done].
      unfold resolve. cbn [running]. by rewrite decide_False by auto. }
    unfold atRest. rewrite Hs', Hr', Hq', Hc', (assoc_L (++)), Hfifo.
    split_and!; try done; try lia.
Qed.

Lemma let_snoc (releases : J -> bool) (c : nat) (l : list J) j :
  (forall p x rest, l = p ++ x :: rest ->
     length (filter (fun j => releases j = false) p) < c) ->
  length (filter (fun j => releases j = false) l) < c ->
  forall p x rest, l ++ [j] = p ++ x :: rest ->
    length (filter (fun j => releases j = false) p) < c.
Proof.
  intros Hlet Hlt p x rest Heq. destruct rest as [|y rest _] using rev_ind.
  - by apply app_inj_tail in Heq as [<- _].
  - rewrite app_comm_cons, (assoc_L (++)) in Heq.
    apply app_inj_tail in Heq as [Heq _]. by apply (Hlet p x rest).
Qed.

Lemma create_sound (releases : J -> bool) (c : nat) :
  sound releases c [] (create c).
Proof.
  unfold sound, bounded. cbn. split_and!; try done; try lia.
  - constructor.
  - intros p j rest H. by destruct p.
Qed.

Lemma newThread_sound (releases : J -> bool) (c : nat) (sub : list J) tm j :
  sound releases c sub tm -> NoDup (sub ++ [j]) ->
  sound releases c (sub ++ [j]) (newThread tm j).
Proof.
  intros (Hcap & Hb & Hfifo & Hkeep & Hnd & Hsub & Hlet) Hnodup.
  apply NoDup_app in Hnodup as (Hndsub & Hfresh & _).
  assert (j ∉ sub) as Hj by (intros Hin; apply (Hfresh j Hin); left).
  pose proof (newThread_bounded tm j Hb) as Hb'.
  pose proof (newThread_capacity tm j) as Hcap'.
  unfold sound. split; [congruence |]. split; [done |].
  unfold newThread in *. case_decide as Hlt; cbn [capacity running queue started] in *.
  - assert (queue tm = []) as Hq.
    { destruct Hb as [_ Hfull]. destruct (queue tm) eqn:E; [done |].
      assert (length (running tm) = capacity tm) by (by apply Hfull). lia. }
    rewrite Hq, app_nil_r in *. subst sub.
    split_and!.
    + done.
    + intros x [Hx|Hx]%elem_of_app Hrel;
        apply elem_of_app; [left; by apply Hkeep | by right].
    + apply NoDup_app. split_and!; [done | | apply NoDup_singleton].
      intros x Hx Hxj. apply list_elem_of_singleton in Hxj as ->. by apply Hj, Hsub.
    + intros x [Hx|Hx]%elem_of_app; apply elem_of_app; [left; by apply Hsub | by right].
    + apply let_snoc; [done |].
      assert (length (filter (fun j => releases j = false) (started tm))
              <= length (running tm)); [| lia].
      apply NoDup_incl_length; [by apply NoDup_filter |].
      intros x [Hrel Hx]%list_elem_of_filter. by apply Hkeep.
  - split_and!; try done. by rewrite (assoc_L (++)), Hfifo.
Qed.

Lemma resolve_sound (releases : J -> bool) (c : nat) (sub : list J) tm j :
  sound releases c sub tm -> NoDup sub ->
  j ∈ running tm -> releases j = true ->
  sound releases c sub (resolve tm j).
Proof.
  intros (Hcap & Hb & Hfifo & Hkeep & Hnd & Hsub & Hlet) Hnodup Hin Hrel.
  pose proof (resolve_bounded tm j Hb) as Hb'.
  pose proof (resolve_capacity tm j) as Hcap'.
  pose proof (remove1_length j _ Hin) as Hlen.
  unfold sound. split; [congruence |]. split; [done |].
  assert (forall x, x ∈ started tm -> releases x = false ->
            x ∈ remove1 j (running tm)) as Hkeep'.
  { intros x Hx Hx'. apply elem_of_remove1_ne; [by apply Hkeep | congruence]. }
  unfold resolve in *. rewrite decide_True in * by done.
  destruct (queue tm) as [|k q] eqn:Hq; cbn [capacity running queue started] in *.
  - split_and!; try done.
    + by apply NoDup_remove1.
    + intros x Hx. by apply Hsub, (elem_of_remove1 j).
  - rewrite <- Hfifo in Hnodup. apply NoDup_app in Hnodup as (Hnds & Hdisj & Hndq).
    assert (k ∉ started tm) as Hk by (intros Hk; apply (Hdisj k Hk); left).
    split_and!.
    + by rewrite <- (assoc_L (++)).
    + intros x [Hx|Hx]%elem_of_app Hx';
        apply elem_of_app; [left; by apply Hkeep' | by right].
    + apply NoDup_app. split_and!; [by apply NoDup_remove1 | | apply NoDup_singleton].
      intros x Hx Hxk. apply list_elem_of_singleton in Hxk as ->.
      by apply Hk, Hsub, (elem_of_remove1 j).
    + intros x [Hx|Hx]%elem_of_app; apply elem_of_app;
        [left; by apply Hsub, (elem_of_remove1 j) | by right].
    + apply let_snoc; [done |].
      assert (length (filter (fun j => releases j = false) (started tm))
              <= length (remove1 j (running tm))) as Hle.
      { apply NoDup_incl_length; [by apply NoDup_filter |].
        intros x [Hx' Hx]%list_elem_of_filter. by apply Hkeep'. }
      destruct Hb as [Hb _]. lia.
Qed.

Lemma run_sound (releases : J -> bool) (c : nat) es :
  forall tm sub,
    sound releases c sub tm -> NoDup (sub ++ submitted es) ->
    valid releases tm es ->
    sound releases c (sub ++ submitted es) (run tm es).
Proof.
  induction es as [|e es IH]; intros tm sub Hs Hnd Hv.
  - cbn. by rewrite app_nil_r.
  - destruct e as [j|j]; cbn [valid] in Hv.
    + change (submitted (Submit j :: es)) with (j :: submitted es) in *.
      change (run tm (Submit j :: es)) with (run (newThread tm j) es).
      rewrite (cons_middle j sub), (assoc_L (++)) in *.
      apply IH; [| done | done].
      apply newThread_sound; [done |]. by apply NoDup_app in Hnd as (? & _).
    + destruct Hv as (Hin & Hrel & Hv).
      change (submitted (Resolve j :: es)) with (submitted es) in *.
      change (run tm (Resolve j :: es)) with (run (resolve tm j) es).
      apply IH; [| done | done].
      apply resolve_sound; try done. by apply NoDup_app in Hnd as (? & _).
Qed.

Lemma sound_atRest (releases : J -> bool) (c : nat) (sub : list J) tm :
  sound releases c sub tm -> NoDup sub -> quiescent releases tm ->
  atRest releases c sub tm.
Proof.
  intros (Hcap & [Hle Hfull] & Hfifo & Hkeep & Hnd & Hsub & Hlet) Hnodup Hquiet.
  rewrite <- Hfifo in Hnodup. apply NoDup_app in Hnodup as (Hnds & _).
  unfold atRest. split_and!; [done | | by rewrite <- Hcap | done].
  apply Nat.le_antisymm.
  - apply NoDup_incl_length; [done |]. intros x Hx.
    apply list_elem_of_filter. split; [by apply Hquiet | by apply Hsub].
  - apply NoDup_incl_length; [by apply NoDup_filter |].
    intros x [Hx' Hx]%list_elem_of_filter. by apply Hkeep.
Qed.

(** Whatever the interleaving of submissions and completions, once nothing
    more can happen the tasks that were let in are those that [drain] lets
    in for the same order of submission. *)
Lemma interleaving_irrelevant (releases : J -> bool) (c : nat) es :
  NoDup (submitted es) ->
  valid releases (create c) es ->
  quiescent releases (run (create c) es) ->
  started (run (create c) es) = started (drain releases (create c) (submitted es)).
Proof.
  intros Hnd Hv Hq.
  apply (atRest_unique releases c (submitted es)).
  - apply sound_atRest; [| done | done].
    apply (run_sound releases c es (create c) []); [apply create_sound | done | done].
  - apply drain_atRest.
Qed.

(** Once as many tasks hold their slot for ever as there are slots, no task
    submitted later is let in. *)
Lemma verdict_after_leaks (releases : J -> bool) (c : nat) (p rest : list J) j :
  c <= length (filter (fun j => releases j = false) p) ->
  j ∉ p ->
  verdict releases (create c) (p ++ j :: rest) j = false.
Proof.
  intros Hle Hj. unfold verdict. apply bool_decide_eq_false. intros Hin.
  destruct (drain_atRest releases c (p ++ j :: rest)) as ((Hfifo & _ & _ & Hlet) & _).
  apply app_eq_inv in Hfifo as [(k & Hk & Hq)|(k & Hk & _)].
  - destruct k as [|x k].
    + rewrite app_nil_r in Hk. rewrite Hk in Hin. done.
    + injection Hq as <- _. specialize (Hlet _ _ _ Hk). lia.
  - apply Hj. rewrite Hk. apply elem_of_app. by left.
Qed.

End Facts.
End ThreadManagerFacts.

(** ** C9 *)

Lemma limiters_run_split (s : ThreadManager.t string * ThreadManager.t Job)
    (es : list LimiterEvent) :
  foldl limiters_step s es
  = (ThreadManager.run s.1 (identifyEvents es),
     ThreadManager.run s.2 (resizeEvents es)).
Proof.
  revert s. induction es as [|e es IH]; intros [a b]; [done |].
  simpl. rewrite IH. by destruct e.
Qed.

(** C9.  Identification and resizing each have a limiter of their own, of
    the configured capacity.  Whatever is submitted to them and whenever
    tasks finish, each limiter's state depends on its own events only, it
    never has more tasks in flight than its capacity, a task waits only
    while all slots are taken, and tasks are let in in the order they were
    submitted (those let in, then those waiting, are the submissions). *)
Theorem limiters_bounded_fifo (W : World) (es : list LimiterEvent) :
  (limiters_run W es).1
    = ThreadManager.run (threadManager_imIdentify W) (identifyEvents es) /\
  (limiters_run W es).2
    = ThreadManager.run (threadManager_imResize W) (resizeEvents es) /\
  ThreadManager.capacity (limiters_run W es).1 = imThreadConcurrency (config W) /\
  ThreadManager.capacity (limiters_run W es).2 = imThreadConcurrency (config W) /\
  ThreadManager.bounded (limiters_run W es).1 /\
  ThreadManager.bounded (limiters_run W es).2 /\
  ThreadManager.started (limiters_run W es).1
    ++ ThreadManager.queue (limiters_run W es).1
    = ThreadManager.submitted (identifyEvents es) /\
  ThreadManager.started (limiters_run W es).2
    ++ ThreadManager.queue (limiters_run W es).2
    = ThreadManager.submitted (resizeEvents es).
Proof.
  unfold limiters_run. rewrite limiters_run_split. simpl.
  split_and!; try done.
  - apply ThreadManagerFacts.run_capacity.
  - apply ThreadManagerFacts.run_capacity.
  - apply ThreadManagerFacts.run_bounded, ThreadManagerFacts.create_bounded.
  - apply ThreadManagerFacts.run_bounded, ThreadManagerFacts.create_bounded.
  - rewrite ThreadManagerFacts.run_fifo; [done | apply ThreadManagerFacts.create_bounded].
  - rewrite ThreadManagerFacts.run_fifo; [done | apply ThreadManagerFacts.create_bounded].
Qed.

(** ** Tasks and their traces *)

Section TaskFacts.
Context {A B : Type}.

Lemma bind_fst (m : Task A) (f : A -> Task B) : (m ≫= f).1 = m.1 ++ (f m.2).1.
Proof. done. Qed.

Lemma bind_snd (m : Task A) (f : A -> Task B) : (m ≫= f).2 = (f m.2).2.
Proof. done. Qed.

Lemma forEachFrom_cons (i : nat) (f : A -> nat -> Task B) (x : A) (l : list A) :
  forEachFrom i f (x :: l)
  = ((f x i).1 ++ (forEachFrom (S i) f l).1 ++ [],
     (f x i).2 :: (forEachFrom (S i) f l).2).
Proof. done. Qed.

Lemma forEachFrom_trace (P : list Event -> Prop) (i : nat)
    (f : A -> nat -> Task B) (l : list A) :
  P [] -> (forall t1 t2, P t1 -> P t2 -> P (t1 ++ t2)) ->
  (forall x k, x ∈ l -> P (f x k).1) ->
  P (forEachFrom i f l).1.
Proof.
  intros Hnil Happ. revert i. induction l as [|x l IH]; intros i Hf; [done |].
  rewrite forEachFrom_cons. simpl. apply Happ; [apply Hf; left |].
  apply Happ; [| done]. apply IH. intros y k Hy. apply Hf. by right.
Qed.

Lemma forEachFrom_result (Q : B -> Prop) (i : nat)
    (f : A -> nat -> Task B) (l : list A) :
  (forall x k, x ∈ l -> Q (f x k).2) ->
  Forall Q (forEachFrom i f l).2.
Proof.
  revert i. induction l as [|x l IH]; intros i Hf; [by constructor |].
  rewrite forEachFrom_cons. simpl. constructor; [apply Hf; left |].
  apply IH. intros y k Hy. apply Hf. by right.
Qed.

Lemma forEachFrom_lookup (i : nat) (f : A -> nat -> Task B) (l : list A) (k : nat) :
  (forEachFrom i f l).2 !! k = (fun x => (f x (i + k)).2) <$> l !! k.
Proof.
  revert i k. induction l as [|x l IH]; intros i k; [done |].
  rewrite forEachFrom_cons. simpl. destruct k as [|k]; simpl.
  - by rewrite Nat.add_0_r.
  - rewrite IH. by replace (S i + k) with (i + S k) by lia.
Qed.

Lemma forEachFrom_sub (i : nat) (f : A -> nat -> Task B) (l : list A)
    (k : nat) (x : A) (e : Event) :
  l !! k = Some x -> e ∈ (f x (i + k)).1 -> e ∈ (forEachFrom i f l).1.
Proof.
  revert i k. induction l as [|y l IH]; intros i k Hk He; [done |].
  rewrite forEachFrom_cons. simpl. destruct k as [|k]; simpl in Hk.
  - injection Hk as ->. rewrite Nat.add_0_r in He. apply elem_of_app. by left.
  - apply elem_of_app. right. rewrite app_nil_r.
    apply (IH (S i) k); [done |]. by replace (S i + k) with (i + S k) by lia.
Qed.

Lemma forEachFrom_length (i : nat) (f : A -> nat -> Task B) (l : list A) :
  length (forEachFrom i f l).2 = length l.
Proof.
  revert i. induction l as [|x l IH]; intros i; [done |].
  rewrite forEachFrom_cons. simpl. by rewrite IH.
Qed.

End TaskFacts.

Section FoldFacts.
Context {A S : Type}.

Lemma foldTask_cons (f : S -> A -> Task S) (st : S) (x : A) (l : list A) :
  foldTask f st (x :: l)
  = ((f st x).1 ++ (foldTask f (f st x).2 l).1, (foldTask f (f st x).2 l).2).
Proof. done. Qed.

Lemma foldTask_app (f : S -> A -> Task S) (st : S) (l1 l2 : list A) :
  foldTask f st (l1 ++ l2)
  = ((foldTask f st l1).1 ++ (foldTask f (foldTask f st l1).2 l2).1,
     (foldTask f (foldTask f st l1).2 l2).2).
Proof.
  revert st. induction l1 as [|x l1 IH]; intros st.
  - simpl. by destruct (foldTask f st l2).
  - rewrite <- app_comm_cons, !foldTask_cons, IH. simpl.
    by rewrite (assoc_L (++)).
Qed.

Lemma foldTask_trace (P : list Event -> Prop) (f : S -> A -> Task S)
    (st : S) (l : list A) :
  P [] -> (forall t1 t2, P t1 -> P t2 -> P (t1 ++ t2)) ->
  (forall st x, x ∈ l -> P (f st x).1) ->
  P (foldTask f st l).1.
Proof.
  intros Hnil Happ. revert st. induction l as [|x l IH]; intros st Hf; [done |].
  rewrite foldTask_cons. simpl. apply Happ; [apply Hf; left |].
  apply IH. intros st' y Hy. apply Hf. by right.
Qed.

Lemma foldTask_inv (I : S -> Prop) (f : S -> A -> Task S) (st : S) (l : list A) :
  (forall st x, x ∈ l -> I st -> I (f st x).2) ->
  I st -> I (foldTask f st l).2.
Proof.
  revert st. induction l as [|x l IH]; intros st Hf Hst; [done |].
  rewrite foldTask_cons. simpl. apply IH.
  - intros st' y Hy. apply Hf. by right.
  - apply Hf; [left | done].
Qed.

End FoldFacts.

Lemma inner_all_nil : Forall inner [].
Proof. constructor. Qed.

Lemma inner_all_app (t1 t2 : list Event) :
  Forall inner t1 -> Forall inner t2 -> Forall inner (t1 ++ t2).
Proof. intros. by apply Forall_app. Qed.

Lemma letIn_nil (slot : Job -> bool) : letIn slot [].
Proof. intros j Hj. by apply elem_of_nil in Hj. Qed.

Lemma letIn_app (slot : Job -> bool) (t1 t2 : list Event) :
  letIn slot (t1 ++ t2) <-> letIn slot t1 /\ letIn slot t2.
Proof.
  unfold letIn. split.
  - intros H. split; intros j Hj; apply H, elem_of_app; [by left | by right].
  - intros [H1 H2] j [Hj|Hj]%elem_of_app; [by apply H1 | by apply H2].
Qed.

Lemma inner_no_index (t : list Event) : Forall inner t -> indexWrites t = [].
Proof.
  induction 1 as [|e t He _ IH]; [done |].
  unfold indexWrites in *. destruct e; simpl in *; done.
Qed.

Lemma inner_no_success (t : list Event) :
  Forall inner t -> Log successMessage ∉ t.
Proof.
  intros Hall Hin. rewrite Forall_forall in Hall.
  by apply (Hall _ Hin).
Qed.

(** ** The functions of the build, one by one *)

Section BuildFacts.
Variable W : World.
Variable pl : string -> bool.
Variable slot : Job -> bool.

(** *** [createImageVariant] *)

Lemma createImageVariant_inner src outputDir size roundId qid pos :
  Forall inner (createImageVariant W slot src outputDir size roundId qid pos).1.
Proof.
  unfold createImageVariant, resizeThread. cbn.
  destruct (slot _); [destruct (im_resize _ _ _ _) |]; cbn;
    repeat constructor.
Qed.

Lemma createImageVariant_settled src outputDir size roundId qid pos :
  letIn slot (createImageVariant W slot src outputDir size roundId qid pos).1 ->
  settled (createImageVariant W slot src outputDir size roundId qid pos).2 = true.
Proof.
  unfold createImageVariant, resizeThread, letIn. cbn. intros Hlet.
  rewrite Hlet by (right; left). by destruct (im_resize _ _ _ _).
Qed.

(** The tasks submitted do not depend on what the limiter decides. *)
Lemma createImageVariant_jobs slot' src outputDir size roundId qid pos :
  resizeJobs (createImageVariant W slot src outputDir size roundId qid pos).1
  = resizeJobs (createImageVariant W slot' src outputDir size roundId qid pos).1.
Proof.
  unfold createImageVariant, resizeThread. cbn.
  destruct (slot _), (slot' _); [destruct (im_resize _ _ _ _) .. |]; done.
Qed.

(** *** [createImageVariants] *)

Lemma imgFileData_missing imgPath imgName_ :
  found W imgPath = false -> imgFileData W pl imgPath imgName_ = None.
Proof.
  unfold found, imgFileData, probe.
  intros [Hp Hj]%orb_false_elim.
  apply bool_decide_eq_false in Hp, Hj.
  destruct (im_identify W (imgPath +:+ "." +:+ "png")); [by destruct Hp |].
  destruct (im_identify W (imgPath +:+ "." +:+ "jpg")); [by destruct Hj |].
  by destruct (pl imgPath), (identifySlot W).
Qed.

Lemma imgFileData_found imgPath imgName_ :
  identifySlot W = true -> found W imgPath = true ->
  is_Some (imgFileData W pl imgPath imgName_).
Proof.
  unfold found, imgFileData, probe. intros -> Hf.
  apply orb_true_iff in Hf as [Hf|Hf]; apply bool_decide_eq_true in Hf;
    destruct Hf as [md Hmd]; rewrite Hmd;
    destruct (pl imgPath); simpl; try done.
  - by destruct (im_identify W (imgPath +:+ "." +:+ "jpg")).
  - by destruct (im_identify W (imgPath +:+ "." +:+ "png")).
Qed.

Lemma probes_settled imgPath imgName_ :
  allSettled [probe W imgPath imgName_ "png"; probe W imgPath imgName_ "jpg"]
  = identifySlot W.
Proof.
  unfold allSettled, probe. destruct (identifySlot W); simpl; [| done].
  by do 2 destruct (im_identify W _).
Qed.

Lemma createImageVariants_missing imgPath distDir imgName_ roundId qid :
  found W imgPath = false ->
  createImageVariants W pl slot imgPath distDir imgName_ roundId qid
  = (if identifySlot W
     then [LogError (NotFound imgPath); Throw (NotFound imgPath)]
     else [],
     Pending).
Proof.
  intros Hf. unfold createImageVariants.
  rewrite probes_settled, (imgFileData_missing _ _ Hf).
  by destruct (identifySlot W).
Qed.

Lemma forEachSize_inner src outputDir roundId qid size pos :
  Forall inner (forEachSize W slot src outputDir roundId qid size pos).1.
Proof.
  unfold forEachSize. rewrite bind_fst. cbn. rewrite app_nil_r.
  apply createImageVariant_inner.
Qed.

Lemma forEachSize_snd src outputDir roundId qid size pos :
  (forEachSize W slot src outputDir roundId qid size pos).2
  = (size, (createImageVariant W slot src outputDir size roundId qid pos).2).
Proof. done. Qed.

Lemma forEachSize_fst src outputDir roundId qid size pos :
  (forEachSize W slot src outputDir roundId qid size pos).1
  = (createImageVariant W slot src outputDir size roundId qid pos).1.
Proof. unfold forEachSize. rewrite bind_fst. cbn. by rewrite app_nil_r. Qed.

(** The role once its source is known. *)
Lemma createImageVariants_some imgPath distDir imgName_ roundId qid src :
  identifySlot W = true ->
  imgFileData W pl imgPath imgName_ = Some src ->
  createImageVariants W pl slot imgPath distDir imgName_ roundId qid
  = let vs := forEach (forEachSize W slot src
                 (distDir +:+ "round-" +:+ JS.str_nat roundId +:+ "/" +:+
                  "question-" +:+ str_questionId qid) roundId qid)
                (imgSizes (config W)) in
    (vs.1,
     if allSettled (vs.2.*2)
     then Fulfilled {| srcs := foldl saveSrc ∅ vs.2;
                       aspectRatio := aspectRatioOf (metadata src) |}
     else Pending).
Proof.
  intros Hi Hsrc. unfold createImageVariants.
  rewrite probes_settled, Hi, Hsrc.
  apply injective_projections; [rewrite bind_fst; cbn; by rewrite app_nil_r | done].
Qed.

(** The role while identification has no slot. *)
Lemma createImageVariants_no_slot imgPath distDir imgName_ roundId qid :
  identifySlot W = false ->
  createImageVariants W pl slot imgPath distDir imgName_ roundId qid = ([], Pending).
Proof.
  intros Hi. unfold createImageVariants. by rewrite probes_settled, Hi.
Qed.

Lemma createImageVariants_cases imgPath distDir imgName_ roundId qid :
  (identifySlot W = false \/ imgFileData W pl imgPath imgName_ = None) /\
    (createImageVariants W pl slot imgPath distDir imgName_ roundId qid).2 = Pending /\
    Forall inner (createImageVariants W pl slot imgPath distDir imgName_ roundId qid).1
  \/
  exists src, identifySlot W = true /\
    imgFileData W pl imgPath imgName_ = Some src.
Proof.
  destruct (identifySlot W) eqn:Hi.
  - destruct (imgFileData W pl imgPath imgName_) as [src|] eqn:Hsrc.
    + right. by exists src.
    + left. unfold createImageVariants. rewrite probes_settled, Hi, Hsrc.
      split_and!; [by right | done | repeat constructor].
  - left. rewrite createImageVariants_no_slot by done.
    split_and!; [by left | done | constructor].
Qed.

Lemma createImageVariants_not_rejected imgPath distDir imgName_ roundId qid e :
  (createImageVariants W pl slot imgPath distDir imgName_ roundId qid).2
  <> Rejected e.
Proof.
  destruct (createImageVariants_cases imgPath distDir imgName_ roundId qid)
    as [(_ & -> & _)|(src & Hi & Hsrc)]; [done |].
  rewrite (createImageVariants_some _ _ _ _ _ src) by done.
  cbn. by case_cond.
Qed.

Lemma createImageVariants_inner imgPath distDir imgName_ roundId qid :
  Forall inner (createImageVariants W pl slot imgPath distDir imgName_ roundId qid).1.
Proof.
  destruct (createImageVariants_cases imgPath distDir imgName_ roundId qid)
    as [(_ & _ & H)|(src & Hi & Hsrc)]; [done |].
  rewrite (createImageVariants_some _ _ _ _ _ src) by done. cbn.
  apply (forEachFrom_trace (Forall inner)); [constructor | apply inner_all_app |].
  intros size pos _. apply forEachSize_inner.
Qed.

Lemma createImageVariants_fulfilled imgPath distDir imgName_ roundId qid :
  identifySlot W = true -> found W imgPath = true ->
  letIn slot (createImageVariants W pl slot imgPath distDir imgName_ roundId qid).1 ->
  fulfilled (createImageVariants W pl slot imgPath distDir imgName_ roundId qid).2
  = true.
Proof.
  intros Hi Hf.
  destruct (imgFileData_found imgPath imgName_ Hi Hf) as [src Hsrc].
  rewrite (createImageVariants_some _ _ _ _ _ src) by done. cbn.
  intros Hlet.
  assert (allSettled
    (forEach (forEachSize W slot src
       (distDir +:+ "round-" +:+ JS.str_nat roundId +:+ "/" +:+
        "question-" +:+ str_questionId qid) roundId qid)
       (imgSizes (config W))).2.*2 = true) as ->; [| done].
  unfold allSettled. apply forallb_forall. intros o Ho.
  apply list_elem_of_In, list_elem_of_fmap in Ho as ([size p] & -> & Hp).
  apply list_elem_of_lookup in Hp as [k Hk].
  unfold forEach in Hk. rewrite forEachFrom_lookup in Hk.
  destruct (imgSizes (config W) !! k) as [sz|] eqn:Hsz; [| done].
  injection Hk as <- <-.
  apply createImageVariant_settled. intros j Hj. apply Hlet.
  eapply (forEachFrom_sub 0 _ _ k sz); [done |]. by rewrite forEachSize_fst.
Qed.

(** *** [createQuestionsImages] *)

Lemma createQuestionsImages_unfold questionDir q :
  createQuestionsImages W pl slot questionDir q
  = (Log ("Started:   " +:+ questionDir)
       :: (role W pl slot questionDir q "a").1
       ++ (role W pl slot questionDir q "b").1
       ++ (role W pl slot questionDir q "mix").1
       ++ match (role W pl slot questionDir q "a").2,
                (role W pl slot questionDir q "b").2,
                (role W pl slot questionDir q "mix").2 with
          | Fulfilled _, Fulfilled _, Fulfilled _ =>
              [Log ("Completed: " +:+ questionDir)]
          | _, _, _ => []
          end,
     match (role W pl slot questionDir q "a").2,
           (role W pl slot questionDir q "b").2,
           (role W pl slot questionDir q "mix").2 with
     | Fulfilled da, Fulfilled db, Fulfilled dm =>
         Fulfilled (withImgs q [("a", da); ("b", db); ("mix", dm)])
     | _, _, _ => Pending
     end).
Proof.
  unfold createQuestionsImages, imgKeys, forEach.
  rewrite !forEachFrom_cons. cbn [forEachFrom].
  unfold forEachImg.
  fold (imgPathOf questionDir "a") (imgPathOf questionDir "b")
       (imgPathOf questionDir "mix").
  fold (role W pl slot questionDir q "a") (role W pl slot questionDir q "b")
       (role W pl slot questionDir q "mix").
  unfold mbind, Task_bind, mret, Task_ret, emit. cbn [fst snd].
  unfold allSettled, imgReady. cbn [fmap list_fmap forallb fst snd].
  destruct (role W pl slot questionDir q "a").2 as [|da|ea];
    destruct (role W pl slot questionDir q "b").2 as [|db|eb];
    destruct (role W pl slot questionDir q "mix").2 as [|dm|em];
    cbn; rewrite ?app_nil_r, <- ?(assoc_L (++)); done.
Qed.

Lemma started_inner questionDir : inner (Log ("Started:   " +:+ questionDir)).
Proof. simpl. unfold successMessage. discriminate. Qed.

Lemma completed_inner questionDir : inner (Log ("Completed: " +:+ questionDir)).
Proof. simpl. unfold successMessage. discriminate. Qed.

Lemma role_inner questionDir q k : Forall inner (role W pl slot questionDir q k).1.
Proof. apply createImageVariants_inner. Qed.

Lemma createQuestionsImages_inner questionDir q :
  Forall inner (createQuestionsImages W pl slot questionDir q).1.
Proof.
  rewrite createQuestionsImages_unfold. cbn [fst].
  constructor; [apply started_inner |].
  repeat (apply Forall_app; split); try apply role_inner.
  repeat case_match; repeat constructor. apply completed_inner.
Qed.

Lemma createQuestionsImages_not_rejected questionDir q e :
  (createQuestionsImages W pl slot questionDir q).2 <> Rejected e.
Proof.
  rewrite createQuestionsImages_unfold. cbn [snd]. by repeat case_match.
Qed.

(** A question whose promise is fulfilled carries its own fields, identity
    and round, and an [imgs] object with the three roles. *)
Lemma createQuestionsImages_result questionDir q q' :
  (createQuestionsImages W pl slot questionDir q).2 = Fulfilled q' ->
  resultOf W pl slot questionDir q q'.
Proof.
  unfold resultOf.
  rewrite createQuestionsImages_unfold. cbn [snd].
  destruct (role W pl slot questionDir q "a").2 as [|da|ea]; try done.
  destruct (role W pl slot questionDir q "b").2 as [|db|eb]; try done.
  destruct (role W pl slot questionDir q "mix").2 as [|dm|em]; try done.
  intros [= <-]. by exists da, db, dm.
Qed.

Lemma createQuestionsImages_pending questionDir q k :
  k ∈ imgKeys ->
  (role W pl slot questionDir q k).2 = Pending ->
  (createQuestionsImages W pl slot questionDir q).2 = Pending.
Proof.
  intros Hk Hp. rewrite createQuestionsImages_unfold. cbn [snd].
  unfold imgKeys in Hk.
  repeat (apply elem_of_cons in Hk as [->|Hk]); [.. | by apply elem_of_nil in Hk];
    rewrite Hp; by repeat case_match.
Qed.

Lemma createQuestionsImages_fulfilled questionDir q :
  identifySlot W = true ->
  (forall k, k ∈ imgKeys -> found W (imgPathOf questionDir k) = true) ->
  letIn slot (createQuestionsImages W pl slot questionDir q).1 ->
  fulfilled (createQuestionsImages W pl slot questionDir q).2 = true.
Proof.
  intros Hi Hf. rewrite createQuestionsImages_unfold. cbn [fst snd].
  intros Hlet.
  assert (forall k, k ∈ imgKeys ->
            fulfilled (role W pl slot questionDir q k).2 = true) as Hr.
  { intros k Hk. apply createImageVariants_fulfilled; [done | by apply Hf |].
    intros j Hj. apply Hlet. right.
    unfold imgKeys in Hk.
    repeat (apply elem_of_cons in Hk as [->|Hk]); [.. | by apply elem_of_nil in Hk];
      rewrite !elem_of_app; auto. }
  pose proof (Hr "a" ltac:(unfold imgKeys; set_solver)) as Ha.
  pose proof (Hr "b" ltac:(unfold imgKeys; set_solver)) as Hb.
  pose proof (Hr "mix" ltac:(unfold imgKeys; set_solver)) as Hm.
  destruct (role W pl slot questionDir q "a").2; try done.
  destruct (role W pl slot questionDir q "b").2; try done.
  by destruct (role W pl slot questionDir q "mix").2.
Qed.

(** *** [forEachQuestion] *)

Lemma forEachQuestion_none ref isExample st questionDir :
  requireQuestion W questionDir = None ->
  forEachQuestion W pl slot ref isExample st questionDir
  = ([LogError (RequireFailed questionDir)], st).
Proof.
  intros Hreq. unfold forEachQuestion, getQuestionData. rewrite Hreq.
  task_unfold. done.
Qed.

Lemma forEachQuestion_some ref isExample st questionDir fields :
  requireQuestion W questionDir = Some fields ->
  forEachQuestion W pl slot ref isExample st questionDir
  = ((createQuestionsImages W pl slot questionDir
        (questionOf ref isExample (questionId st) fields)).1,
     {| questionId := if isExample then questionId st else S (questionId st);
        questionPromises := questionPromises st ++
          [(createQuestionsImages W pl slot questionDir
              (questionOf ref isExample (questionId st) fields)).2] |}).
Proof.
  intros Hreq. unfold forEachQuestion, getQuestionData. rewrite Hreq.
  task_unfold. fold (questionOf ref isExample (questionId st) fields).
  by rewrite app_nil_r.
Qed.

Lemma forEachQuestion_inner ref isExample st questionDir :
  Forall inner (forEachQuestion W pl slot ref isExample st questionDir).1.
Proof.
  destruct (requireQuestion W questionDir) as [fields|] eqn:Hreq.
  - rewrite (forEachQuestion_some _ _ _ _ fields) by done.
    apply createQuestionsImages_inner.
  - rewrite forEachQuestion_none by done. repeat constructor.
Qed.

(** The state after the numbered questions: the counter has advanced by the
    number of questions that loaded, and one promise per such question has
    been pushed, in order. *)
Lemma questions_state ref st dirs :
  questionId (foldTask (forEachQuestion W pl slot ref false) st dirs).2
  = questionId st + length (loadedQuestions W dirs) /\
  questionPromises (foldTask (forEachQuestion W pl slot ref false) st dirs).2
  = questionPromises st
    ++ numberedPromises W pl slot ref (questionId st) (loadedQuestions W dirs).
Proof.
  revert st. induction dirs as [|dir dirs IH]; intros st.
  - cbn. by rewrite Nat.add_0_r, app_nil_r.
  - rewrite foldTask_cons. cbn [snd]. unfold loadedQuestions. cbn [omap list_omap].
    fold (loadedQuestions W dirs).
    destruct (requireQuestion W dir) as [fields|] eqn:Hreq; cbn [fmap option_fmap option_map].
    + rewrite (forEachQuestion_some _ _ _ _ fields) by done. cbn [snd].
      destruct (IH {| questionId := S (questionId st);
                      questionPromises := questionPromises st ++
          [(createQuestionsImages W pl slot dir
              (questionOf ref false (questionId st) fields)).2] |}) as [-> ->].
      cbn [questionId questionPromises length]. split; [lia |].
      rewrite <- (assoc_L (++)). unfold numberedPromises.
      rewrite imap_cons. cbn [fst snd]. rewrite Nat.add_0_r.
      rewrite (imap_ext _
        ((fun k df => (createQuestionsImages W pl slot df.1
                         (questionOf ref false (questionId st + k) df.2)).2) ∘ S));
        [reflexivity |].
      intros k [d f] _. cbn [fst snd compose].
      by replace (S (questionId st) + k) with (questionId st + S k) by lia.
    + rewrite forEachQuestion_none by done. apply IH.
Qed.

Lemma questions_sub ref st dirs k df e :
  loadedQuestions W dirs !! k = Some df ->
  e ∈ (createQuestionsImages W pl slot df.1
         (questionOf ref false (questionId st + k) df.2)).1 ->
  e ∈ (foldTask (forEachQuestion W pl slot ref false) st dirs).1.
Proof.
  revert st k. induction dirs as [|dir dirs IH]; intros st k; [done |].
  rewrite foldTask_cons. cbn [fst]. unfold loadedQuestions. cbn [omap list_omap].
  fold (loadedQuestions W dirs).
  destruct (requireQuestion W dir) as [fields|] eqn:Hreq; cbn [fmap option_fmap option_map].
  - rewrite (forEachQuestion_some _ _ _ _ fields) by done. cbn [fst snd].
    destruct k as [|k]; cbn.
    + intros [= <-]. cbn. rewrite Nat.add_0_r. intros He.
      apply elem_of_app. by left.
    + intros Hk He. apply elem_of_app. right.
      apply (IH _ k); [done |]. cbn [questionId].
      by replace (S (questionId st) + k) with (questionId st + S k) by lia.
  - rewrite forEachQuestion_none by done. cbn [fst snd]. intros Hk He.
    apply elem_of_app. right. by apply (IH _ k).
Qed.

Lemma questions_inner ref st dirs :
  Forall inner (foldTask (forEachQuestion W pl slot ref false) st dirs).1.
Proof.
  apply (foldTask_trace (Forall inner)); [constructor | apply inner_all_app |].
  intros st' dir _. apply forEachQuestion_inner.
Qed.

(** *** [processRound] *)

Lemma exampleTask_state ref st r :
  questionPromises (exampleTask W pl slot ref st r).2
  = questionPromises st ++ examplePromise W pl slot ref (questionId st) r.
Proof.
  unfold exampleTask, examplePromise, exampleOf.
  destruct (rs_example r) as [dir|]; [| by rewrite app_nil_r].
  destruct (JS.truthy dir); [| by rewrite app_nil_r].
  destruct (requireQuestion W dir) as [fields|] eqn:Hreq; cbn [fmap option_fmap option_map].
  - by rewrite (forEachQuestion_some _ _ _ _ fields) by done.
  - rewrite forEachQuestion_none by done. by rewrite app_nil_r.
Qed.

Lemma exampleTask_inner ref st r :
  Forall inner (exampleTask W pl slot ref st r).1.
Proof.
  unfold exampleTask. destruct (rs_example r) as [dir|]; [| constructor].
  destruct (JS.truthy dir); [| constructor]. apply forEachQuestion_inner.
Qed.

Lemma exampleTask_sub ref st r df e :
  exampleOf W r = Some df ->
  e ∈ (createQuestionsImages W pl slot df.1
         (questionOf ref true (questionId st) df.2)).1 ->
  e ∈ (exampleTask W pl slot ref st r).1.
Proof.
  unfold exampleTask, exampleOf.
  destruct (rs_example r) as [dir|]; [| done].
  destruct (JS.truthy dir); [| done].
  destruct (requireQuestion W dir) as [fields|] eqn:Hreq; [| done].
  intros [= <-]. by rewrite (forEachQuestion_some _ _ _ _ fields) by done.
Qed.

Lemma processRound_unfold r i :
  processRound W pl slot r i
  = let ref := {| rr_roundId := i; rr_title := rs_title r |} in
    let st0 := {| questionId := 0; questionPromises := [] |} in
    let questions := foldTask (forEachQuestion W pl slot ref false) st0 (rs_questions r) in
    (questions.1 ++ (exampleTask W pl slot ref questions.2 r).1,
     if allSettled (questionPromisesOf W pl slot r i)
     then Fulfilled (foldl saveQuestion (emptyRound r i) (questionPromisesOf W pl slot r i))
     else Pending).
Proof.
  pose proof (exampleTask_state {| rr_roundId := i; rr_title := rs_title r |}
    (foldTask (forEachQuestion W pl slot {| rr_roundId := i; rr_title := rs_title r |} false)
       {| questionId := 0; questionPromises := [] |} (rs_questions r)).2 r) as Hex.
  destruct (questions_state {| rr_roundId := i; rr_title := rs_title r |}
    {| questionId := 0; questionPromises := [] |} (rs_questions r)) as [Hid Hps].
  rewrite Hid, Hps in Hex. cbn [questionId questionPromises app Nat.add] in Hex.
  fold (questionPromisesOf W pl slot r i) in Hex.
  unfold processRound, exampleTask in *. cbv zeta.
  unfold mbind, Task_bind, mret, Task_ret, emit in *. cbn [fst snd] in *.
  fold (emptyRound r i). rewrite app_nil_r.
  by rewrite Hex.
Qed.

Lemma processRound_inner r i : Forall inner (processRound W pl slot r i).1.
Proof.
  rewrite processRound_unfold. cbn [fst].
  apply Forall_app. split; [apply questions_inner | apply exampleTask_inner].
Qed.

Lemma saveQuestion_roundId rd p :
  rd_roundId (saveQuestion rd p) = rd_roundId rd /\
  rd_title (saveQuestion rd p) = rd_title rd.
Proof.
  unfold saveQuestion. destruct p as [|q|e]; [done | | done].
  case_decide; [by destruct (qd_questionId q) | done].
Qed.

Lemma saveQuestions_roundId rd ps :
  rd_roundId (foldl saveQuestion rd ps) = rd_roundId rd /\
  rd_title (foldl saveQuestion rd ps) = rd_title rd.
Proof.
  revert rd. induction ps as [|p ps IH]; intros rd; [done |].
  cbn [foldl]. destruct (IH (saveQuestion rd p)) as [-> ->].
  apply saveQuestion_roundId.
Qed.

Lemma processRound_not_rejected r i e :
  (processRound W pl slot r i).2 <> Rejected e.
Proof. rewrite processRound_unfold. cbn [snd]. by case_cond. Qed.

Lemma processRound_roundId r i rd :
  (processRound W pl slot r i).2 = Fulfilled rd -> rd_roundId rd = i.
Proof.
  rewrite processRound_unfold. cbn [snd]. case_cond; [| done].
  intros [= <-]. by destruct (saveQuestions_roundId (emptyRound r i)
                               (questionPromisesOf W pl slot r i)) as [-> _].
Qed.

Lemma loadedQuestions_lookup dirs k df :
  loadedQuestions W dirs !! k = Some df ->
  df.1 ∈ dirs /\ requireQuestion W df.1 = Some df.2.
Proof.
  intros Hk. apply list_elem_of_lookup_2 in Hk.
  apply list_elem_of_omap in Hk as (dir & Hdir & Hreq).
  destruct (requireQuestion W dir) as [f|] eqn:E; [| done].
  injection Hreq as <-. done.
Qed.

Lemma loadedQuestions_elem dirs dir fields :
  dir ∈ dirs -> requireQuestion W dir = Some fields ->
  (dir, fields) ∈ loadedQuestions W dirs.
Proof.
  intros Hdir Hreq. apply list_elem_of_omap. exists dir. by rewrite Hreq.
Qed.

Lemma exampleOf_ref r df :
  exampleOf W r = Some df ->
  df.1 ∈ questionRefs r /\ requireQuestion W df.1 = Some df.2.
Proof.
  unfold exampleOf, questionRefs. destruct (rs_example r) as [dir|]; [| done].
  destruct (JS.truthy dir); [| done].
  destruct (requireQuestion W dir) as [f|] eqn:E; [| done].
  intros [= <-]. split; [| done]. apply elem_of_app. right. by left.
Qed.

Lemma questionRefs_cases r dir fields :
  dir ∈ questionRefs r -> requireQuestion W dir = Some fields ->
  dir ∈ rs_questions r \/ exampleOf W r = Some (dir, fields).
Proof.
  unfold questionRefs, exampleOf. intros [H|H]%elem_of_app Hreq; [by left |].
  right. destruct (rs_example r) as [d|]; [| by apply elem_of_nil in H].
  destruct (JS.truthy d); [| by apply elem_of_nil in H].
  apply list_elem_of_singleton in H as ->. by rewrite Hreq.
Qed.

Lemma allSettled_pending {A} (ps : list (Outcome A)) :
  Pending ∈ ps -> allSettled ps = false.
Proof.
  intros Hin. unfold allSettled. apply not_true_is_false. intros Hall.
  rewrite forallb_forall in Hall.
  apply list_elem_of_In in Hin. by specialize (Hall Pending Hin).
Qed.

Lemma fulfilled_settled {A} (p : Outcome A) : fulfilled p = true -> settled p = true.
Proof. by destruct p. Qed.

Lemma allSettled_fulfilled {A} (ps : list (Outcome A)) :
  (forall p, p ∈ ps -> fulfilled p = true) -> allSettled ps = true.
Proof.
  intros H. unfold allSettled. apply forallb_forall. intros p Hp.
  by apply fulfilled_settled, H, list_elem_of_In.
Qed.

(** A missing source image leaves the promise of its question, and with it
    the promise of the round, pending for ever. *)
Lemma question_pending questionDir q k :
  k ∈ imgKeys -> found W (imgPathOf questionDir k) = false ->
  (createQuestionsImages W pl slot questionDir q).2 = Pending.
Proof.
  intros Hk Hf. apply (createQuestionsImages_pending _ _ k Hk).
  unfold role. by rewrite createImageVariants_missing.
Qed.

Lemma processRound_pending r i dir fields k :
  dir ∈ questionRefs r -> requireQuestion W dir = Some fields ->
  k ∈ imgKeys -> found W (imgPathOf dir k) = false ->
  (processRound W pl slot r i).2 = Pending.
Proof.
  intros Hdir Hreq Hk Hf. rewrite processRound_unfold. cbn [snd].
  rewrite allSettled_pending; [done |]. unfold questionPromisesOf.
  apply elem_of_app.
  destruct (questionRefs_cases r dir fields Hdir Hreq) as [Hq|Hex].
  - left. pose proof (loadedQuestions_elem _ _ _ Hq Hreq) as Hin.
    apply list_elem_of_lookup in Hin as [n Hn].
    apply list_elem_of_lookup. exists n. unfold numberedPromises.
    rewrite list_lookup_imap, Hn. cbn.
    f_equal. by apply (question_pending _ _ k).
  - right. unfold examplePromise. rewrite Hex. cbn [fst snd].
    rewrite (question_pending _ _ k) by done. by left.
Qed.

Lemma processRound_fulfilled r i :
  identifySlot W = true ->
  (forall dir k, dir ∈ questionRefs r -> is_Some (requireQuestion W dir) ->
     k ∈ imgKeys -> found W (imgPathOf dir k) = true) ->
  letIn slot (processRound W pl slot r i).1 ->
  fulfilled (processRound W pl slot r i).2 = true.
Proof.
  intros Hi Hf. rewrite processRound_unfold. cbn [fst snd].
  intros [Hq Hex]%letIn_app.
  rewrite allSettled_fulfilled; [done |].
  unfold questionPromisesOf. intros p [Hp|Hp]%elem_of_app.
  - apply list_elem_of_lookup in Hp as [n Hn]. unfold numberedPromises in Hn.
    rewrite list_lookup_imap in Hn.
    destruct (loadedQuestions W (rs_questions r) !! n) as [df|] eqn:Hdf; [| done].
    cbn [fmap option_fmap option_map] in Hn. injection Hn as <-.
    destruct (loadedQuestions_lookup _ _ _ Hdf) as [Hdir Hreq].
    apply (createQuestionsImages_fulfilled df.1
             (questionOf {| rr_roundId := i; rr_title := rs_title r |} false (0 + n) df.2)).
    + exact Hi.
    + intros k Hk. apply Hf; [| by rewrite Hreq | done].
      unfold questionRefs. apply elem_of_app. by left.
    + intros j Hj. apply Hq. by apply (questions_sub _ _ _ n df).
  - unfold examplePromise in Hp.
    destruct (exampleOf W r) as [df|] eqn:Hdf; [| by apply elem_of_nil in Hp].
    apply list_elem_of_singleton in Hp as ->.
    destruct (exampleOf_ref _ _ Hdf) as [Hdir Hreq].
    apply (createQuestionsImages_fulfilled df.1
             (questionOf {| rr_roundId := i; rr_title := rs_title r |} true
                (length (loadedQuestions W (rs_questions r))) df.2)).
    + exact Hi.
    + intros k Hk. apply Hf; [done | by rewrite Hreq | done].
    + intros j Hj. apply Hex.
      destruct (questions_state {| rr_roundId := i; rr_title := rs_title r |}
        {| questionId := 0; questionPromises := [] |} (rs_questions r)) as [Hid _].
      apply (exampleTask_sub _ _ _ df); [done |]. by rewrite Hid.
Qed.

(** *** [buildApiMaster] *)

Lemma buildApiMaster_unfold :
  buildApiMaster W pl slot
  = (DeleteFolder (apiOutputDir (config W))
       :: (roundPromises W pl slot).1 ++ ending W pl slot,
     if indexSaved W pl slot then Fulfilled tt else Pending).
Proof.
  unfold buildApiMaster, saveJsonApi, indexSaved, ending. task_unfold.
  destruct (allSettled (roundPromises W pl slot).2); [| done].
  by destruct (indexDirExists W (mkdirCalled (roundPromises W pl slot).1)).
Qed.

(** The three ways in which a run ends: the index is written and the
    success message printed; the rounds have settled but the index cannot
    be written; some round never settles. *)
Lemma ending_cases :
  indexSaved W pl slot = true /\
    allSettled (roundPromises W pl slot).2 = true /\
    indexDirExists W (mkdirCalled (roundPromises W pl slot).1) = true /\
    ending W pl slot
    = [WriteJson (apiOutputDir (config W) +:+ "index.json")
         (foldl saveRound {| rounds := [] |} (roundPromises W pl slot).2);
       Log successMessage]
  \/
  indexSaved W pl slot = false /\
    allSettled (roundPromises W pl slot).2 = true /\
    indexDirExists W (mkdirCalled (roundPromises W pl slot).1) = false /\
    ending W pl slot = [Throw (ENOENT (apiOutputDir (config W) +:+ "index.json"))]
  \/
  indexSaved W pl slot = false /\
    allSettled (roundPromises W pl slot).2 = false /\
    ending W pl slot = [].
Proof.
  unfold indexSaved, ending.
  destruct (allSettled (roundPromises W pl slot).2); [| by right; right].
  destruct (indexDirExists W (mkdirCalled (roundPromises W pl slot).1));
    [by left | by right; left].
Qed.

Lemma ending_jobs : resizeJobs (ending W pl slot) = [].
Proof.
  by destruct ending_cases as [(_ & _ & _ & ->)|[(_ & _ & _ & ->)|(_ & _ & ->)]].
Qed.

Lemma roundPromises_inner : Forall inner (roundPromises W pl slot).1.
Proof.
  unfold roundPromises, forEach.
  apply (forEachFrom_trace (Forall inner)); [constructor | apply inner_all_app |].
  intros r i _. apply processRound_inner.
Qed.

Lemma roundPromises_lookup i :
  (roundPromises W pl slot).2 !! i
  = (fun r => (processRound W pl slot r i).2) <$> questionsIndex W !! i.
Proof. unfold roundPromises, forEach. by rewrite forEachFrom_lookup. Qed.

Lemma roundPromises_sub i r e :
  questionsIndex W !! i = Some r ->
  e ∈ (processRound W pl slot r i).1 -> e ∈ (roundPromises W pl slot).1.
Proof.
  intros Hr He. unfold roundPromises, forEach.
  by apply (forEachFrom_sub 0 _ _ i r).
Qed.

End BuildFacts.

(** ** The resize tasks of a run do not depend on the limiter *)

Lemma resizeJobs_elem (j : Job) (t : list Event) :
  NewThreadResize j ∈ t <-> j ∈ resizeJobs t.
Proof.
  unfold resizeJobs. rewrite list_elem_of_omap. split.
  - intros H. by exists (NewThreadResize j).
  - intros (e & He & Hj). by destruct e; simplify_eq.
Qed.

Lemma resizeJobs_app (t1 t2 : list Event) :
  resizeJobs (t1 ++ t2) = resizeJobs t1 ++ resizeJobs t2.
Proof. apply omap_app. Qed.

Lemma forEachFrom_jobs {A B C} (f : A -> nat -> Task B) (g : A -> nat -> Task C)
    (i : nat) (l : list A) :
  (forall x k, resizeJobs (f x k).1 = resizeJobs (g x k).1) ->
  resizeJobs (forEachFrom i f l).1 = resizeJobs (forEachFrom i g l).1.
Proof.
  intros Hfg. revert i. induction l as [|x l IH]; intros i; [done |].
  rewrite !forEachFrom_cons. cbn [fst]. rewrite !app_nil_r, !resizeJobs_app.
  by rewrite Hfg, IH.
Qed.

Section Jobs.
Variable W : World.
Variable pl : string -> bool.
Variables slot slot' : Job -> bool.

Lemma createImageVariants_jobs imgPath distDir imgName_ roundId qid :
  resizeJobs (createImageVariants W pl slot imgPath distDir imgName_ roundId qid).1
  = resizeJobs (createImageVariants W pl slot' imgPath distDir imgName_ roundId qid).1.
Proof.
  destruct (identifySlot W) eqn:Hi.
  - destruct (imgFileData W pl imgPath imgName_) as [src|] eqn:Hsrc.
    + rewrite !(createImageVariants_some W pl _ _ _ _ _ _ src) by done.
      cbn [fst]. apply forEachFrom_jobs. intros size pos.
      rewrite !forEachSize_fst. apply createImageVariant_jobs.
    + unfold createImageVariants. by rewrite probes_settled, Hi, Hsrc.
  - by rewrite !createImageVariants_no_slot.
Qed.

Lemma createQuestionsImages_jobs questionDir q :
  resizeJobs (createQuestionsImages W pl slot questionDir q).1
  = resizeJobs (createQuestionsImages W pl slot' questionDir q).1.
Proof.
  rewrite !createQuestionsImages_unfold. cbn [fst].
  change (Log ?m :: ?t) with ([Log m] ++ t).
  rewrite !resizeJobs_app. unfold role.
  rewrite (createImageVariants_jobs (imgPathOf questionDir "a")),
          (createImageVariants_jobs (imgPathOf questionDir "b")),
          (createImageVariants_jobs (imgPathOf questionDir "mix")).
  assert (forall (A : Type) (oa ob om : Outcome A) m,
    resizeJobs match oa, ob, om with
               | Fulfilled _, Fulfilled _, Fulfilled _ => [Log m]
               | _, _, _ => []
               end = []) as Hend.
  { intros A oa ob om m. by destruct oa, ob, om. }
  by rewrite !Hend.
Qed.

Lemma forEachQuestion_jobs ref isExample st st' questionDir :
  questionId st = questionId st' ->
  resizeJobs (forEachQuestion W pl slot ref isExample st questionDir).1
  = resizeJobs (forEachQuestion W pl slot' ref isExample st' questionDir).1 /\
  questionId (forEachQuestion W pl slot ref isExample st questionDir).2
  = questionId (forEachQuestion W pl slot' ref isExample st' questionDir).2.
Proof.
  intros Hid. destruct (requireQuestion W questionDir) as [fields|] eqn:Hreq.
  - rewrite !(forEachQuestion_some W pl _ _ _ _ _ fields) by done.
    cbn [fst snd questionId]. rewrite Hid. split; [| done].
    apply createQuestionsImages_jobs.
  - by rewrite !forEachQuestion_none by done.
Qed.

Lemma questions_jobs ref dirs st st' :
  questionId st = questionId st' ->
  resizeJobs (foldTask (forEachQuestion W pl slot ref false) st dirs).1
  = resizeJobs (foldTask (forEachQuestion W pl slot' ref false) st' dirs).1 /\
  questionId (foldTask (forEachQuestion W pl slot ref false) st dirs).2
  = questionId (foldTask (forEachQuestion W pl slot' ref false) st' dirs).2.
Proof.
  revert st st'. induction dirs as [|dir dirs IH]; intros st st' Hid; [done |].
  rewrite !foldTask_cons. cbn [fst snd]. rewrite !resizeJobs_app.
  destruct (forEachQuestion_jobs ref false st st' dir Hid) as [-> Hid'].
  destruct (IH _ _ Hid') as [-> ->]. done.
Qed.

Lemma exampleTask_jobs ref st st' r :
  questionId st = questionId st' ->
  resizeJobs (exampleTask W pl slot ref st r).1
  = resizeJobs (exampleTask W pl slot' ref st' r).1.
Proof.
  intros Hid. unfold exampleTask.
  destruct (rs_example r) as [dir|]; [| done].
  destruct (JS.truthy dir); [| done].
  by apply forEachQuestion_jobs.
Qed.

Lemma processRound_jobs r i :
  resizeJobs (processRound W pl slot r i).1
  = resizeJobs (processRound W pl slot' r i).1.
Proof.
  rewrite !processRound_unfold. cbn [fst]. rewrite !resizeJobs_app.
  destruct (questions_jobs {| rr_roundId := i; rr_title := rs_title r |}
              (rs_questions r) {| questionId := 0; questionPromises := [] |}
              {| questionId := 0; questionPromises := [] |} eq_refl) as [Hq Hid].
  rewrite Hq.
  by rewrite (exampleTask_jobs {| rr_roundId := i; rr_title := rs_title r |} _ _ r Hid).
Qed.

Lemma roundPromises_jobs :
  resizeJobs (roundPromises W pl slot).1 = resizeJobs (roundPromises W pl slot').1.
Proof.
  unfold roundPromises, forEach. apply forEachFrom_jobs.
  intros r i. apply processRound_jobs.
Qed.

Lemma tail_jobs (b : bool) (t : list Event) :
  (forall j, NewThreadResize j ∉ t) -> resizeJobs (if b then t else []) = [].
Proof.
  intros Hno. destruct b; [| done].
  destruct (resizeJobs t) as [|j l] eqn:E; [done |].
  destruct (Hno j). apply resizeJobs_elem. rewrite E. left.
Qed.

Lemma buildApiMaster_jobs :
  resizeJobs (buildApiMaster W pl slot).1 = resizeJobs (buildApiMaster W pl slot').1.
Proof.
  rewrite !buildApiMaster_unfold. cbn [fst].
  change (DeleteFolder ?d :: ?t) with ([DeleteFolder d] ++ t).
  rewrite !resizeJobs_app, roundPromises_jobs.
  by rewrite !ending_jobs.
Qed.

End Jobs.

(** The schedule that hands the resize tasks to the limiter in program
    order fits the run. *)
Lemma inOrder_ok (W : World) (pl : string -> bool) : schedule_ok W (inOrder W pl).
Proof.
  unfold schedule_ok, build_api.
  generalize (resizeSlot W (inOrder W pl)). intros slot'.
  change (resizeOrder (inOrder W pl))
    with (resizeJobs (buildApiMaster W pl (fun _ => true)).1).
  change (pngLast (inOrder W pl)) with pl.
  by rewrite (buildApiMaster_jobs W pl (fun _ => true) slot').
Qed.

(** ** Runs in which every resize task is let in *)

(** Under a schedule that fits the run and leaves a slot free, every resize
    task of the run is let in. *)
Lemma run_letIn (W : World) (S : Schedule) :
  schedule_ok W S ->
  length (leaks W S) < imThreadConcurrency (config W) ->
  letIn (resizeSlot W S) (build_api W S).1.
Proof.
  intros Hok Hleaks j Hj. unfold resizeSlot, threadManager_imResize.
  apply ThreadManagerFacts.verdict_few_leaks; [done |].
  rewrite Hok. by apply resizeJobs_elem.
Qed.

Lemma sourcesFound_spec (W : World) r dir k :
  sourcesFound W = true ->
  r ∈ questionsIndex W -> dir ∈ questionRefs r ->
  is_Some (requireQuestion W dir) -> k ∈ imgKeys ->
  found W (imgPathOf dir k) = true.
Proof.
  unfold sourcesFound. intros Hall Hr Hdir [f Hf] Hk.
  rewrite forallb_forall in Hall.
  specialize (Hall r (proj1 (list_elem_of_In _ _) Hr)).
  rewrite forallb_forall in Hall.
  specialize (Hall dir (proj1 (list_elem_of_In _ _) Hdir)).
  rewrite Hf in Hall. rewrite forallb_forall in Hall.
  by apply Hall, list_elem_of_In.
Qed.

(** The build completes when every resize task is let in and every question
    that loads has its three source images. *)
Lemma buildApiMaster_completes (W : World) (pl : string -> bool) (slot : Job -> bool) :
  identifySlot W = true -> sourcesFound W = true ->
  letIn slot (buildApiMaster W pl slot).1 ->
  allSettled (roundPromises W pl slot).2 = true.
Proof.
  intros Hi Hsrc. rewrite buildApiMaster_unfold. cbn [fst].
  intros Hlet. apply allSettled_fulfilled. intros p Hp.
  apply list_elem_of_lookup in Hp as [i Hp].
  rewrite roundPromises_lookup in Hp.
  destruct (questionsIndex W !! i) as [r|] eqn:Hr; [| done].
  injection Hp as <-.
  apply processRound_fulfilled; [done | |].
  - intros dir k Hdir Hreq Hk. apply (sourcesFound_spec W r); try done.
    by apply list_elem_of_lookup_2 in Hr.
  - intros j Hj. apply Hlet. right. apply elem_of_app. left.
    by apply (roundPromises_sub _ _ _ i r).
Qed.

(** ** The events of a role within its round *)

Lemma role_sub_question (W : World) pl slot questionDir q k e :
  k ∈ imgKeys ->
  e ∈ (role W pl slot questionDir q k).1 ->
  e ∈ (createQuestionsImages W pl slot questionDir q).1.
Proof.
  intros Hk He. rewrite createQuestionsImages_unfold. cbn [fst]. right.
  unfold imgKeys in Hk.
  repeat (apply elem_of_cons in Hk as [->|Hk]); [.. | by apply elem_of_nil in Hk];
    rewrite !elem_of_app; auto.
Qed.

Lemma question_sub_round (W : World) pl slot r i dir fields :
  dir ∈ questionRefs r -> requireQuestion W dir = Some fields ->
  exists q, forall e,
    e ∈ (createQuestionsImages W pl slot dir q).1 ->
    e ∈ (processRound W pl slot r i).1.
Proof.
  intros Hdir Hreq. rewrite processRound_unfold. cbn [fst].
  destruct (questionRefs_cases W r dir fields Hdir Hreq) as [Hq|Hex].
  - pose proof (loadedQuestions_elem W _ _ _ Hq Hreq) as Hin.
    apply list_elem_of_lookup in Hin as [n Hn].
    eexists. intros e He. apply elem_of_app. left.
    apply (questions_sub W pl slot _ _ _ n (dir, fields)); [done |]. exact He.
  - eexists. intros e He. apply elem_of_app. right.
    apply (exampleTask_sub W pl slot _ _ _ (dir, fields)); [done |]. exact He.
Qed.

(** ** C3 *)

Lemma array_set_end {A} (a : list (option A)) (x : A) :
  JS.array_set a (length a) x = a ++ [Some x].
Proof.
  unfold JS.array_set. rewrite decide_False by lia.
  by rewrite Nat.sub_diag.
Qed.

(** Promises that are all fulfilled, the [i]-th with a round of identity
    [i], fill [apiData.rounds] without a gap. *)
Lemma saveRounds_complete (ps : list (Outcome RoundData)) (api : ApiData) :
  (forall i p, ps !! i = Some p ->
     exists rd, p = Fulfilled rd /\ rd_roundId rd = length (rounds api) + i) ->
  exists rds, ps = Fulfilled <$> rds /\
    rounds (foldl saveRound api ps) = rounds api ++ (Some <$> rds).
Proof.
  revert api. induction ps as [|p ps IH]; intros api Hps.
  - exists []. by rewrite app_nil_r.
  - destruct (Hps 0 p eq_refl) as (rd & -> & Hid).
    rewrite Nat.add_0_r in Hid. cbn [foldl saveRound]. rewrite Hid, array_set_end.
    destruct (IH {| rounds := rounds api ++ [Some rd] |}) as (rds & -> & Hrounds).
    { intros i p Hp. destruct (Hps (S i) p Hp) as (rd' & -> & Hid').
      exists rd'. split; [done |]. cbn [rounds]. rewrite length_app. simpl. lia. }
    exists (rd :: rds). split; [done |].
    rewrite Hrounds. cbn [rounds]. by rewrite <- (assoc_L (++)).
Qed.

Lemma settled_rounds (W : World) pl slot :
  allSettled (roundPromises W pl slot).2 = true ->
  exists rds, (roundPromises W pl slot).2 = Fulfilled <$> rds /\
    rounds (foldl saveRound {| rounds := [] |} (roundPromises W pl slot).2)
    = Some <$> rds.
Proof.
  intros Hall. apply (saveRounds_complete _ {| rounds := [] |}).
  intros i p Hp. cbn [rounds length Nat.add].
  unfold allSettled in Hall. rewrite forallb_forall in Hall.
  pose proof (Hall p (proj1 (list_elem_of_In _ _) (list_elem_of_lookup_2 _ _ _ Hp)))
    as Hset.
  rewrite roundPromises_lookup in Hp.
  destruct (questionsIndex W !! i) as [r|] eqn:Hr; [| done].
  assert (p = (processRound W pl slot r i).2) as -> by (cbn in Hp; congruence).
  clear Hp.
  destruct (processRound W pl slot r i).2 as [|rd|e] eqn:Hrd;
    [cbn in Hset; discriminate | |].
  - exists rd. split; [done |]. by apply (processRound_roundId W pl slot r).
  - by apply processRound_not_rejected in Hrd.
Qed.

(** C3, as the code has it.  A run writes the index file at most once.
    Nothing is written while the rounds are being processed; the file is
    written when, and only when, every round's promise has settled and
    there is a directory to write it into, as the last step but one of the
    run, and it then holds every round, none missing.  When the rounds have
    settled and there is no directory, the write throws: nothing is
    written and the build stays pending.  A run in which some round never
    settles writes no index. *)
Theorem index_written_after_rounds (W : World) (S : Schedule) :
  indexWrites (roundPromises W (pngLast S) (resizeSlot W S)).1 = [] /\
  length (indexWrites (build_api W S).1) <= 1 /\
  (indexWrites (build_api W S).1 <> [] <->
   allSettled (roundPromises W (pngLast S) (resizeSlot W S)).2 = true /\
   indexDirExists W (mkdirCalled (roundPromises W (pngLast S) (resizeSlot W S)).1)
   = true) /\
  (allSettled (roundPromises W (pngLast S) (resizeSlot W S)).2 = true ->
   indexDirExists W (mkdirCalled (roundPromises W (pngLast S) (resizeSlot W S)).1)
   = false ->
   Throw (ENOENT (apiOutputDir (config W) +:+ "index.json")) ∈ (build_api W S).1 /\
   (build_api W S).2 = Pending) /\
  forall data, data ∈ indexWrites (build_api W S).1 ->
    (build_api W S).1
    = DeleteFolder (apiOutputDir (config W))
        :: (roundPromises W (pngLast S) (resizeSlot W S)).1
        ++ [WriteJson (apiOutputDir (config W) +:+ "index.json") data;
            Log successMessage] /\
    exists rds,
      (roundPromises W (pngLast S) (resizeSlot W S)).2 = Fulfilled <$> rds /\
      length rds = length (questionsIndex W) /\
      rounds data = Some <$> rds.
Proof.
  unfold build_api. set (pl := pngLast S). set (slot := resizeSlot W S).
  pose proof (inner_no_index _ (roundPromises_inner W pl slot)) as Hrp.
  rewrite buildApiMaster_unfold. cbn [fst snd].
  unfold indexWrites in *. cbn [omap list_omap]. rewrite omap_app, Hrp.
  cbn [app].
  destruct (ending_cases W pl slot)
    as [(-> & Hall & Hdir & ->)|[(-> & Hall & Hdir & ->)|(-> & Hall & ->)]];
    rewrite Hall, ?Hdir; cbn [omap list_omap length].
  - split_and!; [done | lia | done | done |].
    intros data ->%list_elem_of_singleton. split; [done |].
    destruct (settled_rounds W pl slot Hall) as (rds & Hps & Hrounds).
    exists rds. split_and!; [done | | done].
    rewrite <- (length_fmap Fulfilled rds), <- Hps.
    unfold roundPromises, forEach. apply forEachFrom_length.
  - split_and!; [done | lia | by split; [| intros [_ [=]]] | |].
    + intros _ _. split; [| done]. right. apply elem_of_app. right. by left.
    + intros data Hin. by apply elem_of_nil in Hin.
  - split_and!; [done | lia | by split; [| intros [[=] _]] | done |].
    intros data Hin. by apply elem_of_nil in Hin.
Qed.

(** With a source image missing, the run writes no index file at all. *)
Lemma writesIndexOnce_counterexample :
  ~ writesIndexOnce mixMissing (inOrder mixMissing (fun _ => false)).
Proof. unfold writesIndexOnce. vm_compute. discriminate. Qed.

(** ** C4 *)

Lemma settled_values {A} (ps : list (Outcome A)) :
  allSettled ps = true -> (forall p e, p ∈ ps -> p <> Rejected e) ->
  exists vs, ps = Fulfilled <$> vs.
Proof.
  induction ps as [|p ps IH]; intros Hall Hrej; [by exists [] |].
  cbn in Hall. apply andb_true_iff in Hall as [Hp Hps].
  destruct IH as [vs ->]; [done | intros q e Hq; apply Hrej; by right |].
  destruct p as [|v|e]; [done | | by destruct (Hrej (Rejected e) e (list_elem_of_here _ _))].
  by exists (v :: vs).
Qed.

Lemma saveQuestions_numbered (qs : list QuestionData) (rd : RoundData) :
  (forall k q, qs !! k = Some q ->
     qd_questionId q = QNum (length (rd_questionsData rd) + k)) ->
  foldl saveQuestion rd (Fulfilled <$> qs)
  = {| rd_title := rd_title rd; rd_roundId := rd_roundId rd;
       rd_questionsData := rd_questionsData rd ++ (Some <$> qs);
       rd_exampleData := rd_exampleData rd |}.
Proof.
  revert rd. induction qs as [|q qs IH]; intros rd Hid.
  - cbn. rewrite app_nil_r. by destruct rd.
  - cbn [fmap list_fmap foldl]. rewrite IH.
    + pose proof (Hid 0 q eq_refl) as Hq. rewrite Nat.add_0_r in Hq.
      unfold saveQuestion. rewrite Hq, decide_True by done.
      cbn. rewrite array_set_end, <- (assoc_L (++)). done.
    + intros k q' Hk. rewrite (Hid (S k) q' Hk).
      pose proof (Hid 0 q eq_refl) as Hq. rewrite Nat.add_0_r in Hq.
      unfold saveQuestion. rewrite Hq, decide_True by done.
      cbn. rewrite array_set_end, length_app. cbn. f_equal. lia.
Qed.

(** The numbered promises, once fulfilled, carry the questions that loaded,
    numbered from [n]. *)
Lemma numberedPromises_values (W : World) pl slot ref n loaded qs :
  numberedPromises W pl slot ref n loaded = Fulfilled <$> qs ->
  length qs = length loaded /\
  forall k q, qs !! k = Some q ->
    exists df, loaded !! k = Some df /\
      resultOf W pl slot df.1 (questionOf ref false (n + k) df.2) q.
Proof.
  intros Heq. split.
  - rewrite <- (length_fmap Fulfilled qs), <- Heq. unfold numberedPromises.
    by rewrite length_imap.
  - intros k q Hk.
    assert (numberedPromises W pl slot ref n loaded !! k = Some (Fulfilled q)) as Hp.
    { by rewrite Heq, list_lookup_fmap, Hk. }
    unfold numberedPromises in Hp. rewrite list_lookup_imap in Hp.
    destruct (loaded !! k) as [df|]; [| done].
    assert ((createQuestionsImages W pl slot df.1
               (questionOf ref false (n + k) df.2)).2 = Fulfilled q) as Hq
      by (cbn in Hp; congruence).
    apply createQuestionsImages_result in Hq. by exists df.
Qed.

Lemma numberedPromises_not_rejected (W : World) pl slot ref n loaded p e :
  p ∈ numberedPromises W pl slot ref n loaded -> p <> Rejected e.
Proof.
  intros Hp. apply list_elem_of_lookup in Hp as [k Hk].
  unfold numberedPromises in Hk. rewrite list_lookup_imap in Hk.
  destruct (loaded !! k) as [df|]; [| done].
  assert (p = (createQuestionsImages W pl slot df.1
                 (questionOf ref false (n + k) df.2)).2) as ->
    by (cbn in Hk; congruence).
  apply createQuestionsImages_not_rejected.
Qed.

(** The round with which [processRound] resolves. *)
Lemma processRound_result (W : World) pl slot r i rd :
  (processRound W pl slot r i).2 = Fulfilled rd ->
  exists qs,
    length qs = length (loadedQuestions W (rs_questions r)) /\
    (forall k q, qs !! k = Some q ->
       exists df, loadedQuestions W (rs_questions r) !! k = Some df /\
         resultOf W pl slot df.1
           (questionOf {| rr_roundId := i; rr_title := rs_title r |} false k df.2) q) /\
    rd_questionsData rd = Some <$> qs /\
    match exampleOf W r with
    | Some df =>
        exists q, rd_exampleData rd = Some q /\
          resultOf W pl slot df.1
            (questionOf {| rr_roundId := i; rr_title := rs_title r |}
               true (length qs) df.2) q
    | None => rd_exampleData rd = None
    end.
Proof.
  rewrite processRound_unfold. cbn [snd]. case_cond; [| done]. intros [= <-].
  unfold questionPromisesOf in *.
  set (ref := {| rr_roundId := i; rr_title := rs_title r |}) in *.
  set (loaded := loadedQuestions W (rs_questions r)) in *.
  match goal with H : allSettled _ = true |- _ => rename H into Hall end.
  unfold allSettled in Hall. rewrite forallb_app in Hall.
  apply andb_true_iff in Hall as [Hnum Hex].
  destruct (settled_values (numberedPromises W pl slot ref 0 loaded)) as [qs Hqs];
    [done | intros p e Hp; by apply (numberedPromises_not_rejected W pl slot ref 0 loaded) |].
  destruct (numberedPromises_values W pl slot ref 0 loaded qs Hqs) as [Hlen Hval].
  exists qs. rewrite Hqs, foldl_app, saveQuestions_numbered.
  2: { intros k q Hk. destruct (Hval k q Hk) as (df & _ & da & db & dm & _ & _ & _ & ->).
       done. }
  rewrite <- Hlen in *. unfold examplePromise in *.
  destruct (exampleOf W r) as [df|]; [| by split_and!].
  cbn [foldl].
  destruct (createQuestionsImages W pl slot df.1
              (questionOf ref true (length qs) df.2)).2 as [|q|e] eqn:Hq.
  - cbn in Hex. discriminate.
  - pose proof (createQuestionsImages_result W pl slot _ _ _ Hq) as Hres.
    destruct Hres as (da & db & dm & Ha & Hb & Hm & ->).
    unfold saveQuestion. cbn [withImgs questionOf qd_questionId].
    rewrite decide_False by (intros H; by apply H).
    split_and!; [done | done | done |].
    eexists. split; [done |]. by exists da, db, dm.
  - by apply createQuestionsImages_not_rejected in Hq.
Qed.

(** C4, as the code has it.  In every round of the output, the numbered
    questions are those whose metadata loads, in the order of declaration;
    their identities are 0, 1, ..., n-1 with no gap in [questionsData].  The
    example question is given its identity without touching the counter, is
    stored apart in [exampleData], and its identity is the string ['e']. *)
Theorem questions_numbered (W : World) (pl : string -> bool) (slot : Job -> bool)
    (r : RoundSpec) (i : nat) :
  numbering "e" W pl slot r i.
Proof.
  intros rd Hrd.
  destruct (processRound_result W pl slot r i rd Hrd)
    as (qs & Hlen & Hval & Hqd & Hex).
  unfold questionIds, questionFields, exampleId. rewrite Hqd. split_and!.
  - apply list_eq. intros k. rewrite !list_lookup_fmap.
    destruct (qs !! k) as [q|] eqn:Hk.
    + destruct (Hval k q Hk) as (df & Hdf & da & db & dm & _ & _ & _ & ->).
      rewrite lookup_seq_lt; [done |].
      rewrite <- Hlen. by apply lookup_lt_Some in Hk.
    + rewrite lookup_seq_ge; [done |].
      rewrite <- Hlen. by apply lookup_ge_None in Hk.
  - apply list_eq. intros k. rewrite !list_lookup_fmap.
    destruct (qs !! k) as [q|] eqn:Hk.
    + destruct (Hval k q Hk) as (df & -> & da & db & dm & _ & _ & _ & ->). done.
    + apply lookup_ge_None in Hk. rewrite Hlen in Hk.
      apply lookup_ge_None in Hk. by rewrite Hk.
  - destruct (exampleOf W r) as [df|]; [| by rewrite Hex].
    destruct Hex as (q & -> & da & db & dm & _ & _ & _ & ->). done.
  - destruct (exampleOf W r) as [df|]; [| by rewrite Hex].
    destruct Hex as (q & -> & da & db & dm & _ & _ & _ & ->). done.
Qed.

(** The round of the sample tree: [q0] and [q1] are numbered 0 and 1, [bad]
    takes no number, the example is ['e']. *)
Lemma questions_numbered_witness :
  exists rd,
    (processRound oneResizeFails (fun _ => false) (fun _ => true)
       {| rs_title := "Round 1"; rs_questions := ["q0"; "bad"; "q1"];
          rs_example := Some "ex" |} 0).2 = Fulfilled rd /\
    questionIds rd = [Some (QNum 0); Some (QNum 1)] /\
    exampleId rd = Some (QStr "e").
Proof.
  eexists. split; [vm_compute; reflexivity |].
  destruct (questions_numbered oneResizeFails (fun _ => false) (fun _ => true)
              {| rs_title := "Round 1"; rs_questions := ["q0"; "bad"; "q1"];
                 rs_example := Some "ex" |} 0 _ ltac:(vm_compute; reflexivity))
    as (Hids & _ & Hex & _).
  split; [exact Hids | exact Hex].
Defined.

(** The example question's identity is not the string ["example"]. *)
Lemma questions_numbered_counterexample :
  ~ numbering "example" oneResizeFails (fun _ => false) (fun _ => true)
      {| rs_title := "Round 1"; rs_questions := ["q0"; "bad"; "q1"];
         rs_example := Some "ex" |} 0.
Proof.
  intros H.
  destruct (H _ ltac:(vm_compute; reflexivity)) as (_ & _ & Hex & _).
  vm_compute in Hex. discriminate.
Qed.

(** ** C7 *)

(** C7, as the code has it.  Each probe that finds metadata overwrites
    [imgFileData], so the source of a role is the format whose
    identification callback runs last: when both formats yield metadata it
    is the png if the png callback comes after the jpg one, and the jpg
    otherwise; when one format yields metadata it is that one.  Two runs
    over the same inputs in which the two callbacks of the role come in the
    same order resolve the same source, and with it produce the same
    events and the same result for the role. *)
Theorem source_is_last_probe (W : World) (imgPath imgName_ : string) :
  (forall pl : string -> bool,
     0 < imThreadConcurrency (config W) ->
     imgFileData W pl imgPath imgName_
     = match im_identify W (imgPath +:+ "." +:+ "png"),
             im_identify W (imgPath +:+ "." +:+ "jpg") with
       | Some mdp, Some mdj =>
           Some (if pl imgPath then sourceOf imgPath imgName_ "png" mdp
                 else sourceOf imgPath imgName_ "jpg" mdj)
       | Some mdp, None => Some (sourceOf imgPath imgName_ "png" mdp)
       | None, Some mdj => Some (sourceOf imgPath imgName_ "jpg" mdj)
       | None, None => None
       end) /\
  (forall (pl1 pl2 : string -> bool) slot distDir roundId qid,
     pl1 imgPath = pl2 imgPath ->
     imgFileData W pl1 imgPath imgName_ = imgFileData W pl2 imgPath imgName_ /\
     createImageVariants W pl1 slot imgPath distDir imgName_ roundId qid
     = createImageVariants W pl2 slot imgPath distDir imgName_ roundId qid).
Proof.
  split.
  - intros pl Hcap. unfold imgFileData, probe, identifySlot, sourceOf.
    rewrite bool_decide_eq_true_2 by lia.
    destruct (im_identify W (imgPath +:+ "." +:+ "png")),
             (im_identify W (imgPath +:+ "." +:+ "jpg")), (pl imgPath); done.
  - intros pl1 pl2 slot distDir roundId qid Hpl.
    assert (imgFileData W pl1 imgPath imgName_ = imgFileData W pl2 imgPath imgName_)
      as Heq by (unfold imgFileData; by rewrite Hpl).
    split; [done |]. unfold createImageVariants. by rewrite Heq.
Qed.

(** In the tree with both formats, identification has twenty slots. *)
Lemma source_is_last_probe_witness :
  imgFileData bothFormats (fun _ => true) "./src/questions/q0/a" "a"
  = Some (sourceOf "./src/questions/q0/a" "a" "png"
            {| height := Some 300%Z; width := Some 400%Z |}).
Proof.
  rewrite (proj1 (source_is_last_probe bothFormats "./src/questions/q0/a" "a")
             (fun _ => true)).
  - reflexivity.
  - vm_compute. lia.
Defined.

(** With both formats present, the order of the two callbacks decides the
    source, and the two runs write different indexes. *)
Lemma sameSource_counterexample :
  ~ sameSource bothFormats "./src/questions/q0/a" "a" /\
  indexWrites (build_api bothFormats (inOrder bothFormats (fun _ => true))).1
  <> indexWrites (build_api bothFormats (inOrder bothFormats (fun _ => false))).1.
Proof.
  split.
  - intros H. specialize (H (fun _ => true) (fun _ => false)).
    vm_compute in H. discriminate.
  - vm_compute. discriminate.
Qed.

(** ** The tree without its unloadable references *)





Lemma unloadable_logged (W : World) pl slot ref st dirs q :
  q ∈ dirs -> requireQuestion W q = None ->
  LogError (RequireFailed q)
    ∈ (foldTask (forEachQuestion W pl slot ref false) st dirs).1.
Proof.
  intros Hq Hreq. apply list_elem_of_split in Hq as (l1 & l2 & ->).
  rewrite foldTask_app. cbn [fst]. apply elem_of_app. right.
  rewrite foldTask_cons. cbn [fst]. apply elem_of_app. left.
  rewrite forEachQuestion_none by done. left.
Qed.

(** ** The widths of a role *)

Lemma createImageVariant_outcome (W : World) slot src outputDir size roundId qid pos :
  (createImageVariant W slot src outputDir size roundId qid pos).2
  = if slot (jobOf W src outputDir size roundId qid pos)
    then match im_resize W (fs_readFileSync W (path src)) size (imgFormat (config W)) with
         | inl err => Rejected (ResizeFailed err)
         | inr _ => Fulfilled (apiFilePath (config W)
                                 (outputFileNameOf W src outputDir size roundId qid))
         end
    else Pending.
Proof.
  unfold createImageVariant, resizeThread, jobOf, outputFileNameOf. task_unfold.
  destruct (slot _); [| done]. by destruct (im_resize _ _ _ _).
Qed.

Lemma saveSrcs_dom (vs : list (Z * Outcome string)) (m : gmap Z string) (w : Z) :
  w ∈ dom (foldl saveSrc m vs) <-> w ∈ dom m \/ exists p, (w, Fulfilled p) ∈ vs.
Proof.
  revert m. induction vs as [|[w' o] vs IH]; intros m.
  - cbn. split; [by left | intros [H|[p H]]; [done | by apply elem_of_nil in H]].
  - cbn [foldl]. rewrite IH. unfold saveSrc. cbn [fst snd].
    destruct o as [|p'|e].
    + split; (intros [H|[p H]]; [by left | right; exists p]).
      * by right.
      * apply elem_of_cons in H as [H|H]; [congruence | done].
    + rewrite dom_insert_L, elem_of_union, elem_of_singleton. split.
      * intros [[->|H]|[p H]]; [right; exists p'; left | by left | right; exists p; by right].
      * intros [H|[p H]]; [left; by right |].
        apply elem_of_cons in H as [[= -> ->]|H]; [left; by left | right; by exists p].
    + split; (intros [H|[p H]]; [by left | right; exists p]).
      * by right.
      * apply elem_of_cons in H as [H|H]; [congruence | done].
Qed.

(** A role whose promise is fulfilled has an entry for exactly those
    configured widths at which the resize succeeded. *)
Lemma role_srcs (W : World) pl slot imgPath distDir imgName_ roundId qid d :
  (createImageVariants W pl slot imgPath distDir imgName_ roundId qid).2 = Fulfilled d ->
  exists src,
    imgFileData W pl imgPath imgName_ = Some src /\
    aspectRatio d = aspectRatioOf (metadata src) /\
    forall w, w ∈ dom (srcs d) <-> w ∈ imgSizes (config W) /\ resizes W src w.
Proof.
  destruct (createImageVariants_cases W pl slot imgPath distDir imgName_ roundId qid)
    as [(_ & -> & _)|(src & Hi & Hsrc)]; [done |].
  rewrite (createImageVariants_some W pl slot _ _ _ _ _ src) by done. cbn [snd].
  set (outputDir := distDir +:+ "round-" +:+ JS.str_nat roundId +:+ "/" +:+
                    "question-" +:+ str_questionId qid).
  case_cond; [| done]. intros [= <-]. exists src. split_and!; [done | done |].
  match goal with H : allSettled _ = true |- _ => rename H into Hall end.
  intros w. cbn [srcs]. rewrite saveSrcs_dom, dom_empty_L.
  assert (forall k sz o,
    (forEach (forEachSize W slot src outputDir roundId qid) (imgSizes (config W))).2 !! k
      = Some (sz, o) ->
    imgSizes (config W) !! k = Some sz /\
    o = match im_resize W (fs_readFileSync W (path src)) sz (imgFormat (config W)) with
        | inl err => Rejected (ResizeFailed err)
        | inr _ => Fulfilled (apiFilePath (config W)
                                (outputFileNameOf W src outputDir sz roundId qid))
        end) as Hlook.
  { intros k sz o Hk.
    assert (settled o = true) as Hset.
    { unfold allSettled in Hall. rewrite forallb_forall in Hall.
      apply Hall, list_elem_of_In, list_elem_of_fmap. exists (sz, o).
      split; [done |]. by apply list_elem_of_lookup_2 in Hk. }
    unfold forEach in Hk. rewrite forEachFrom_lookup in Hk.
    destruct (imgSizes (config W) !! k) as [sz'|]; [| done].
    cbn [fmap option_fmap option_map] in Hk. rewrite forEachSize_snd in Hk.
    assert (sz' = sz) as -> by congruence.
    assert (o = (createImageVariant W slot src outputDir sz roundId qid (0 + k)).2)
      as Ho by congruence.
    split; [done |]. rewrite createImageVariant_outcome in Ho.
    destruct (slot _); [done |]. by rewrite Ho in Hset. }
  split.
  - intros [H|[p Hp]]; [by apply elem_of_empty in H |].
    apply list_elem_of_lookup in Hp as [k Hk].
    destruct (Hlook k w (Fulfilled p) Hk) as [Hsz Ho].
    split; [by apply list_elem_of_lookup_2 in Hsz |].
    unfold resizes. destruct (im_resize _ _ _ _) as [err|out]; [done | by exists out].
  - intros [Hw [out Hout]]. right.
    apply list_elem_of_lookup in Hw as [k Hk].
    assert (exists o, (forEach (forEachSize W slot src outputDir roundId qid)
                         (imgSizes (config W))).2 !! k = Some (w, o)) as [o Ho].
    { unfold forEach. rewrite forEachFrom_lookup, Hk. cbn.
      rewrite forEachSize_snd. eauto. }
    destruct (Hlook k w o Ho) as [_ Heq]. rewrite Hout in Heq. subst o.
    eexists. by apply list_elem_of_lookup_2 in Ho.
Qed.

(** ** C10 *)

Lemma index_data (W : World) pl slot data :
  data ∈ indexWrites (buildApiMaster W pl slot).1 ->
  allSettled (roundPromises W pl slot).2 = true /\
  data = foldl saveRound {| rounds := [] |} (roundPromises W pl slot).2.
Proof.
  rewrite buildApiMaster_unfold. cbn [fst].
  unfold indexWrites. cbn [omap list_omap]. rewrite omap_app.
  fold (indexWrites (roundPromises W pl slot).1).
  rewrite (inner_no_index _ (roundPromises_inner W pl slot)). cbn [app].
  destruct (ending_cases W pl slot)
    as [(_ & Hall & _ & ->)|[(_ & _ & _ & ->)|(_ & _ & ->)]]; cbn [omap list_omap].
  - by intros ->%list_elem_of_singleton.
  - intros H. by apply elem_of_nil in H.
  - intros H. by apply elem_of_nil in H.
Qed.

(** Every question of a round of the written index is the result of its
    three roles. *)
Lemma index_question (W : World) pl slot data rd q :
  data ∈ indexWrites (buildApiMaster W pl slot).1 ->
  Some rd ∈ rounds data ->
  Some q ∈ rd_questionsData rd \/ rd_exampleData rd = Some q ->
  exists dir q0, resultOf W pl slot dir q0 q.
Proof.
  intros [Hall ->]%index_data Hrd Hq.
  destruct (settled_rounds W pl slot Hall) as (rds & Hps & Hrounds).
  rewrite Hrounds in Hrd.
  apply list_elem_of_fmap in Hrd as (rd' & [= <-] & Hrd).
  apply list_elem_of_lookup in Hrd as [i Hi].
  assert ((roundPromises W pl slot).2 !! i = Some (Fulfilled rd)) as Hp
    by (by rewrite Hps, list_lookup_fmap, Hi).
  rewrite roundPromises_lookup in Hp.
  destruct (questionsIndex W !! i) as [r|]; [| done].
  assert ((processRound W pl slot r i).2 = Fulfilled rd) as Hround
    by (cbn in Hp; congruence).
  destruct (processRound_result W pl slot r i rd Hround)
    as (qs & _ & Hval & Hqd & Hex).
  destruct Hq as [Hq|Hq].
  - rewrite Hqd in Hq. apply list_elem_of_fmap in Hq as (q' & [= <-] & Hq).
    apply list_elem_of_lookup in Hq as [k Hk].
    destruct (Hval k q Hk) as (df & _ & Hres). eauto.
  - destruct (exampleOf W r) as [df|]; [| congruence].
    destruct Hex as (q' & Hq' & Hres).
    assert (q' = q) as -> by congruence. eauto.
Qed.

(** C10.  Every question of the written index, numbered or example, has an
    [imgs] object with the three roles [a], [b] and [mix].  The entry of a
    role is the result of that role: its source was identified, its aspect
    ratio is that of the source, and its [srcs] holds exactly the
    configured widths at which the resize succeeded; when no resize of the
    role succeeded the role is still there, with an empty [srcs]. *)
Theorem imgs_keeps_roles (W : World) (S : Schedule) (data : ApiData)
    (rd : RoundData) (q : QuestionData) :
  data ∈ indexWrites (build_api W S).1 ->
  Some rd ∈ rounds data ->
  Some q ∈ rd_questionsData rd \/ rd_exampleData rd = Some q ->
  exists dir da db dm,
    qd_imgs q = Some [("a", da); ("b", db); ("mix", dm)] /\
    forall k d, (k, d) ∈ [("a", da); ("b", db); ("mix", dm)] ->
      exists src,
        imgFileData W (pngLast S) (imgPathOf dir k) k = Some src /\
        aspectRatio d = aspectRatioOf (metadata src) /\
        (forall w, w ∈ dom (srcs d) <-> w ∈ imgSizes (config W) /\ resizes W src w) /\
        ((forall w, w ∈ imgSizes (config W) -> ~ resizes W src w) -> srcs d = ∅).
Proof.
  intros Hdata Hrd Hq.
  destruct (index_question W (pngLast S) (resizeSlot W S) data rd q Hdata Hrd Hq)
    as (dir & q0 & da & db & dm & Ha & Hb & Hm & ->).
  exists dir, da, db, dm. split; [done |].
  intros k d Hkd.
  assert ((role W (pngLast S) (resizeSlot W S) dir q0 k).2 = Fulfilled d) as Hrole.
  { repeat (apply elem_of_cons in Hkd as [[= -> ->]|Hkd]); try done.
    by apply elem_of_nil in Hkd. }
  destruct (role_srcs W _ _ _ _ _ _ _ d Hrole) as (src & Hsrc & Har & Hdom).
  exists src. split_and!; try done.
  intros Hnone. apply dom_empty_inv_L. apply set_eq. intros w.
  rewrite Hdom. split; [intros [Hw Hr]; by destruct (Hnone w Hw) |].
  intros H. by apply elem_of_empty in H.
Qed.

(** In the sample tree where no variant of [q0]'s first image can be made,
    the index is written and [q0] keeps its role [a], with no width. *)
Lemma imgs_keeps_roles_witness :
  exists data rd q da db dm,
    indexWrites (build_api noVariantOfA (inOrder noVariantOfA (fun _ => false))).1
      = [data] /\
    rounds data = [Some rd] /\
    rd_questionsData rd !! 0 = Some (Some q) /\
    qd_imgs q = Some [("a", da); ("b", db); ("mix", dm)] /\
    srcs da = ∅.
Proof.
  assert (exists data rd q,
    indexWrites (build_api noVariantOfA (inOrder noVariantOfA (fun _ => false))).1
      = [data] /\
    rounds data = [Some rd] /\
    rd_questionsData rd !! 0 = Some (Some q)) as (data & rd & q & Ht & Hrd & Hq).
  { vm_compute. do 3 eexists. split_and!; reflexivity. }
  destruct (imgs_keeps_roles noVariantOfA (inOrder noVariantOfA (fun _ => false))
              data rd q) as (dir & da & db & dm & Himgs & _).
  - rewrite Ht. left.
  - rewrite Hrd. left.
  - left. by apply list_elem_of_lookup_2 in Hq.
  - exists data, rd, q, da, db, dm.
    split; [exact Ht |]. split; [exact Hrd |]. split; [exact Hq |].
    split; [exact Himgs |].
    vm_compute in Ht. injection Ht as <-.
    vm_compute in Hrd. injection Hrd as <-.
    vm_compute in Hq. injection Hq as <-.
    vm_compute in Himgs. injection Himgs as <- _ _. reflexivity.
Defined.

(** ** C8 *)

(** C8, where the code departs from it.  With the API written to the
    directory [a/], the variant of the first image is written to
    [a/imgs/round-0/question-0/a/r0q0.a.320.jpg], which is the output
    directory followed by [imgs/round-0/question-0/a/r0q0.a.320.jpg]; the
    API path returned is [/imgs/round-0/question-0/], not the API prefix
    followed by the rest of the generated path: [split] cuts the path at
    every occurrence of the output directory, and the code keeps the piece
    between the first two. *)
Theorem api_path_cut_short :
  createImageVariant treeInA (fun _ => true)
    (sourceOf "./src/questions/q0/a" "a" "jpg"
       {| height := Some 100%Z; width := Some 200%Z |})
    "a/imgs/round-0/question-0" 320 0 (QNum 0) 0
  = ([Mkdir "a/imgs/round-0/question-0/a";
      NewThreadResize
        {| job_src := "./src/questions/q0/a.jpg";
           job_out := "a/imgs/round-0/question-0/a/r0q0.a.320.jpg";
           job_size := 320; job_pos := 0 |};
      WriteFile "a/imgs/round-0/question-0/a/r0q0.a.320.jpg"
        "./src/questions/q0/a.jpg@320"],
     Fulfilled "/imgs/round-0/question-0/") /\
  "a/imgs/round-0/question-0/a/r0q0.a.320.jpg"
  = apiOutputDir outputInA +:+ "imgs/round-0/question-0/a/r0q0.a.320.jpg" /\
  apiFilePath outputInA "a/imgs/round-0/question-0/a/r0q0.a.320.jpg"
  <> apiPathPrefix outputInA +:+ "imgs/round-0/question-0/a/r0q0.a.320.jpg".
Proof.
  split_and!; [vm_compute; reflexivity | reflexivity | vm_compute; discriminate].
Qed.

(** ** C6 *)

(** A resize that fails rejects the variant and leaves [thread.resolve()]
    uncalled. *)
Lemma resize_error_keeps_slot (W : World) (data : string) (size : Z)
    (outputFileName err : string) :
  im_resize W data size (imgFormat (config W)) = inl err ->
  resizeThread W data size outputFileName
  = ([], (Rejected (ResizeFailed err), false)).
Proof. intros H. unfold resizeThread. by rewrite H. Qed.

(** Once as many resize tasks have failed as the limiter has slots, a
    resize task submitted after them is never started. *)
Lemma resizeSlot_after_leaks (W : World) (S : Schedule) (p rest : list Job) (j : Job) :
  resizeOrder S = p ++ j :: rest -> j ∉ p ->
  imThreadConcurrency (config W)
    <= length (filter (fun j => resizeReleases W j = false) p) ->
  resizeSlot W S j = false.
Proof.
  intros Horder Hj Hle. unfold resizeSlot, threadManager_imResize.
  rewrite Horder. by apply ThreadManagerFacts.verdict_after_leaks.
Qed.

(** C6, where the code departs from it.  On an error the callback of
    [im.resize] returns without calling [thread.resolve()], so the task
    keeps its slot for ever.  With one slot, two widths and the resize of
    the first image to 320 failing, the tasks reaching the limiter in
    program order: the failed task is the first to run, none of the five
    other resize tasks of the run is ever started, no image is written, the
    build never ends and no index is written.  With two slots the same
    failure costs only its own width: the five other variants are written
    and the build completes. *)
Theorem failed_resize_keeps_slot :
  schedule_ok (firstResizeFails 1) (inOrder (firstResizeFails 1) (fun _ => false)) /\
  length (resizeJobs
            (build_api (firstResizeFails 1)
               (inOrder (firstResizeFails 1) (fun _ => false))).1) = 6 /\
  leaks (firstResizeFails 1) (inOrder (firstResizeFails 1) (fun _ => false))
  = [ {| job_src := "./src/questions/q0/a.jpg";
         job_out := "./dist/api/imgs/round-0/question-0/a/r0q0.a.320.jpg";
         job_size := 320; job_pos := 0 |} ] /\
  writtenFiles
    (build_api (firstResizeFails 1)
       (inOrder (firstResizeFails 1) (fun _ => false))).1 = [] /\
  (build_api (firstResizeFails 1)
     (inOrder (firstResizeFails 1) (fun _ => false))).2 = Pending /\
  indexWrites
    (build_api (firstResizeFails 1)
       (inOrder (firstResizeFails 1) (fun _ => false))).1 = [] /\
  writtenFiles
    (build_api (firstResizeFails 2)
       (inOrder (firstResizeFails 2) (fun _ => false))).1
  = ["./dist/api/imgs/round-0/question-0/a/r0q0.a.640.jpg";
     "./dist/api/imgs/round-0/question-0/b/r0q0.b.320.jpg";
     "./dist/api/imgs/round-0/question-0/b/r0q0.b.640.jpg";
     "./dist/api/imgs/round-0/question-0/mix/r0q0.mix.320.jpg";
     "./dist/api/imgs/round-0/question-0/mix/r0q0.mix.640.jpg"] /\
  (build_api (firstResizeFails 2)
     (inOrder (firstResizeFails 2) (fun _ => false))).2 = Fulfilled tt.
Proof.
  split_and!; vm_compute; reflexivity.
Qed.

(** * Further properties of the build *)

(** ** Where the events of a run come from *)

Lemma forEachFrom_inv {A B} (i : nat) (f : A -> nat -> Task B) (l : list A) (e : Event) :
  e ∈ (forEachFrom i f l).1 ->
  exists k x, l !! k = Some x /\ e ∈ (f x (i + k)).1.
Proof.
  revert i. induction l as [|x l IH]; intros i.
  - cbn. by intros ?%elem_of_nil.
  - rewrite forEachFrom_cons. cbn [fst]. rewrite app_nil_r, elem_of_app.
    intros [H|H].
    + exists 0, x. split; [done |]. by rewrite Nat.add_0_r.
    + apply IH in H as (k & y & Hk & He). exists (S k), y. split; [done |].
      by replace (i + S k) with (S i + k) by lia.
Qed.

Lemma createImageVariant_events (W : World) slot src outputDir size roundId qid pos e :
  e ∈ (createImageVariant W slot src outputDir size roundId qid pos).1 <->
  e = Mkdir (outputDir +:+ "/" +:+ imgName src) \/
  e = NewThreadResize (jobOf W src outputDir size roundId qid pos) \/
  slot (jobOf W src outputDir size roundId qid pos) = true /\
  exists out,
    im_resize W (fs_readFileSync W (path src)) size (imgFormat (config W)) = inr out /\
    e = WriteFile (outputFileNameOf W src outputDir size roundId qid) out.
Proof.
  unfold createImageVariant, resizeThread, jobOf, outputFileNameOf. task_unfold.
  destruct (slot _); [destruct (im_resize _ _ _ _) as [err|out] |]; cbn [fst snd app];
    rewrite ?elem_of_cons, ?elem_of_nil.
  - split; [intros [?|[?|[]]]; auto | intros [?|[?|[_ (out & [=] & _)]]]; auto].
  - split.
    + intros [?|[?|[?|[]]]]; auto. right. right. split; [done |]. by exists out.
    + intros [?|[?|[_ (out' & [= <-] & ?)]]]; auto.
  - split; [intros [?|[?|[]]]; auto | intros [?|[?|[[=] _]]]; auto].
Qed.

Lemma createImageVariants_events (W : World) pl slot imgPath distDir imgName_ roundId qid e :
  e ∈ (createImageVariants W pl slot imgPath distDir imgName_ roundId qid).1 ->
  identifySlot W = true /\
  (imgFileData W pl imgPath imgName_ = None /\
     (e = LogError (NotFound imgPath) \/ e = Throw (NotFound imgPath))
   \/
   exists src pos size,
     imgFileData W pl imgPath imgName_ = Some src /\
     imgSizes (config W) !! pos = Some size /\
     e ∈ (createImageVariant W slot src
            (distDir +:+ "round-" +:+ JS.str_nat roundId +:+ "/" +:+
             "question-" +:+ str_questionId qid) size roundId qid pos).1).
Proof.
  destruct (identifySlot W) eqn:Hi;
    [| rewrite createImageVariants_no_slot by done; by intros ?%elem_of_nil].
  intros H. split; [done |].
  destruct (imgFileData W pl imgPath imgName_) as [src|] eqn:Hsrc.
  - rewrite (createImageVariants_some W pl slot _ _ _ _ _ src) in H by done.
    cbn [fst] in H. unfold forEach in H.
    apply forEachFrom_inv in H as (k & size & Hk & He).
    rewrite forEachSize_fst in He. right. by exists src, (0 + k), size.
  - left. split; [done |]. revert H. unfold createImageVariants.
    rewrite probes_settled, Hi, Hsrc. task_unfold. cbn.
    rewrite !elem_of_cons, elem_of_nil. intros [?|[?|[]]]; auto.
Qed.

Lemma createQuestionsImages_events (W : World) pl slot dir q e :
  e ∈ (createQuestionsImages W pl slot dir q).1 ->
  e = Log ("Started:   " +:+ dir) \/
  (e = Log ("Completed: " +:+ dir) /\
   fulfilled (createQuestionsImages W pl slot dir q).2 = true) \/
  exists k, k ∈ imgKeys /\ e ∈ (role W pl slot dir q k).1.
Proof.
  rewrite createQuestionsImages_unfold. cbn [fst snd].
  rewrite elem_of_cons, !elem_of_app.
  intros [?|[?|[?|[?|H]]]]; [by left | right; right .. |].
  - exists "a". split; [by left | done].
  - exists "b". split; [right; by left | done].
  - exists "mix". split; [right; right; by left | done].
  - right. left.
    destruct (role W pl slot dir q "a").2; try by apply elem_of_nil in H.
    destruct (role W pl slot dir q "b").2; try by apply elem_of_nil in H.
    destruct (role W pl slot dir q "mix").2; try by apply elem_of_nil in H.
    apply list_elem_of_singleton in H. done.
Qed.

Lemma questionPromisesOf_calls (W : World) pl slot r i :
  questionPromisesOf W pl slot r i
  = (fun c => (createQuestionsImages W pl slot c.1 c.2).2) <$> questionCalls W r i.
Proof.
  unfold questionPromisesOf, questionCalls, numberedPromises, examplePromise.
  rewrite fmap_app, fmap_imap. f_equal.
  by destruct (exampleOf W r).
Qed.

Lemma questionCalls_spec (W : World) r i dir q :
  (dir, q) ∈ questionCalls W r i ->
  dir ∈ questionRefs r /\
  requireQuestion W dir = Some (qd_fields q) /\
  qd_roundData q = {| rr_roundId := i; rr_title := rs_title r |} /\
  qd_imgs q = None /\
  (qd_questionId q = QStr "e" \/ exists n, qd_questionId q = QNum n).
Proof.
  unfold questionCalls. intros [H|H]%elem_of_app.
  - apply list_elem_of_lookup in H as [k Hk].
    apply list_lookup_imap_Some in Hk as (df & Hdf & [= -> ->]).
    destruct (loadedQuestions_lookup _ _ _ _ Hdf) as [Hdir Hreq].
    split_and!; [| done | done | done | right; by eexists].
    unfold questionRefs. apply elem_of_app. by left.
  - destruct (exampleOf W r) as [df|] eqn:Hdf; [| by apply elem_of_nil in H].
    apply list_elem_of_singleton in H as [= -> ->].
    destruct (exampleOf_ref _ _ _ Hdf) as [Hdir Hreq].
    split_and!; [done | done | done | done | by left].
Qed.

Lemma questions_events (W : World) pl slot ref st dirs e :
  e ∈ (foldTask (forEachQuestion W pl slot ref false) st dirs).1 ->
  (exists dir, dir ∈ dirs /\ requireQuestion W dir = None /\
     e = LogError (RequireFailed dir)) \/
  exists k df, loadedQuestions W dirs !! k = Some df /\
    e ∈ (createQuestionsImages W pl slot df.1
           (questionOf ref false (questionId st + k) df.2)).1.
Proof.
  revert st. induction dirs as [|dir dirs IH]; intros st.
  - cbn. by intros ?%elem_of_nil.
  - rewrite foldTask_cons. cbn [fst]. unfold loadedQuestions. cbn [omap list_omap].
    fold (loadedQuestions W dirs).
    destruct (requireQuestion W dir) as [fields|] eqn:Hreq;
      cbn [fmap option_fmap option_map].
    + rewrite (forEachQuestion_some _ _ _ _ _ _ _ fields) by done. cbn [fst snd].
      intros [H|H]%elem_of_app.
      * right. exists 0, (dir, fields). split; [done |]. cbn [fst snd].
        by rewrite Nat.add_0_r.
      * apply IH in H as [(d & Hd & Hn & ->)|(k & df & Hk & He)].
        -- left. exists d. split_and!; [by right | done | done].
        -- right. exists (S k), df. split; [done |]. cbn [questionId] in He.
           by replace (questionId st + S k) with (S (questionId st) + k) by lia.
    + rewrite forEachQuestion_none by done. cbn [fst snd].
      intros [H|H]%elem_of_app.
      * apply list_elem_of_singleton in H as ->. left. exists dir.
        split_and!; [by left | done | done].
      * apply IH in H as [(d & Hd & Hn & ->)|(k & df & Hk & He)].
        -- left. exists d. split_and!; [by right | done | done].
        -- right. by exists k, df.
Qed.

Lemma processRound_events (W : World) pl slot r i e :
  e ∈ (processRound W pl slot r i).1 ->
  (exists dir, dir ∈ questionRefs r /\ requireQuestion W dir = None /\
     e = LogError (RequireFailed dir)) \/
  exists c, c ∈ questionCalls W r i /\
    e ∈ (createQuestionsImages W pl slot c.1 c.2).1.
Proof.
  rewrite processRound_unfold. cbn [fst].
  destruct (questions_state W pl slot {| rr_roundId := i; rr_title := rs_title r |}
    {| questionId := 0; questionPromises := [] |} (rs_questions r)) as [Hid _].
  cbn [questionId Nat.add] in Hid.
  intros [H|H]%elem_of_app.
  - apply questions_events in H as [(d & Hd & Hn & ->)|(k & df & Hk & He)].
    + left. exists d. split_and!; [| done | done].
      unfold questionRefs. apply elem_of_app. by left.
    + right. cbn [questionId Nat.add] in He.
      exists (df.1, questionOf {| rr_roundId := i; rr_title := rs_title r |} false k df.2).
      split; [| done]. unfold questionCalls. apply elem_of_app. left.
      apply list_elem_of_lookup. exists k. by rewrite list_lookup_imap, Hk.
  - unfold exampleTask in H. unfold questionCalls, exampleOf, questionRefs.
    destruct (rs_example r) as [dir|]; [| by apply elem_of_nil in H].
    destruct (JS.truthy dir); [| by apply elem_of_nil in H].
    destruct (requireQuestion W dir) as [fields|] eqn:Hreq.
    + rewrite (forEachQuestion_some _ _ _ _ _ _ _ fields) in H by done.
      cbn [fst] in H. rewrite Hid in H. right.
      eexists (dir, _). split; [| exact H].
      apply elem_of_app. right. cbn. by left.
    + rewrite forEachQuestion_none in H by done.
      apply list_elem_of_singleton in H as ->. left. exists dir.
      split_and!; [| done | done]. apply elem_of_app. right. by left.
Qed.

Lemma questionCalls_sub (W : World) pl slot r i c e :
  c ∈ questionCalls W r i ->
  e ∈ (createQuestionsImages W pl slot c.1 c.2).1 ->
  e ∈ (processRound W pl slot r i).1.
Proof.
  rewrite processRound_unfold. cbn [fst].
  destruct (questions_state W pl slot {| rr_roundId := i; rr_title := rs_title r |}
    {| questionId := 0; questionPromises := [] |} (rs_questions r)) as [Hid _].
  cbn [questionId Nat.add] in Hid.
  unfold questionCalls. intros [H|H]%elem_of_app He; apply elem_of_app.
  - left. apply list_elem_of_lookup in H as [k Hk].
    apply list_lookup_imap_Some in Hk as (df & Hdf & ->).
    by apply (questions_sub _ _ _ _ _ _ k df).
  - right. destruct (exampleOf W r) as [df|] eqn:Hdf; [| by apply elem_of_nil in H].
    apply list_elem_of_singleton in H as ->.
    apply (exampleTask_sub _ _ _ _ _ _ df); [done |]. by rewrite Hid.
Qed.

Lemma buildApiMaster_events (W : World) pl slot e :
  e ∈ (buildApiMaster W pl slot).1 ->
  e = DeleteFolder (apiOutputDir (config W)) \/
  (allSettled (roundPromises W pl slot).2 = true /\
   (e = WriteJson (apiOutputDir (config W) +:+ "index.json")
          (foldl saveRound {| rounds := [] |} (roundPromises W pl slot).2) \/
    e = Log successMessage \/
    e = Throw (ENOENT (apiOutputDir (config W) +:+ "index.json")))) \/
  exists i r, questionsIndex W !! i = Some r /\ e ∈ (processRound W pl slot r i).1.
Proof.
  rewrite buildApiMaster_unfold. cbn [fst].
  rewrite elem_of_cons, elem_of_app. intros [?|[H|H]]; [by left | |].
  - right. right. unfold roundPromises, forEach in H.
    apply forEachFrom_inv in H as (k & r & Hk & He). by exists k, r.
  - right. left.
    destruct (ending_cases W pl slot)
      as [(_ & Hall & _ & Hend)|[(_ & Hall & _ & Hend)|(_ & _ & Hend)]];
      rewrite Hend in H.
    + split; [done |]. rewrite !elem_of_cons, elem_of_nil in H. tauto.
    + split; [done |]. apply list_elem_of_singleton in H. tauto.
    + by apply elem_of_nil in H.
Qed.

Lemma append_assoc (a b c : string) : (a +:+ b) +:+ c = a +:+ (b +:+ c).
Proof.
  induction a as [|x a IH]; [done |].
  change (String x ((a +:+ b) +:+ c) = String x (a +:+ b +:+ c)).
  by rewrite IH.
Qed.

Lemma outputFileNameOf_path (W : World) src roundId qid w :
  outputFileNameOf W src (outputDirOf W roundId qid) w roundId qid
  = apiOutputDir (config W) +:+ variantPath W roundId qid (imgName src) w.
Proof.
  unfold outputFileNameOf, outputDirOf, variantPath.
  by rewrite !append_assoc.
Qed.

(** What the probes leave in [imgFileData]: one of the two probed files,
    with the metadata that the identification reported for it. *)
Lemma imgFileData_some (W : World) pl imgPath imgName_ src :
  imgFileData W pl imgPath imgName_ = Some src ->
  identifySlot W = true /\
  imgName src = imgName_ /\
  (path src = imgPath +:+ "." +:+ "png" \/ path src = imgPath +:+ "." +:+ "jpg") /\
  im_identify W (path src) = Some (metadata src).
Proof.
  unfold imgFileData, probe. destruct (identifySlot W); [| by destruct (pl imgPath)].
  destruct (im_identify W (imgPath +:+ "." +:+ "png")) as [mdp|] eqn:Hp;
    destruct (im_identify W (imgPath +:+ "." +:+ "jpg")) as [mdj|] eqn:Hj;
    destruct (pl imgPath); cbn; intros [= <-]; cbn; auto.
Qed.

Lemma variant_sub_role (W : World) pl slot imgPath distDir imgName_ roundId qid
    src pos size e :
  imgFileData W pl imgPath imgName_ = Some src ->
  imgSizes (config W) !! pos = Some size ->
  e ∈ (createImageVariant W slot src
         (distDir +:+ "round-" +:+ JS.str_nat roundId +:+ "/" +:+
          "question-" +:+ str_questionId qid) size roundId qid pos).1 ->
  e ∈ (createImageVariants W pl slot imgPath distDir imgName_ roundId qid).1.
Proof.
  intros Hsrc Hpos He.
  destruct (imgFileData_some _ _ _ _ _ Hsrc) as [Hi _].
  rewrite (createImageVariants_some W pl slot _ _ _ _ _ src) by done. cbn [fst].
  unfold forEach. apply (forEachFrom_sub 0 _ _ pos size); [done |].
  by rewrite forEachSize_fst.
Qed.

Lemma round_sub_build (W : World) pl slot i r e :
  questionsIndex W !! i = Some r ->
  e ∈ (processRound W pl slot r i).1 -> e ∈ (buildApiMaster W pl slot).1.
Proof.
  intros Hr He. rewrite buildApiMaster_unfold. cbn [fst].
  right. apply elem_of_app. left. by apply (roundPromises_sub _ _ _ i r).
Qed.

Lemma role_roundId (W : World) r i dir q :
  (dir, q) ∈ questionCalls W r i -> rr_roundId (qd_roundData q) = i.
Proof. intros (_ & _ & -> & _)%questionCalls_spec. done. Qed.

Lemma called_sub (W : World) pl slot c e :
  called W pl c -> e ∈ (variantOf W slot c).1 -> e ∈ (buildApiMaster W pl slot).1.
Proof.
  intros (Hr & Hc & Hk & Hsrc & Hpos) He.
  apply (round_sub_build _ _ _ _ _ _ Hr).
  apply (questionCalls_sub _ _ _ _ _ _ _ Hc). cbn [fst snd].
  apply (role_sub_question _ _ _ _ _ _ _ Hk). unfold role.
  rewrite (role_roundId _ _ _ _ _ Hc).
  by apply (variant_sub_role _ _ _ _ _ _ _ _ _ _ _ _ Hsrc Hpos).
Qed.

Lemma variant_origin (W : World) pl slot e :
  e ∈ (buildApiMaster W pl slot).1 -> variantEvent e ->
  exists c, called W pl c /\ e ∈ (variantOf W slot c).1.
Proof.
  intros [->|[(_ & [->|[->| ->]])|(i & r & Hr & H)]]%buildApiMaster_events Hv;
    try done.
  apply processRound_events in H as [(d & _ & _ & ->)|([dir q] & Hc & H)]; [done |].
  cbn [fst snd] in H.
  apply createQuestionsImages_events in H as [->|[[-> _]|(k & Hk & H)]]; try done.
  unfold role in H. rewrite (role_roundId _ _ _ _ _ Hc) in H.
  apply createImageVariants_events in H as [_ [(_ & [->| ->])|(src & pos & size & Hsrc & Hpos & H)]];
    try done.
  by exists {| vc_round := i; vc_spec := r; vc_dir := dir; vc_question := q;
               vc_role := k; vc_src := src; vc_pos := pos; vc_size := size |}.
Qed.

(** ** The resize tasks and the files of a run *)

Lemma called_job (W : World) pl slot c j :
  called W pl c -> NewThreadResize j ∈ (variantOf W slot c).1 ->
  j = jobOf W (vc_src c) (outputDirOf W (vc_round c) (qd_questionId (vc_question c)))
        (vc_size c) (vc_round c) (qd_questionId (vc_question c)) (vc_pos c).
Proof.
  intros _ H. unfold variantOf in H.
  apply createImageVariant_events in H as [[=]|[[= ->]|(_ & out & _ & [=])]]. done.
Qed.

Lemma called_sourced (W : World) pl c :
  called W pl c ->
  sourcedJob W (jobOf W (vc_src c)
    (outputDirOf W (vc_round c) (qd_questionId (vc_question c)))
    (vc_size c) (vc_round c) (qd_questionId (vc_question c)) (vc_pos c)).
Proof.
  intros (Hr & Hc & Hk & Hsrc & Hpos).
  destruct (imgFileData_some _ _ _ _ _ Hsrc) as (Hi & Hname & Hpath & Hmd).
  destruct (questionCalls_spec _ _ _ _ _ Hc) as (Hdir & Hreq & _ & _ & Hid).
  unfold sourcedJob, jobOf. cbn [job_src job_out job_pos job_size].
  split_and!.
  - by apply bool_decide_eq_true in Hi.
  - by rewrite Hmd.
  - done.
  - exists (vc_round c), (qd_questionId (vc_question c)), (vc_role c), (vc_size c).
    split_and!.
    + by apply lookup_lt_Some in Hr.
    + done.
    + done.
    + by apply list_elem_of_lookup_2 in Hpos.
    + by rewrite outputFileNameOf_path, Hname.
  - exists (vc_spec c), (vc_dir c), (vc_role c).
    apply list_elem_of_lookup_2 in Hr.
    destruct Hpath as [Hp|Hp]; [exists "png" | exists "jpg"];
      (split_and!; [done | done | by rewrite Hreq | done | | done]).
    + by left.
    + right. by left.
Qed.


(** X2.  A file is written exactly for the submitted resize tasks that the
    limiter lets in and on which the tool succeeds; it is the task's output
    file, and holds the bytes the tool returned. *)
Theorem written_iff_resized (W : World) (S : Schedule) (file data : string) :
  WriteFile file data ∈ (build_api W S).1 <->
  exists j,
    NewThreadResize j ∈ (build_api W S).1 /\ job_out j = file /\
    resizeSlot W S j = true /\
    im_resize W (fs_readFileSync W (job_src j)) (job_size j) (imgFormat (config W))
    = inr data.
Proof.
  split.
  - intros H. apply variant_origin in H as (c & Hc & H); [| done].
    pose proof H as H'. unfold variantOf in H'.
    apply createImageVariant_events in H' as [[=]|[[=]|(Hslot & out & Hout & [= -> ->])]].
    eexists. split_and!; [| | exact Hslot | exact Hout]; [| done].
    apply (called_sub _ _ _ c); [done |]. unfold variantOf.
    apply createImageVariant_events. right. by left.
  - intros (j & Hj & <- & Hslot & Hout).
    apply variant_origin in Hj as (c & Hc & Hj); [| done].
    pose proof (called_job _ _ _ _ _ Hc Hj) as ->.
    apply (called_sub _ _ _ c); [done |]. unfold variantOf.
    apply createImageVariant_events. right. right. split; [done |].
    by exists data.
Qed.

(** X3.  The image files of a run are the variants' files, each at its
    place in the output tree: below the output directory, the path
    [<imageOutputSubDir>round-<i>/question-<id>/<role>/r<i>q<id>.<role>.<w>.<format>]
    of a round of the index, an identity that [forEachQuestion] hands out,
    one of the three roles and a configured width. *)
Theorem files_in_place (W : World) (S : Schedule) :
  Forall (variantFileOf W) (writtenFiles (build_api W S).1).
Proof.
  apply Forall_forall. intros file Hf. unfold writtenFiles in Hf.
  apply list_elem_of_omap in Hf as (e & He & Hfile).
  destruct e; try done. injection Hfile as ->.
  apply variant_origin in He as (c & Hc & He); [| done].
  unfold variantOf in He.
  apply createImageVariant_events in He as [[=]|[[=]|(_ & out & _ & [= -> ->])]].
  by destruct (called_sourced _ _ _ Hc) as (_ & _ & _ & Hfile & _).
Qed.

(** ** When the run completes *)

Lemma anyLoaded_false (W : World) r dir :
  anyLoaded W = false -> r ∈ questionsIndex W -> dir ∈ questionRefs r ->
  requireQuestion W dir = None.
Proof.
  intros Hany Hr Hdir. destruct (requireQuestion W dir) as [f|] eqn:Hreq; [| done].
  assert (anyLoaded W = true) as Ht; [| congruence].
  unfold anyLoaded. apply existsb_exists. exists r.
  split; [by apply list_elem_of_In |].
  apply existsb_exists. exists dir. split; [by apply list_elem_of_In |].
  apply bool_decide_eq_true. by rewrite Hreq.
Qed.

Lemma anyLoaded_true (W : World) :
  anyLoaded W = true ->
  exists i r dir f, questionsIndex W !! i = Some r /\ dir ∈ questionRefs r /\
    requireQuestion W dir = Some f.
Proof.
  unfold anyLoaded. intros (r & Hr & H)%existsb_exists.
  apply existsb_exists in H as (dir & Hdir & H).
  apply bool_decide_eq_true in H as [f Hf].
  apply list_elem_of_In, list_elem_of_lookup in Hr as [i Hi].
  exists i, r, dir, f. split_and!; [done | by apply list_elem_of_In | done].
Qed.

Lemma questionCalls_none (W : World) r i :
  (forall dir, dir ∈ questionRefs r -> requireQuestion W dir = None) ->
  questionCalls W r i = [].
Proof.
  intros Hnone. destruct (questionCalls W r i) as [|[dir q] l] eqn:E; [done |].
  assert ((dir, q) ∈ questionCalls W r i) as Hin by (rewrite E; by left).
  apply questionCalls_spec in Hin as (Hdir & Hreq & _).
  by rewrite (Hnone dir Hdir) in Hreq.
Qed.

Lemma questionCalls_loaded (W : World) r i dir f :
  dir ∈ questionRefs r -> requireQuestion W dir = Some f ->
  exists q, (dir, q) ∈ questionCalls W r i.
Proof.
  intros Hdir Hreq. unfold questionCalls.
  destruct (questionRefs_cases W r dir f Hdir Hreq) as [Hq|Hex].
  - pose proof (loadedQuestions_elem _ _ _ _ Hq Hreq) as Hin.
    apply list_elem_of_lookup in Hin as [n Hn].
    eexists. apply elem_of_app. left. apply list_elem_of_lookup. exists n.
    rewrite list_lookup_imap, Hn. done.
  - rewrite Hex. eexists. apply elem_of_app. right. by left.
Qed.

Lemma settled_not_rejected {A} (p : Outcome A) :
  settled p = true -> (forall e, p <> Rejected e) -> fulfilled p = true.
Proof. destruct p as [|v|e]; [done | done |]. intros _ H. by destruct (H e). Qed.

Lemma allSettled_elem {A} (ps : list (Outcome A)) (p : Outcome A) :
  allSettled ps = true -> p ∈ ps -> settled p = true.
Proof.
  unfold allSettled. rewrite forallb_forall. intros H Hp.
  by apply H, list_elem_of_In.
Qed.

(** Once the promises of all rounds have settled, every question that was
    handed to [createQuestionsImages] has its promise fulfilled. *)
Lemma rounds_settled_questions (W : World) pl slot i r c :
  allSettled (roundPromises W pl slot).2 = true ->
  questionsIndex W !! i = Some r -> c ∈ questionCalls W r i ->
  fulfilled (createQuestionsImages W pl slot c.1 c.2).2 = true.
Proof.
  intros Hall Hr Hc.
  assert (settled (processRound W pl slot r i).2 = true) as Hround.
  { apply (allSettled_elem _ _ Hall). apply list_elem_of_lookup. exists i.
    by rewrite roundPromises_lookup, Hr. }
  rewrite processRound_unfold in Hround. cbn [snd] in Hround.
  destruct (allSettled (questionPromisesOf W pl slot r i)) eqn:Hq; [| done].
  apply settled_not_rejected; [| intros e; apply createQuestionsImages_not_rejected].
  apply (allSettled_elem _ _ Hq). rewrite questionPromisesOf_calls.
  apply list_elem_of_fmap. by exists c.
Qed.

Lemma question_fulfilled_role (W : World) pl slot dir q k :
  fulfilled (createQuestionsImages W pl slot dir q).2 = true -> k ∈ imgKeys ->
  exists d, (role W pl slot dir q k).2 = Fulfilled d.
Proof.
  intros Hf Hk.
  destruct (createQuestionsImages W pl slot dir q).2 as [|q'|] eqn:E; try done.
  apply createQuestionsImages_result in E as (da & db & dm & Ha & Hb & Hm & _).
  unfold imgKeys in Hk.
  repeat (apply elem_of_cons in Hk as [->|Hk]); [.. | by apply elem_of_nil in Hk];
    eauto.
Qed.

Lemma role_fulfilled_variant (W : World) pl slot imgPath distDir imgName_ roundId qid
    d src pos size :
  (createImageVariants W pl slot imgPath distDir imgName_ roundId qid).2 = Fulfilled d ->
  imgFileData W pl imgPath imgName_ = Some src ->
  imgSizes (config W) !! pos = Some size ->
  settled (createImageVariant W slot src
             (distDir +:+ "round-" +:+ JS.str_nat roundId +:+ "/" +:+
              "question-" +:+ str_questionId qid) size roundId qid pos).2 = true.
Proof.
  intros Hd Hsrc Hpos.
  destruct (imgFileData_some _ _ _ _ _ Hsrc) as [Hi _].
  rewrite (createImageVariants_some W pl slot _ _ _ _ _ src) in Hd by done.
  cbn [snd] in Hd.
  match type of Hd with
  | context [if ?b then _ else _] => destruct b eqn:Hall
  end; [| done].
  apply (allSettled_elem _ _ Hall). apply list_elem_of_fmap.
  eexists (size, _). split; [done |].
  apply list_elem_of_lookup. exists pos. unfold forEach.
  by rewrite forEachFrom_lookup, Hpos.
Qed.

(** In a run whose round promises have all settled, every call of
    [createImageVariant] was let in. *)
Lemma rounds_settled_slot (W : World) pl slot c :
  allSettled (roundPromises W pl slot).2 = true -> called W pl c ->
  slot (jobOf W (vc_src c) (outputDirOf W (vc_round c) (qd_questionId (vc_question c)))
          (vc_size c) (vc_round c) (qd_questionId (vc_question c)) (vc_pos c)) = true.
Proof.
  intros Hall (Hr & Hc & Hk & Hsrc & Hpos).
  pose proof (rounds_settled_questions _ _ _ _ _ _ Hall Hr Hc) as Hq.
  cbn [fst snd] in Hq.
  destruct (question_fulfilled_role _ _ _ _ _ _ Hq Hk) as [d Hd].
  unfold role in Hd. rewrite (role_roundId _ _ _ _ _ Hc) in Hd.
  pose proof (role_fulfilled_variant _ _ _ _ _ _ _ _ _ _ _ _ Hd Hsrc Hpos) as Hv.
  fold (outputDirOf W (vc_round c) (qd_questionId (vc_question c))) in Hv.
  rewrite createImageVariant_outcome in Hv. by destruct (slot _).
Qed.

Lemma completes_saved (W : World) (S : Schedule) :
  completes W S <-> indexSaved W (pngLast S) (resizeSlot W S) = true.
Proof.
  unfold completes, build_api. rewrite buildApiMaster_unfold. cbn [fst snd].
  destruct (ending_cases W (pngLast S) (resizeSlot W S))
    as [(-> & _ & _ & ->)|[(-> & _)|(-> & _)]];
    [| by split; [intros [[=] _] |] ..].
  split; [done | intros _]. split; [done |].
  right. apply elem_of_app. right. right. by left.
Qed.

(** When the rounds settle: every question whose metadata loads has its
    three source images, identification has a slot unless no question
    loads, and every resize task is let in. *)
Lemma rounds_settle_iff (W : World) (S : Schedule) :
  allSettled (roundPromises W (pngLast S) (resizeSlot W S)).2 = true <->
  sourcesFound W = true /\
  (anyLoaded W = false \/ 0 < imThreadConcurrency (config W)) /\
  letIn (resizeSlot W S) (build_api W S).1.
Proof.
  split.
  - intros Hall. split_and!.
    + unfold sourcesFound. apply forallb_forall. intros r Hr.
      apply list_elem_of_In, list_elem_of_lookup in Hr as [i Hi].
      apply forallb_forall. intros dir Hdir. apply list_elem_of_In in Hdir.
      destruct (requireQuestion W dir) as [f|] eqn:Hreq; [| done].
      apply forallb_forall. intros k Hk. apply list_elem_of_In in Hk.
      destruct (found W (imgPathOf dir k)) eqn:Hf; [done |].
      pose proof (processRound_pending W (pngLast S) (resizeSlot W S) r i dir f k
                    Hdir Hreq Hk Hf) as Hp.
      rewrite allSettled_pending in Hall; [done |].
      apply list_elem_of_lookup. exists i. by rewrite roundPromises_lookup, Hi, <- Hp.
    + destruct (anyLoaded W) eqn:Hany; [right | by left].
      apply anyLoaded_true in Hany as (i & r & dir & f & Hr & Hdir & Hreq).
      destruct (questionCalls_loaded W r i dir f Hdir Hreq) as [q Hc].
      pose proof (rounds_settled_questions _ _ _ _ _ _ Hall Hr Hc) as Hq.
      cbn [fst snd] in Hq.
      destruct (question_fulfilled_role _ _ _ _ _ "a" Hq ltac:(by left)) as [d Hd].
      apply role_srcs in Hd as (src & Hsrc & _).
      apply imgFileData_some in Hsrc as [Hi _].
      by apply bool_decide_eq_true in Hi.
    + intros j Hj. unfold build_api in Hj.
      apply variant_origin in Hj as (c & Hc & Hj); [| done].
      rewrite (called_job _ _ _ _ _ Hc Hj).
      by apply (rounds_settled_slot _ _ _ _ Hall).
  - intros (Hsrc & [Hany|Hcap] & Hlet).
    + apply allSettled_fulfilled. intros p Hp.
      apply list_elem_of_lookup in Hp as [i Hp].
      rewrite roundPromises_lookup in Hp.
      destruct (questionsIndex W !! i) as [r|] eqn:Hr; [| done].
      assert (p = (processRound W (pngLast S) (resizeSlot W S) r i).2) as ->
        by (cbn [fmap option_fmap option_map] in Hp; congruence).
      rewrite processRound_unfold. cbn [snd].
      rewrite questionPromisesOf_calls, questionCalls_none; [done |].
      intros dir Hdir. apply (anyLoaded_false W r); [done | | done].
      by apply list_elem_of_lookup_2 in Hr.
    + apply buildApiMaster_completes; [| done | done].
      unfold identifySlot. by apply bool_decide_eq_true.
Qed.

(** [fs.mkdirParent] is called in a run exactly when [createImageVariant]
    is. *)
Lemma mkdirCalled_called (W : World) pl slot :
  mkdirCalled (roundPromises W pl slot).1 = true <-> exists c, called W pl c.
Proof.
  unfold mkdirCalled. rewrite existsb_exists. split.
  - intros (e & He & Hm). destruct e; try done. apply list_elem_of_In in He.
    assert (Mkdir dir ∈ (buildApiMaster W pl slot).1) as Hin.
    { rewrite buildApiMaster_unfold. right. apply elem_of_app. by left. }
    apply variant_origin in Hin as (c & Hc & _); [| done]. by exists c.
  - intros [c Hc].
    pose proof (called_sub W pl slot c
                  (Mkdir (outputDirOf W (vc_round c) (qd_questionId (vc_question c))
                          +:+ "/" +:+ imgName (vc_src c))) Hc) as Hin.
    exists (Mkdir (outputDirOf W (vc_round c) (qd_questionId (vc_question c))
                   +:+ "/" +:+ imgName (vc_src c))).
    split; [| reflexivity]. apply list_elem_of_In.
    rewrite buildApiMaster_unfold in Hin. cbn [fst] in Hin.
    rewrite elem_of_cons, elem_of_app in Hin.
    destruct Hin as [[=]|[Hin|Hin]];
      [unfold variantOf; apply createImageVariant_events; by left | done |].
    destruct (ending_cases W pl slot)
      as [(_ & _ & _ & Hend)|[(_ & _ & _ & Hend)|(_ & _ & Hend)]];
      rewrite Hend in Hin.
    + rewrite !elem_of_cons, elem_of_nil in Hin. by destruct Hin as [[=]|[[=]|[]]].
    + by apply list_elem_of_singleton in Hin.
    + by apply elem_of_nil in Hin.
Qed.

Lemma called_due (W : World) pl c : called W pl c -> variantsDue W = true.
Proof.
  intros (Hr & Hc & Hk & Hsrc & Hpos). unfold variantsDue.
  apply andb_true_intro. split.
  - destruct (questionCalls_spec _ _ _ _ _ Hc) as (Hdir & Hreq & _).
    unfold anyLoaded. apply existsb_exists. exists (vc_spec c).
    split; [by apply list_elem_of_In, (list_elem_of_lookup_2 _ (vc_round c)) |].
    apply existsb_exists. exists (vc_dir c). split; [by apply list_elem_of_In |].
    apply bool_decide_eq_true. by rewrite Hreq.
  - apply negb_true_iff, bool_decide_eq_false. intros Hnil.
    by rewrite Hnil in Hpos.
Qed.

Lemma due_called (W : World) pl :
  variantsDue W = true -> identifySlot W = true -> sourcesFound W = true ->
  exists c, called W pl c.
Proof.
  unfold variantsDue. intros [Hany Hsizes]%andb_prop Hi Hsrc.
  apply anyLoaded_true in Hany as (i & r & dir & f & Hr & Hdir & Hreq).
  destruct (questionCalls_loaded W r i dir f Hdir Hreq) as [q Hc].
  assert (found W (imgPathOf dir "a") = true) as Hf.
  { apply (sourcesFound_spec W r); [done | | done | by rewrite Hreq | by left].
    by apply list_elem_of_lookup_2 in Hr. }
  destruct (imgFileData_found W pl (imgPathOf dir "a") "a" Hi Hf) as [src Hsrc'].
  apply negb_true_iff, bool_decide_eq_false in Hsizes.
  destruct (imgSizes (config W)) as [|size sizes] eqn:Hs; [done |].
  exists {| vc_round := i; vc_spec := r; vc_dir := dir; vc_question := q;
            vc_role := "a"; vc_src := src; vc_pos := 0; vc_size := size |}.
  split_and!; cbn; [done | done | by left | done | by rewrite Hs].
Qed.

(** In a run whose questions have their source images, [fs.mkdirParent] is
    called exactly when a variant is due. *)
Lemma mkdirCalled_due (W : World) pl slot :
  sourcesFound W = true -> (anyLoaded W = false \/ identifySlot W = true) ->
  mkdirCalled (roundPromises W pl slot).1 = variantsDue W.
Proof.
  intros Hsrc Hslot.
  destruct (variantsDue W) eqn:Hdue.
  - apply (mkdirCalled_called W pl slot). apply due_called; [done | | done].
    destruct Hslot as [Hany|Hi]; [| done].
    unfold variantsDue in Hdue. by rewrite Hany in Hdue.
  - apply not_true_is_false. intros [c Hc]%mkdirCalled_called.
    apply called_due in Hc. congruence.
Qed.

(** X4.  The run reaches its end exactly when every question whose metadata
    loads has its three source images, identification has a slot unless no
    question loads at all, every resize task that the run submits is let
    in by the limiter, and there is a directory for the index file: a
    question loads and a width is configured, so that a variant's
    directory is made below the output directory that the run has
    deleted, or the index file lies beside the output directory in a
    directory that is there. *)
Theorem completes_iff (W : World) (S : Schedule) :
  completes W S <->
  sourcesFound W = true /\
  (anyLoaded W = false \/ 0 < imThreadConcurrency (config W)) /\
  letIn (resizeSlot W S) (build_api W S).1 /\
  indexDirReady W = true.
Proof.
  rewrite completes_saved. unfold indexSaved, indexDirReady.
  rewrite andb_true_iff, rounds_settle_iff.
  assert (sourcesFound W = true ->
          anyLoaded W = false \/ 0 < imThreadConcurrency (config W) ->
          mkdirCalled (roundPromises W (pngLast S) (resizeSlot W S)).1 = variantsDue W)
    as Hmade.
  { intros Hsrc Hcap. apply mkdirCalled_due; [done |].
    destruct Hcap as [Hany|Hcap]; [by left | right].
    unfold identifySlot. by apply bool_decide_eq_true. }
  split.
  - intros [(Hsrc & Hcap & Hlet) Hdir]. split_and!; [done | done | done |].
    by rewrite <- Hmade.
  - intros (Hsrc & Hcap & Hlet & Hdir). split; [done |]. by rewrite Hmade.
Qed.

(** ** Promises, rounds and questions of the index *)

(** X5.  Whatever fails, no promise above a single variant is ever rejected:
    those of a role, of a question, of a round and of the build are
    fulfilled or stay pending. *)
Theorem failures_never_reject (W : World) (pl : string -> bool) (slot : Job -> bool) :
  notRejected (buildApiMaster W pl slot).2 /\
  Forall notRejected (roundPromises W pl slot).2 /\
  (forall questionDir q,
     notRejected (createQuestionsImages W pl slot questionDir q).2) /\
  (forall imgPath distDir imgName_ roundId qid,
     notRejected (createImageVariants W pl slot imgPath distDir imgName_ roundId qid).2).
Proof.
  split_and!.
  - rewrite buildApiMaster_unfold. cbn [snd]. by case_cond.
  - unfold roundPromises, forEach. apply forEachFrom_result. intros r i _.
    pose proof (processRound_not_rejected W pl slot r i) as H.
    destruct (processRound W pl slot r i).2 as [| |e]; [done | done | by destruct (H e)].
  - intros questionDir q.
    pose proof (createQuestionsImages_not_rejected W pl slot questionDir q) as H.
    destruct (createQuestionsImages W pl slot questionDir q).2 as [| |e];
      [done | done | by destruct (H e)].
  - intros imgPath distDir imgName_ roundId qid.
    pose proof (createImageVariants_not_rejected W pl slot imgPath distDir imgName_
                  roundId qid) as H.
    destruct (createImageVariants W pl slot imgPath distDir imgName_ roundId qid).2
      as [| |e]; [done | done | by destruct (H e)].
Qed.

Lemma index_round (W : World) pl slot data i r :
  data ∈ indexWrites (buildApiMaster W pl slot).1 ->
  questionsIndex W !! i = Some r ->
  exists rd, rounds data !! i = Some (Some rd) /\
    (processRound W pl slot r i).2 = Fulfilled rd.
Proof.
  intros [Hall ->]%index_data Hr.
  destruct (settled_rounds W pl slot Hall) as (rds & Hps & Hrounds).
  pose proof (roundPromises_lookup W pl slot i) as Hp.
  rewrite Hr, Hps, list_lookup_fmap in Hp.
  destruct (rds !! i) as [rd|] eqn:Hrd; [| done].
  exists rd. split; [by rewrite Hrounds, list_lookup_fmap, Hrd |].
  cbn [fmap option_fmap option_map] in Hp. congruence.
Qed.

Lemma processRound_title (W : World) pl slot r i rd :
  (processRound W pl slot r i).2 = Fulfilled rd -> rd_title rd = rs_title r.
Proof.
  rewrite processRound_unfold. cbn [snd]. case_cond; [| done].
  intros [= <-]. by destruct (saveQuestions_roundId (emptyRound r i)
                               (questionPromisesOf W pl slot r i)) as [_ ->].
Qed.

(** X6.  In a written index the rounds stand in the order of the source
    index, one entry per round and no hole: the entry at position [i] is
    the round declared at position [i], with [i] as its identity and the
    declared title. *)
Theorem index_rounds_in_order (W : World) (S : Schedule) (data : ApiData)
    (i : nat) (r : RoundSpec) :
  data ∈ indexWrites (build_api W S).1 ->
  questionsIndex W !! i = Some r ->
  exists rd,
    rounds data !! i = Some (Some rd) /\
    rd_roundId rd = i /\ rd_title rd = rs_title r.
Proof.
  intros Hdata Hr.
  destruct (index_round W _ _ data i r Hdata Hr) as (rd & Hrd & Hround).
  exists rd. split_and!; [done | |].
  - by apply processRound_roundId in Hround.
  - by apply processRound_title in Hround.
Qed.

(** The sample tree: the index is written, and its first entry is round 0
    with the declared title. *)
Lemma index_rounds_in_order_witness :
  exists data rd,
    indexWrites (build_api oneResizeFails (inOrder oneResizeFails (fun _ => false))).1
      = [data] /\
    rounds data !! 0 = Some (Some rd) /\
    rd_roundId rd = 0 /\ rd_title rd = "Round 1".
Proof.
  assert (exists data,
    indexWrites (build_api oneResizeFails (inOrder oneResizeFails (fun _ => false))).1
      = [data]) as (data & Ht).
  { vm_compute. eexists. reflexivity. }
  destruct (index_rounds_in_order oneResizeFails (inOrder oneResizeFails (fun _ => false))
              data 0 {| rs_title := "Round 1"; rs_questions := ["q0"; "bad"; "q1"];
                        rs_example := Some "ex" |}) as (rd & Hrd & Hid & Htitle).
  - rewrite Ht. left.
  - reflexivity.
  - exists data, rd. split; [exact Ht |]. split; [exact Hrd |].
    split; [exact Hid | exact Htitle].
Defined.

(** X7.  Every question of a written index, numbered or example, points back
    to the round it stands in: its [roundData] holds the identity and the
    title of that round. *)
Theorem question_points_to_round (W : World) (S : Schedule) (data : ApiData)
    (i : nat) (rd : RoundData) (q : QuestionData) :
  data ∈ indexWrites (build_api W S).1 ->
  rounds data !! i = Some (Some rd) ->
  Some q ∈ rd_questionsData rd \/ rd_exampleData rd = Some q ->
  qd_roundData q = {| rr_roundId := rd_roundId rd; rr_title := rd_title rd |} /\
  rd_roundId rd = i.
Proof.
  intros Hdata Hrd Hq.
  destruct (questionsIndex W !! i) as [r|] eqn:Hr.
  - destruct (index_round W _ _ data i r Hdata Hr) as (rd' & Hrd' & Hround).
    assert (rd' = rd) as -> by congruence.
    rewrite (processRound_roundId _ _ _ _ _ _ Hround),
            (processRound_title _ _ _ _ _ _ Hround).
    split; [| done].
    destruct (processRound_result W _ _ r i rd Hround) as (qs & _ & Hval & Hqd & Hex).
    destruct Hq as [Hq|Hq].
    + rewrite Hqd in Hq. apply list_elem_of_fmap in Hq as (q' & [= <-] & Hq).
      apply list_elem_of_lookup in Hq as [k Hk].
      by destruct (Hval k q Hk) as (df & _ & da & db & dm & _ & _ & _ & ->).
    + destruct (exampleOf W r) as [df|]; [| congruence].
      destruct Hex as (q' & Hq' & da & db & dm & _ & _ & _ & ->).
      assert (q = withImgs
                (questionOf {| rr_roundId := i; rr_title := rs_title r |} true
                   (length qs) df.2) [("a", da); ("b", db); ("mix", dm)]) as ->
        by congruence.
      done.
  - apply index_data in Hdata as [Hall ->].
    destruct (settled_rounds W _ _ Hall) as (rds & Hps & Hrounds).
    rewrite Hrounds in Hrd. apply lookup_lt_Some in Hrd.
    rewrite length_fmap in Hrd.
    assert (length rds = length (questionsIndex W)) as Hlen.
    { rewrite <- (length_fmap Fulfilled rds), <- Hps.
      unfold roundPromises, forEach. apply forEachFrom_length. }
    apply lookup_ge_None in Hr. lia.
Qed.

(** The sample tree: the example question of round 0 points back to round
    0. *)
Lemma question_points_to_round_witness :
  exists data rd q,
    indexWrites (build_api oneResizeFails (inOrder oneResizeFails (fun _ => false))).1
      = [data] /\
    rounds data !! 0 = Some (Some rd) /\
    rd_exampleData rd = Some q /\
    qd_roundData q = {| rr_roundId := 0; rr_title := "Round 1" |}.
Proof.
  assert (exists data rd q,
    indexWrites (build_api oneResizeFails (inOrder oneResizeFails (fun _ => false))).1
      = [data] /\
    rounds data !! 0 = Some (Some rd) /\
    rd_exampleData rd = Some q /\
    rd_roundId rd = 0 /\ rd_title rd = "Round 1") as (data & rd & q & Ht & Hrd & Hq & Hid & Htitle).
  { vm_compute. do 3 eexists. split_and!; reflexivity. }
  destruct (question_points_to_round oneResizeFails
              (inOrder oneResizeFails (fun _ => false)) data 0 rd q) as [Href _].
  - rewrite Ht. left.
  - exact Hrd.
  - right. exact Hq.
  - exists data, rd, q. split; [exact Ht |]. split; [exact Hrd |].
    split; [exact Hq |]. by rewrite Href, Hid, Htitle.
Defined.

(** ** Empty trees, schedules, and the output directory *)

Lemma resizeJobs_none (t : list Event) :
  (forall j, NewThreadResize j ∉ t) -> resizeJobs t = [].
Proof.
  intros H. destruct (resizeJobs t) as [|j l] eqn:E; [done |].
  destruct (H j). apply resizeJobs_elem. rewrite E. by left.
Qed.

Lemma writtenFiles_none (t : list Event) :
  (forall f d, WriteFile f d ∉ t) -> writtenFiles t = [].
Proof.
  intros H. destruct (writtenFiles t) as [|f l] eqn:E; [done |].
  assert (f ∈ writtenFiles t) as Hf by (rewrite E; by left).
  unfold writtenFiles in Hf. apply list_elem_of_omap in Hf as (e & He & Hfile).
  destruct e; try done. injection Hfile as ->. by destruct (H f data).
Qed.

Lemma saveRounds_empty (rs : list RoundSpec) (n : nat) (api : ApiData) :
  length (rounds api) = n ->
  foldl saveRound api (imap (fun i r => Fulfilled (emptyRound r (n + i))) rs)
  = {| rounds := rounds api ++ imap (fun i r => Some (emptyRound r (n + i))) rs |}.
Proof.
  revert n api. induction rs as [|r rs IH]; intros n [a] Hlen; cbn in *.
  - by rewrite app_nil_r.
  - rewrite Nat.add_0_r.
    rewrite (imap_ext _ (fun i r => Fulfilled (emptyRound r (S n + i)))) by
      (intros; cbn; f_equal; f_equal; lia).
    rewrite (imap_ext (fun n0 : nat => (fun i r => Some (emptyRound r (n + i))) (S n0))
                      (fun i r => Some (emptyRound r (S n + i)))) by
      (intros; cbn; f_equal; f_equal; lia).
    rewrite IH.
    + cbn [rounds]. rewrite <- Hlen, array_set_end, <- (assoc_L (++)). done.
    + cbn [rounds]. rewrite <- Hlen, array_set_end, length_app. cbn. lia.
Qed.

(** X8.  When no question of the index has metadata that loads, the run
    submits no resize task and writes no image file, and every round
    settles.  It makes no directory either, so the index file has a
    directory only when it lies beside the output directory in a directory
    that is there: then the run completes and writes an index that lists
    every round with its title, no questions and no example.  Otherwise
    the write of the index file throws, no index is written and the run
    does not reach its end. *)
Theorem no_question_loads (W : World) (S : Schedule) :
  (forall r dir, r ∈ questionsIndex W -> dir ∈ questionRefs r ->
     requireQuestion W dir = None) ->
  allSettled (roundPromises W (pngLast S) (resizeSlot W S)).2 = true /\
  resizeJobs (build_api W S).1 = [] /\
  writtenFiles (build_api W S).1 = [] /\
  (Forall (fun e => match e with Mkdir _ => False | _ => True end) (build_api W S).1) /\
  if indexDirExists W false
  then (build_api W S).2 = Fulfilled tt /\
       indexWrites (build_api W S).1
       = [ {| rounds := imap (fun i r => Some (emptyRound r i)) (questionsIndex W) |} ]
  else (build_api W S).2 = Pending /\
       indexWrites (build_api W S).1 = [] /\
       Throw (ENOENT (apiOutputDir (config W) +:+ "index.json")) ∈ (build_api W S).1.
Proof.
  intros Hnone.
  assert (forall i r, questionsIndex W !! i = Some r -> questionCalls W r i = [])
    as Hcalls.
  { intros i r Hr. apply questionCalls_none. intros dir Hdir.
    apply (Hnone r); [by apply list_elem_of_lookup_2 in Hr | done]. }
  assert (forall e, e ∈ (build_api W S).1 -> ~ variantEvent e) as Hno.
  { intros e He Hv. apply variant_origin in He as (c & (Hr & Hc & _) & _); [| done].
    rewrite (Hcalls _ _ Hr) in Hc. by apply elem_of_nil in Hc. }
  assert ((roundPromises W (pngLast S) (resizeSlot W S)).2
          = imap (fun i r => Fulfilled (emptyRound r (0 + i))) (questionsIndex W)) as Hps.
  { apply list_eq. intros i. rewrite roundPromises_lookup, list_lookup_imap.
    destruct (questionsIndex W !! i) as [r|] eqn:Hr; [| done].
    cbn [fmap option_fmap option_map]. f_equal.
    rewrite processRound_unfold. cbn [snd].
    by rewrite questionPromisesOf_calls, (Hcalls i r Hr). }
  assert (allSettled (roundPromises W (pngLast S) (resizeSlot W S)).2 = true) as Hall.
  { rewrite Hps. apply allSettled_fulfilled. intros p Hp.
    apply list_elem_of_lookup in Hp as [i Hi].
    apply list_lookup_imap_Some in Hi as (r & _ & ->). done. }
  assert (mkdirCalled (roundPromises W (pngLast S) (resizeSlot W S)).1 = false) as Hmk.
  { apply not_true_is_false. intros [c (Hr & Hc & _)]%mkdirCalled_called.
    rewrite (Hcalls _ _ Hr) in Hc. by apply elem_of_nil in Hc. }
  split_and!.
  - done.
  - apply resizeJobs_none. intros j Hj. by apply (Hno _ Hj).
  - apply writtenFiles_none. intros f d Hf. by apply (Hno _ Hf).
  - apply Forall_forall. intros e He. destruct e; try done. by apply (Hno _ He).
  - unfold build_api. rewrite buildApiMaster_unfold. cbn [fst snd].
    unfold indexSaved, ending. rewrite Hall, Hmk. cbn [andb].
    destruct (indexDirExists W false).
    + split; [done |].
      unfold indexWrites. cbn [omap list_omap]. rewrite omap_app.
      fold (indexWrites (roundPromises W (pngLast S) (resizeSlot W S)).1).
      rewrite (inner_no_index _ (roundPromises_inner W _ _)). cbn.
      rewrite Hps, (saveRounds_empty _ 0) by done. done.
    + split_and!; [done | |].
      * unfold indexWrites. cbn [omap list_omap]. rewrite omap_app.
        fold (indexWrites (roundPromises W (pngLast S) (resizeSlot W S)).1).
        by rewrite (inner_no_index _ (roundPromises_inner W _ _)).
      * right. apply elem_of_app. right. by left.
Qed.

(** The tree whose only question has no metadata: the rounds settle, no
    directory is made below the deleted output directory, and the run
    stops at the write of the index file. *)
Lemma no_question_loads_witness :
  allSettled (roundPromises noMetadata (fun _ => false)
                (resizeSlot noMetadata (inOrder noMetadata (fun _ => false)))).2 = true /\
  (build_api noMetadata (inOrder noMetadata (fun _ => false))).2 = Pending /\
  indexWrites (build_api noMetadata (inOrder noMetadata (fun _ => false))).1 = [] /\
  Throw (ENOENT "./dist/api/index.json")
  ∈ (build_api noMetadata (inOrder noMetadata (fun _ => false))).1.
Proof.
  assert (indexDirExists noMetadata false = false) as Hdir by reflexivity.
  destruct (no_question_loads noMetadata (inOrder noMetadata (fun _ => false)))
    as (Hall & _ & _ & _ & Hend).
  - intros r dir Hr Hdir'.
    apply list_elem_of_singleton in Hr as ->.
    apply list_elem_of_singleton in Hdir' as ->. reflexivity.
  - rewrite Hdir in Hend. destruct Hend as (Hp & Hw & Ht).
    split; [exact Hall |]. split; [exact Hp |]. split; [exact Hw | exact Ht].
Defined.

(** The same tree with the index file beside the output directory, in a
    directory that is there: no directory is made, and the run completes
    and writes the round, empty. *)
Lemma index_beside_output :
  mkdirCalled (build_api besideDist (inOrder besideDist (fun _ => false))).1 = false /\
  (build_api besideDist (inOrder besideDist (fun _ => false))).2 = Fulfilled tt /\
  indexWrites (build_api besideDist (inOrder besideDist (fun _ => false))).1
  = [ {| rounds := [Some {| rd_title := "Round 1"; rd_roundId := 0;
                            rd_questionsData := []; rd_exampleData := None |}] |} ].
Proof. by vm_compute. Qed.

(** X9.  The resize tasks that a run submits do not depend on what the
    limiter does with them, so a schedule fits a run exactly when it orders
    the tasks that the run submits when each of them is let in. *)
Theorem schedule_fits_iff (W : World) (pl : string -> bool) (order : list Job) :
  schedule_ok W {| pngLast := pl; resizeOrder := order |} <->
  order ≡ₚ resizeJobs (buildApiMaster W pl (fun _ => true)).1.
Proof.
  unfold schedule_ok, build_api. cbn [pngLast resizeOrder].
  generalize (resizeSlot W {| pngLast := pl; resizeOrder := order |}). intros slot.
  by rewrite (buildApiMaster_jobs W pl slot (fun _ => true)).
Qed.

Lemma round_keepsFolders (W : World) pl slot :
  Forall keepsFolders (roundPromises W pl slot).1.
Proof.
  apply Forall_forall. intros e He. unfold roundPromises, forEach in He.
  apply forEachFrom_inv in He as (i & r & _ & He).
  apply processRound_events in He as [(d & _ & _ & ->)|(c & _ & He)]; [done |].
  apply createQuestionsImages_events in He as [->|[[-> _]|(k & _ & He)]];
    [done | done |].
  apply createImageVariants_events in He
    as [_ [(_ & [->| ->])|(src & pos & size & _ & _ & He)]]; [done | done |].
  apply createImageVariant_events in He as [->|[->|(_ & out & _ & ->)]]; done.
Qed.

(** X10.  A run begins by deleting the output directory, and deletes nothing
    after that: whatever it writes, it writes into a tree that it has
    emptied first. *)
Theorem output_cleared_first (W : World) (S : Schedule) :
  head (build_api W S).1 = Some (DeleteFolder (apiOutputDir (config W))) /\
  Forall keepsFolders (tail (build_api W S).1).
Proof.
  unfold build_api. rewrite buildApiMaster_unfold. cbn [fst head tail].
  split; [done |]. apply Forall_app. split; [apply round_keepsFolders |].
  destruct (ending_cases W (pngLast S) (resizeSlot W S))
    as [(_ & _ & _ & ->)|[(_ & _ & _ & ->)|(_ & _ & ->)]]; repeat constructor.
Qed.

(** ** The tasks, the log and the paths of a role *)

Lemma createImageVariant_job (W : World) slot src outputDir size roundId qid pos :
  resizeJobs (createImageVariant W slot src outputDir size roundId qid pos).1
  = [jobOf W src outputDir size roundId qid pos].
Proof.
  unfold createImageVariant, resizeThread, jobOf, outputFileNameOf. task_unfold.
  destruct (slot _); [destruct (im_resize _ _ _ _) |]; done.
Qed.

Lemma forEachSize_jobs (W : World) slot src outputDir roundId qid (i : nat) sizes :
  resizeJobs (forEachFrom i (forEachSize W slot src outputDir roundId qid) sizes).1
  = imap (fun pos size => jobOf W src outputDir size roundId qid (i + pos)) sizes.
Proof.
  revert i. induction sizes as [|size sizes IH]; intros i; [done |].
  rewrite forEachFrom_cons. cbn [fst]. rewrite app_nil_r, resizeJobs_app.
  rewrite forEachSize_fst, createImageVariant_job, IH. cbn [imap app].
  rewrite Nat.add_0_r. f_equal. apply imap_ext. intros pos sz _.
  cbn [compose]. f_equal. lia.
Qed.

(** X11.  A role whose source image was identified submits one resize task
    per entry of [imgSizes] (listed here in the order of the
    configuration), each for the resolved source file and for the variant's
    own output file, and it does so whatever the limiter decides; a role
    without a source submits none. *)
Theorem role_jobs_per_width (W : World) (pl : string -> bool) (slot : Job -> bool)
    (imgPath distDir imgName_ : string) (roundId : nat) (qid : QuestionId) :
  resizeJobs (createImageVariants W pl slot imgPath distDir imgName_ roundId qid).1
  = match imgFileData W pl imgPath imgName_ with
    | Some src =>
        imap (fun pos size =>
                jobOf W src
                  (distDir +:+ "round-" +:+ JS.str_nat roundId +:+ "/" +:+
                   "question-" +:+ str_questionId qid) size roundId qid pos)
             (imgSizes (config W))
    | None => []
    end.
Proof.
  destruct (imgFileData W pl imgPath imgName_) as [src|] eqn:Hsrc.
  - destruct (imgFileData_some _ _ _ _ _ Hsrc) as [Hi _].
    rewrite (createImageVariants_some W pl slot _ _ _ _ _ src) by done.
    cbn [fst]. unfold forEach. by rewrite forEachSize_jobs.
  - apply resizeJobs_none. intros j Hj.
    apply createImageVariants_events in Hj
      as [_ [(_ & [[=]|[=]])|(src & _ & _ & Hsome & _)]].
    congruence.
Qed.

Lemma role_no_log (W : World) pl slot imgPath distDir imgName_ roundId qid msg :
  Log msg ∉ (createImageVariants W pl slot imgPath distDir imgName_ roundId qid).1.
Proof.
  intros He.
  apply createImageVariants_events in He
    as [_ [(_ & [[=]|[=]])|(src & pos & size & _ & _ & He)]].
  by apply createImageVariant_events in He as [[=]|[[=]|(_ & out & _ & [=])]].
Qed.

(** X12.  The line [Completed: <directory>] is printed for a question
    exactly when its promise is fulfilled, and that is exactly when the
    promise of each of its three roles is; the line
    [Started:   <directory>] is printed in any case, and first. *)
Theorem completed_logged_iff (W : World) (pl : string -> bool) (slot : Job -> bool)
    (questionDir : string) (q : QuestionData) :
  head (createQuestionsImages W pl slot questionDir q).1
  = Some (Log ("Started:   " +:+ questionDir)) /\
  (Log ("Completed: " +:+ questionDir) ∈ (createQuestionsImages W pl slot questionDir q).1
   <-> fulfilled (createQuestionsImages W pl slot questionDir q).2 = true) /\
  (fulfilled (createQuestionsImages W pl slot questionDir q).2 = true
   <-> Forall (fun k => fulfilled (role W pl slot questionDir q k).2 = true) imgKeys).
Proof.
  split; [by rewrite createQuestionsImages_unfold |].
  split; [| rewrite createQuestionsImages_unfold; cbn [snd]; unfold imgKeys;
            rewrite !Forall_cons, Forall_nil;
            destruct (role W pl slot questionDir q "a").2;
            destruct (role W pl slot questionDir q "b").2;
            destruct (role W pl slot questionDir q "mix").2; cbn; intuition congruence].
  split.
  - intros He.
    apply createQuestionsImages_events in He as [[=]|[[_ Hf]|(k & _ & He)]]; [done |].
    by apply role_no_log in He.
  - rewrite createQuestionsImages_unfold. cbn [fst snd]. intros Hf.
    right. rewrite !elem_of_app. do 3 right.
    destruct (role W pl slot questionDir q "a").2; try done.
    destruct (role W pl slot questionDir q "b").2; try done.
    destruct (role W pl slot questionDir q "mix").2; try done.
    by left.
Qed.

Lemma saveSrcs_lookup (vs : list (Z * Outcome string)) (m : gmap Z string)
    (w : Z) (p : string) :
  foldl saveSrc m vs !! w = Some p ->
  m !! w = Some p \/ (w, Fulfilled p) ∈ vs.
Proof.
  revert m. induction vs as [|[w' o] vs IH]; intros m; [by left |].
  cbn [foldl]. intros [H|H]%IH; [| right; by right].
  unfold saveSrc in H. cbn [fst snd] in H. destruct o as [|p'|e]; [by left | | by left].
  destruct (decide (w' = w)) as [->|Hne].
  - rewrite lookup_insert_eq in H. injection H as ->. right. by left.
  - rewrite lookup_insert_ne in H by done. by left.
Qed.

(** X13.  The paths listed for a role.  When the output directory is not empty
    and does not come back in a variant's path below it, the entry of
    [srcs] for a width is the API prefix followed by that path:
    [<imageOutputSubDir>round-<i>/question-<id>/<role>/r<i>q<id>.<role>.<w>.<format>]. *)
Theorem srcs_api_paths (W : World) (pl : string -> bool) (slot : Job -> bool)
    (questionDir : string) (q : QuestionData) (k : string)
    (d : ImgVariantsData) (w : Z) (p : string) :
  (role W pl slot questionDir q k).2 = Fulfilled d ->
  srcs d !! w = Some p ->
  apiOutputDir (config W) <> "" ->
  JS.includes (apiOutputDir (config W))
    (variantPath W (rr_roundId (qd_roundData q)) (qd_questionId q) k w) = false ->
  p = apiPathPrefix (config W)
      +:+ variantPath W (rr_roundId (qd_roundData q)) (qd_questionId q) k w.
Proof.
  unfold role. intros Hd Hp Hne Habs.
  destruct (createImageVariants_cases W pl slot (imgPathOf questionDir k)
              (apiOutputDir (config W) +:+ imageOutputSubDir (config W)) k
              (rr_roundId (qd_roundData q)) (qd_questionId q))
    as [(_ & Hpend & _)|(src & Hi & Hsrc)]; [congruence |].
  destruct (imgFileData_some _ _ _ _ _ Hsrc) as (_ & Hname & _).
  rewrite (createImageVariants_some W pl slot _ _ _ _ _ src) in Hd by done.
  cbn [snd] in Hd.
  fold (outputDirOf W (rr_roundId (qd_roundData q)) (qd_questionId q)) in Hd.
  match type of Hd with
  | context [if ?b then _ else _] => destruct b
  end; [| done].
  injection Hd as <-. cbn [srcs] in Hp.
  apply saveSrcs_lookup in Hp as [Hp|Hp]; [by rewrite lookup_empty in Hp |].
  apply list_elem_of_lookup in Hp as [pos Hpos].
  unfold forEach in Hpos. rewrite forEachFrom_lookup in Hpos.
  destruct (imgSizes (config W) !! pos) as [sz|]; [| done].
  cbn [fmap option_fmap option_map] in Hpos. rewrite forEachSize_snd in Hpos.
  assert (sz = w) as -> by congruence.
  assert ((createImageVariant W slot src
             (outputDirOf W (rr_roundId (qd_roundData q)) (qd_questionId q)) w
             (rr_roundId (qd_roundData q)) (qd_questionId q) (0 + pos)).2
          = Fulfilled p) as Hv by congruence.
  rewrite createImageVariant_outcome in Hv.
  destruct (slot _); [| done].
  destruct (im_resize _ _ _ _); [done |].
  injection Hv as <-.
  rewrite outputFileNameOf_path, Hname. by apply apiFilePath_after.
Qed.

(** The sample tree under the default configuration: the variant of width
    320 of [q0]'s first image. *)
Lemma srcs_api_paths_witness :
  exists d,
    (role oneResizeFails (fun _ => false) (fun _ => true) "q0"
       (questionOf {| rr_roundId := 0; rr_title := "Round 1" |} false 0 []) "a").2
    = Fulfilled d /\
    srcs d !! 320%Z = Some "/imgs/round-0/question-0/a/r0q0.a.320.jpg".
Proof.
  assert (exists d p,
    (role oneResizeFails (fun _ => false) (fun _ => true) "q0"
       (questionOf {| rr_roundId := 0; rr_title := "Round 1" |} false 0 []) "a").2
    = Fulfilled d /\ srcs d !! 320%Z = Some p) as (d & p & Hd & Hp).
  { vm_compute. do 2 eexists. split; reflexivity. }
  exists d. split; [exact Hd |].
  rewrite Hp. f_equal.
  apply (srcs_api_paths oneResizeFails (fun _ => false) (fun _ => true) "q0"
           (questionOf {| rr_roundId := 0; rr_title := "Round 1" |} false 0 []) "a"
           d 320%Z p Hd Hp).
  - discriminate.
  - vm_compute. reflexivity.
Defined.

(** ** Order of the writes, API paths, coverage of the sources *)










Lemma split_go_head (sep s : string) :
  exists p ps, JS.split_go sep 0 s = p :: ps /\ String.prefix p s = true.
Proof.
  induction s as [|c s (p & ps & IH & Hp)].
  - by exists "", [].
  - cbn [JS.split_go]. destruct (String.prefix sep (String c s)).
    + by eexists "", _.
    + rewrite IH. exists (String c p), ps. split; [done |]. cbn.
      by destruct (ascii_dec c c).
Qed.

(** X15.  The path that a variant's promise is resolved with.  With a
    non-empty output directory, it is always the API prefix followed by an
    initial part of the variant's path below the output directory: the
    branch that hands the file name over unchanged is never taken. *)
Theorem api_path_has_prefix (W : World) (slot : Job -> bool) (src : SrcImg)
    (roundId : nat) (qid : QuestionId) (size : Z) (pos : nat) (p : string) :
  apiOutputDir (config W) <> "" ->
  (createImageVariant W slot src (outputDirOf W roundId qid) size roundId qid pos).2
  = Fulfilled p ->
  exists piece,
    p = apiPathPrefix (config W) +:+ piece /\
    String.prefix piece (variantPath W roundId qid (imgName src) size) = true.
Proof.
  intros Hne. rewrite createImageVariant_outcome.
  destruct (slot _); [| done]. destruct (im_resize _ _ _ _); [done |].
  intros [= <-]. rewrite outputFileNameOf_path.
  set (rest := variantPath W roundId qid (imgName src) size).
  destruct (split_go_head (apiOutputDir (config W)) rest) as (piece & ps & Hsplit & Hp).
  exists piece. split; [| done].
  unfold apiFilePath, JS.split.
  destruct (apiOutputDir (config W)) as [|c sep]; [done |].
  change (String c sep +:+ rest) with (String c (sep +:+ rest)).
  cbn [JS.split_go].
  change (String c (sep +:+ rest)) with (String c sep +:+ rest).
  rewrite prefix_append.
  replace (String.length (String c sep) - 1) with (String.length sep) by (simpl; lia).
  by rewrite split_go_skip, Hsplit.
Qed.

(** The tree written to [a/]: the API path is the prefix followed by the
    part of the path before the next [a/]. *)
Lemma api_path_has_prefix_witness :
  exists piece,
    "/imgs/round-0/question-0/" = apiPathPrefix outputInA +:+ piece /\
    String.prefix piece "imgs/round-0/question-0/a/r0q0.a.320.jpg" = true.
Proof.
  apply (api_path_has_prefix treeInA (fun _ => true)
           (sourceOf "./src/questions/q0/a" "a" "jpg"
              {| height := Some 100%Z; width := Some 200%Z |})
           0 (QNum 0) 320%Z 0 "/imgs/round-0/question-0/").
  - discriminate.
  - vm_compute. reflexivity.
Defined.

(** X16.  Every source image that was identified gets its resize tasks,
    whatever happens to the other images, questions and rounds: for each
    round of the index, each question of it whose metadata loads, each role
    whose source was identified and each configured width, the run submits
    the task that resizes that source to that width. *)
Theorem every_source_resized (W : World) (S : Schedule) (i : nat) (r : RoundSpec)
    (dir : string) (fields : Fields) (k : string) (src : SrcImg)
    (pos : nat) (size : Z) :
  questionsIndex W !! i = Some r ->
  dir ∈ questionRefs r -> requireQuestion W dir = Some fields ->
  k ∈ imgKeys ->
  imgFileData W (pngLast S) (imgPathOf dir k) k = Some src ->
  imgSizes (config W) !! pos = Some size ->
  exists j,
    NewThreadResize j ∈ (build_api W S).1 /\
    job_src j = path src /\ job_size j = size /\ job_pos j = pos.
Proof.
  intros Hr Hdir Hreq Hk Hsrc Hpos.
  destruct (questionCalls_loaded W r i dir fields Hdir Hreq) as [q Hc].
  set (c := {| vc_round := i; vc_spec := r; vc_dir := dir; vc_question := q;
               vc_role := k; vc_src := src; vc_pos := pos; vc_size := size |}).
  exists (jobOf W src (outputDirOf W i (qd_questionId q)) size i (qd_questionId q) pos).
  split; [| done].
  apply (called_sub _ _ _ c); [done |]. unfold variantOf.
  apply createImageVariant_events. right. by left.
Qed.

(** The sample tree in which the combined image of [q0] is missing: the
    first image of [q0] still gets its resize to 640. *)
Lemma every_source_resized_witness :
  exists j,
    NewThreadResize j
      ∈ (build_api mixMissing (inOrder mixMissing (fun _ => false))).1 /\
    job_src j = "./src/questions/q0/a.jpg" /\ job_size j = 640%Z /\ job_pos j = 1.
Proof.
  apply (every_source_resized mixMissing (inOrder mixMissing (fun _ => false)) 0
           {| rs_title := "Round 1"; rs_questions := ["q0"; "bad"; "q1"];
              rs_example := Some "ex" |}
           "q0" [("answer", JStr "q0")] "a"
           (sourceOf "./src/questions/q0/a" "a" "jpg"
              {| height := Some 100%Z; width := Some 200%Z |}) 1 640%Z).
  - reflexivity.
  - left.
  - reflexivity.
  - left.
  - vm_compute. reflexivity.
  - reflexivity.
Defined.

(** ** File names *)

Lemma append_inv_l (a x y : string) : a +:+ x = a +:+ y -> x = y.
Proof.
  induction a as [|c a IH]; [done |].
  change (String c (a +:+ x) = String c (a +:+ y) -> x = y).
  intros [= H]. by apply IH.
Qed.

Lemma append_sep_inj (c : ascii) (a b x y : string) :
  occurs c a = false -> occurs c b = false ->
  a +:+ String c x = b +:+ String c y -> a = b /\ x = y.
Proof.
  revert b. induction a as [|c1 a IH]; intros [|c2 b] Ha Hb H.
  - by injection H as ->.
  - change (String c x = String c2 (b +:+ String c y)) in H.
    injection H as <- _. cbn in Hb. by rewrite Ascii.eqb_refl in Hb.
  - change (String c1 (a +:+ String c x) = String c y) in H.
    injection H as -> _. cbn in Ha. by rewrite Ascii.eqb_refl in Ha.
  - change (String c1 (a +:+ String c x) = String c2 (b +:+ String c y)) in H.
    injection H as -> H. cbn in Ha, Hb.
    apply orb_false_elim in Ha as [_ Ha]. apply orb_false_elim in Hb as [_ Hb].
    destruct (IH b Ha Hb H) as [-> ->]. done.
Qed.

Lemma uint_digits (c : ascii) (d : Decimal.uint) :
  (c =? "/")%char || (c =? ".")%char || (c =? "e")%char = true ->
  occurs c (NilEmpty.string_of_uint d) = false.
Proof.
  intros Hc. induction d; cbn [NilEmpty.string_of_uint occurs]; [done | ..];
    rewrite IHd, orb_false_r;
    repeat (apply orb_prop in Hc as [Hc|Hc]);
    apply Ascii.eqb_eq in Hc; by subst c.
Qed.

Lemma str_nat_digits (c : ascii) (n : nat) :
  (c =? "/")%char || (c =? ".")%char || (c =? "e")%char = true ->
  occurs c (JS.str_nat n) = false.
Proof.
  intros Hc. unfold JS.str_nat, NilZero.string_of_uint.
  destruct (Nat.to_uint n) eqn:E; try (rewrite <- E; by apply uint_digits);
    try (by apply uint_digits).
  repeat (apply orb_prop in Hc as [Hc|Hc]); apply Ascii.eqb_eq in Hc; by subst c.
Qed.

Lemma str_Z_digits (z : Z) : occurs "." (JS.str_Z z) = false.
Proof.
  unfold JS.str_Z, NilZero.string_of_int, NilZero.string_of_uint.
  destruct (Z.to_int z) as [d|d]; destruct d; cbn [occurs Ascii.eqb orb];
    try done; by apply (uint_digits "." _).
Qed.

Lemma to_uint_nonnil (n : nat) : Nat.to_uint n <> Decimal.Nil.
Proof.
  intros H. pose proof (DecimalNat.Unsigned.of_to n) as Hn.
  rewrite H in Hn. cbn in Hn. subst n. discriminate.
Qed.

Lemma str_nat_inj (n n' : nat) : JS.str_nat n = JS.str_nat n' -> n = n'.
Proof.
  unfold JS.str_nat. intros H. apply DecimalNat.Unsigned.to_uint_inj.
  pose proof (NilZero.usu _ (to_uint_nonnil n)) as Hn.
  pose proof (NilZero.usu _ (to_uint_nonnil n')) as Hn'.
  rewrite H in Hn. congruence.
Qed.

Lemma to_int_nonnil (z : Z) :
  Z.to_int z <> Decimal.Pos Decimal.Nil /\ Z.to_int z <> Decimal.Neg Decimal.Nil.
Proof.
  destruct z as [|p|p]; cbn; (split; [| try done]); try done;
    intros [= H]; by apply DecimalPos.Unsigned.to_uint_nonnil in H.
Qed.

Lemma str_Z_inj (z z' : Z) : JS.str_Z z = JS.str_Z z' -> z = z'.
Proof.
  unfold JS.str_Z. intros H. apply DecimalZ.to_int_inj.
  destruct (to_int_nonnil z) as [Hp Hn]. destruct (to_int_nonnil z') as [Hp' Hn'].
  pose proof (NilZero.isi _ Hp Hn) as Hz.
  pose proof (NilZero.isi _ Hp' Hn') as Hz'.
  rewrite H in Hz. congruence.
Qed.

Lemma handedOut_no_slash (qid : QuestionId) :
  handedOut qid -> occurs "/" (str_questionId qid) = false.
Proof. intros [->|[n ->]]; [done |]. by apply str_nat_digits. Qed.

Lemma handedOut_inj (qid qid' : QuestionId) :
  handedOut qid -> handedOut qid' ->
  str_questionId qid = str_questionId qid' -> qid = qid'.
Proof.
  intros [->|[n ->]] [->|[n' ->]]; cbn [str_questionId]; intros H.
  - done.
  - pose proof (str_nat_digits "e" n' eq_refl) as Hn. by rewrite <- H in Hn.
  - pose proof (str_nat_digits "e" n eq_refl) as Hn. by rewrite H in Hn.
  - by rewrite (str_nat_inj _ _ H).
Qed.

Lemma imgKeys_no_slash (k : string) : k ∈ imgKeys -> occurs "/" k = false.
Proof.
  unfold imgKeys. intros Hk.
  repeat (apply elem_of_cons in Hk as [->|Hk]); [done .. | by apply elem_of_nil in Hk].
Qed.

Lemma variantPath_inj (W : World) i i' qid qid' k k' w w' :
  handedOut qid -> handedOut qid' -> k ∈ imgKeys -> k' ∈ imgKeys ->
  variantPath W i qid k w = variantPath W i' qid' k' w' ->
  i = i' /\ qid = qid' /\ k = k' /\ w = w'.
Proof.
  intros Hq Hq' Hk Hk'. unfold variantPath. intros H.
  apply append_inv_l in H. apply (append_inv_l "round-") in H.
  apply (append_sep_inj "/") in H as [Hi H]; [| by apply str_nat_digits ..].
  apply str_nat_inj in Hi as <-.
  apply (append_inv_l "question-") in H.
  apply (append_sep_inj "/") in H as [Hid H]; [| by apply handedOut_no_slash ..].
  apply handedOut_inj in Hid as <-; [| done ..].
  apply (append_sep_inj "/") in H as [<- H]; [| by apply imgKeys_no_slash ..].
  apply (append_inv_l "r"), append_inv_l, (append_inv_l "q"), append_inv_l,
        (append_inv_l "."), append_inv_l, (append_inv_l ".") in H.
  apply (append_sep_inj ".") in H as [Hw _]; [| apply str_Z_digits ..].
  by apply str_Z_inj in Hw as <-.
Qed.

(** X17.  No two variants share an output file.  The file name that
    [createImageVariant] builds tells the round, the question, the role and
    the width apart: two calls made for questions of a run and for roles of
    [a], [b], [mix] build the same name only when all four agree. *)
Theorem variant_files_distinct (W : World) (src src' : SrcImg) (i i' : nat)
    (qid qid' : QuestionId) (w w' : Z) :
  handedOut qid -> handedOut qid' ->
  imgName src ∈ imgKeys -> imgName src' ∈ imgKeys ->
  outputFileNameOf W src (outputDirOf W i qid) w i qid
  = outputFileNameOf W src' (outputDirOf W i' qid') w' i' qid' ->
  i = i' /\ qid = qid' /\ imgName src = imgName src' /\ w = w'.
Proof.
  intros Hq Hq' Hk Hk'. rewrite !outputFileNameOf_path. intros H.
  apply append_inv_l in H. by apply variantPath_inj in H.
Qed.

(** The jpg and the png source of a role build the same output name. *)
Lemma variant_files_distinct_witness :
  outputFileNameOf oneResizeFails
    (sourceOf "./src/questions/q0/a" "a" "jpg"
       {| height := Some 100%Z; width := Some 200%Z |})
    (outputDirOf oneResizeFails 0 (QNum 0)) 320 0 (QNum 0)
  = "./dist/api/imgs/round-0/question-0/a/r0q0.a.320.jpg" /\
  (0 = 0 /\ QNum 0 = QNum 0 /\ "a" = "a" /\ 320%Z = 320%Z).
Proof.
  split; [reflexivity |].
  apply (variant_files_distinct oneResizeFails
           (sourceOf "./src/questions/q0/a" "a" "jpg"
              {| height := Some 100%Z; width := Some 200%Z |})
           (sourceOf "./src/questions/q0/a" "a" "png"
              {| height := Some 10%Z; width := Some 20%Z |})
           0 0 (QNum 0) (QNum 0) 320 320).
  - right. by exists 0.
  - right. by exists 0.
  - left.
  - left.
  - reflexivity.
Defined.

(** ** Errors *)

Lemma imgFileData_none (W : World) pl imgPath imgName_ :
  identifySlot W = true -> imgFileData W pl imgPath imgName_ = None ->
  found W imgPath = false.
Proof.
  intros Hi Hnone. destruct (found W imgPath) eqn:Hf; [| done].
  destruct (imgFileData_found W pl imgPath imgName_ Hi Hf) as [src Hsrc]. congruence.
Qed.

Lemma require_failed_logged (W : World) pl slot r i dir :
  dir ∈ questionRefs r -> requireQuestion W dir = None ->
  LogError (RequireFailed dir) ∈ (processRound W pl slot r i).1.
Proof.
  intros Hq Hreq. rewrite processRound_unfold. cbn [fst]. apply elem_of_app.
  unfold questionRefs in Hq. apply elem_of_app in Hq as [Hq|Hq].
  - left. by apply unloadable_logged.
  - right. unfold exampleTask.
    destruct (rs_example r) as [d|]; [| by apply elem_of_nil in Hq].
    destruct (JS.truthy d); [| by apply elem_of_nil in Hq].
    apply list_elem_of_singleton in Hq as <-.
    rewrite forEachQuestion_none by done. left.
Qed.

Lemma round_error_origin (W : World) pl slot i r e err :
  questionsIndex W !! i = Some r ->
  e ∈ (processRound W pl slot r i).1 -> reportedError e = Some err ->
  (exists r dir, r ∈ questionsIndex W /\ dir ∈ questionRefs r /\
     requireQuestion W dir = None /\ e = LogError (RequireFailed dir)) \/
  (exists p, missingSource W p /\
     (e = LogError (NotFound p) \/ e = Throw (NotFound p))).
Proof.
  intros Hr H Herr.
  apply list_elem_of_lookup_2 in Hr.
  apply processRound_events in H as [(d & Hd & Hnone & ->)|([dir q] & Hc & H)].
  { left. by exists r, d. }
  cbn [fst snd] in H.
  apply createQuestionsImages_events in H as [->|[[-> _]|(k & Hk & H)]]; try done.
  destruct (questionCalls_spec _ _ _ _ _ Hc) as (Hdir & Hreq & _).
  apply createImageVariants_events in H
    as [Hi [(Hnone & He)|(src & pos & size & _ & _ & H)]].
  - right. exists (imgPathOf dir k). split; [| done]. split_and!.
    + by apply bool_decide_eq_true in Hi.
    + by apply (imgFileData_none _ _ _ _ Hi Hnone).
    + exists r, dir, k. split_and!; [done | done | by rewrite Hreq | done | done].
  - apply createImageVariant_events in H as [->|[->|(_ & out & _ & ->)]]; done.
Qed.

Lemma error_origin (W : World) pl slot e err :
  e ∈ (buildApiMaster W pl slot).1 -> reportedError e = Some err ->
  (exists r dir, r ∈ questionsIndex W /\ dir ∈ questionRefs r /\
     requireQuestion W dir = None /\ e = LogError (RequireFailed dir)) \/
  (exists p, missingSource W p /\
     (e = LogError (NotFound p) \/ e = Throw (NotFound p))) \/
  e = Throw (ENOENT (apiOutputDir (config W) +:+ "index.json")).
Proof.
  intros [->|[(_ & [->|[->| ->]])|(i & r & Hr & H)]]%buildApiMaster_events Herr;
    try done.
  - by right; right.
  - destruct (round_error_origin _ _ _ _ _ _ _ Hr H Herr) as [?|?]; tauto.
Qed.

(** The write of the index file throws exactly when the rounds have
    settled and there is no directory for the file. *)
Lemma enoent_thrown (W : World) pl slot file :
  Throw (ENOENT file) ∈ (buildApiMaster W pl slot).1 <->
  file = apiOutputDir (config W) +:+ "index.json" /\
  allSettled (roundPromises W pl slot).2 = true /\
  indexDirExists W (mkdirCalled (roundPromises W pl slot).1) = false.
Proof.
  rewrite buildApiMaster_unfold. cbn [fst]. rewrite elem_of_cons, elem_of_app. split.
  - intros [[=]|[H|H]].
    + unfold roundPromises, forEach in H.
      apply forEachFrom_inv in H as (k & r & Hk & He).
      destruct (round_error_origin _ _ _ _ _ _ (ENOENT file) Hk He eq_refl)
        as [(? & ? & _ & _ & _ & [=])|(? & _ & [[=]|[=]])].
    + destruct (ending_cases W pl slot)
        as [(_ & _ & _ & Hend)|[(_ & Hall & Hdir & Hend)|(_ & _ & Hend)]];
        rewrite Hend in H.
      * rewrite !elem_of_cons, elem_of_nil in H. by destruct H as [[=]|[[=]|[]]].
      * apply list_elem_of_singleton in H. by injection H as ->.
      * by apply elem_of_nil in H.
  - intros (-> & Hall & Hdir). right. right. unfold ending.
    rewrite Hall, Hdir. left.
Qed.

(** The directories of a run are made by its rounds. *)
Lemma mkdirCalled_build (W : World) pl slot :
  mkdirCalled (buildApiMaster W pl slot).1 = mkdirCalled (roundPromises W pl slot).1.
Proof.
  rewrite buildApiMaster_unfold. cbn [fst]. unfold mkdirCalled.
  cbn [existsb orb]. rewrite existsb_app.
  destruct (ending_cases W pl slot)
    as [(_ & _ & _ & ->)|[(_ & _ & _ & ->)|(_ & _ & ->)]];
    cbn [existsb orb]; by rewrite orb_false_r.
Qed.

Lemma missingSource_reported (W : World) pl slot p :
  missingSource W p ->
  LogError (NotFound p) ∈ (buildApiMaster W pl slot).1 /\
  Throw (NotFound p) ∈ (buildApiMaster W pl slot).1.
Proof.
  intros (Hcap & Hf & r & dir & k & Hr & Hdir & [f Hreq] & Hk & ->).
  apply list_elem_of_lookup in Hr as [i Hr].
  destruct (questionCalls_loaded W r i dir f Hdir Hreq) as [q Hc].
  assert (forall e, e ∈ [LogError (NotFound (imgPathOf dir k));
                         Throw (NotFound (imgPathOf dir k))] ->
                    e ∈ (buildApiMaster W pl slot).1) as Hsub.
  { intros e He. apply (round_sub_build _ _ _ _ _ _ Hr).
    apply (questionCalls_sub _ _ _ _ _ _ _ Hc). cbn [fst snd].
    apply (role_sub_question _ _ _ _ _ _ _ Hk). unfold role.
    rewrite createImageVariants_missing by done. cbn [fst].
    unfold identifySlot. by rewrite bool_decide_eq_true_2. }
  split; apply Hsub; [by left | right; by left].
Qed.

(** X18.  The errors of a run, exactly.  The failure to load a question's
    metadata is logged for the references of the index whose metadata does
    not load, and for nothing else; a missing source image is logged and
    thrown for the roles, of questions that load, of which no accepted
    format is identified, and for nothing else; the write of the index
    file throws, for the index file, when the rounds have settled and no
    directory holds the file, and never otherwise; and no other error is
    ever logged or thrown: a failed resize leaves no line in the log, and
    a failure to load metadata is logged but never thrown. *)
Theorem errors_reported_exactly (W : World) (S : Schedule) :
  (forall dir,
     LogError (RequireFailed dir) ∈ (build_api W S).1 <->
     exists r, r ∈ questionsIndex W /\ dir ∈ questionRefs r /\
       requireQuestion W dir = None) /\
  (forall p, LogError (NotFound p) ∈ (build_api W S).1 <-> missingSource W p) /\
  (forall p, Throw (NotFound p) ∈ (build_api W S).1 <-> missingSource W p) /\
  (forall file,
     Throw (ENOENT file) ∈ (build_api W S).1 <->
     file = apiOutputDir (config W) +:+ "index.json" /\
     allSettled (roundPromises W (pngLast S) (resizeSlot W S)).2 = true /\
     indexDirExists W (mkdirCalled (build_api W S).1) = false) /\
  Forall (fun e => match e with
                   | LogError (RequireFailed _) | LogError (NotFound _)
                   | Throw (NotFound _) | Throw (ENOENT _) => True
                   | LogError _ | Throw _ => False
                   | _ => True
                   end) (build_api W S).1.
Proof.
  unfold build_api. split_and!.
  - intros dir. split.
    + intros He. apply error_origin with (err := RequireFailed dir) in He; [| done].
      destruct He as [(r & d & Hr & Hd & Hnone & [= ->])|[(p & _ & [[=]|[=]])|[=]]].
      by exists r.
    + intros (r & Hr & Hdir & Hnone). apply list_elem_of_lookup in Hr as [i Hr].
      apply (round_sub_build _ _ _ _ _ _ Hr). by apply require_failed_logged.
  - intros p. split.
    + intros He. apply error_origin with (err := NotFound p) in He; [| done].
      by destruct He
        as [(r & d & _ & _ & _ & [=])|[(p' & Hp & [[= ->]|[=]])|[=]]].
    + intros Hp. by apply missingSource_reported.
  - intros p. split.
    + intros He. apply error_origin with (err := NotFound p) in He; [| done].
      by destruct He
        as [(r & d & _ & _ & _ & [=])|[(p' & Hp & [[=]|[= ->]])|[=]]].
    + intros Hp. by apply missingSource_reported.
  - intros file. rewrite mkdirCalled_build. apply enoent_thrown.
  - apply Forall_forall. intros e He.
    destruct (reportedError e) as [err|] eqn:Herr; [| by destruct e].
    apply error_origin with (err := err) in He; [| done].
    by destruct He as [(r & d & _ & _ & _ & ->)|[(p & _ & [->| ->])| ->]].
Qed.

(** ** The order of the identification callbacks; aspect ratios *)

Lemma forEachFrom_ext {A B} (f g : A -> nat -> Task B) (i : nat) (l : list A) :
  (forall x k, x ∈ l -> f x k = g x k) -> forEachFrom i f l = forEachFrom i g l.
Proof.
  revert i. induction l as [|x l IH]; intros i Hfg; [done |].
  rewrite !forEachFrom_cons, Hfg, IH; [done | | by left].
  intros y k Hy. apply Hfg. by right.
Qed.

Lemma foldTask_ext {A S} (f g : S -> A -> Task S) (st : S) (l : list A) :
  (forall st x, x ∈ l -> f st x = g st x) -> foldTask f st l = foldTask g st l.
Proof.
  revert st. induction l as [|x l IH]; intros st Hfg; [done |].
  rewrite !foldTask_cons, Hfg, !IH; [done | | by left].
  intros st' y Hy. apply Hfg. by right.
Qed.

Lemma imgFileData_oneFormat (W : World) pl1 pl2 imgPath imgName_ :
  im_identify W (imgPath +:+ "." +:+ "png") = None \/
  im_identify W (imgPath +:+ "." +:+ "jpg") = None ->
  imgFileData W pl1 imgPath imgName_ = imgFileData W pl2 imgPath imgName_.
Proof.
  intros Hone. unfold imgFileData, probe.
  destruct (identifySlot W); [| by destruct (pl1 imgPath), (pl2 imgPath)].
  destruct Hone as [-> | ->];
    destruct (im_identify W _); by destruct (pl1 imgPath), (pl2 imgPath).
Qed.

Lemma createImageVariants_oneFormat (W : World) pl1 pl2 slot imgPath distDir imgName_
    roundId qid :
  im_identify W (imgPath +:+ "." +:+ "png") = None \/
  im_identify W (imgPath +:+ "." +:+ "jpg") = None ->
  createImageVariants W pl1 slot imgPath distDir imgName_ roundId qid
  = createImageVariants W pl2 slot imgPath distDir imgName_ roundId qid.
Proof.
  intros Hone. unfold createImageVariants.
  by rewrite (imgFileData_oneFormat W pl1 pl2).
Qed.

Lemma createQuestionsImages_oneFormat (W : World) pl1 pl2 slot questionDir q :
  (forall k, k ∈ imgKeys ->
     im_identify W (imgPathOf questionDir k +:+ "." +:+ "png") = None \/
     im_identify W (imgPathOf questionDir k +:+ "." +:+ "jpg") = None) ->
  createQuestionsImages W pl1 slot questionDir q
  = createQuestionsImages W pl2 slot questionDir q.
Proof.
  intros Hone. rewrite !createQuestionsImages_unfold. unfold role.
  rewrite !(createImageVariants_oneFormat W pl1 pl2); [done | apply Hone ..].
  - right. right. by left.
  - right. by left.
  - by left.
Qed.

Lemma forEachQuestion_oneFormat (W : World) pl1 pl2 slot ref isExample st questionDir :
  (forall k, k ∈ imgKeys ->
     im_identify W (imgPathOf questionDir k +:+ "." +:+ "png") = None \/
     im_identify W (imgPathOf questionDir k +:+ "." +:+ "jpg") = None) ->
  forEachQuestion W pl1 slot ref isExample st questionDir
  = forEachQuestion W pl2 slot ref isExample st questionDir.
Proof.
  intros Hone. destruct (requireQuestion W questionDir) as [fields|] eqn:Hreq.
  - rewrite !(forEachQuestion_some _ _ _ _ _ _ _ fields) by done.
    by rewrite (createQuestionsImages_oneFormat W pl1 pl2).
  - by rewrite !forEachQuestion_none.
Qed.

Lemma processRound_oneFormat (W : World) pl1 pl2 slot r i :
  (forall dir k, dir ∈ questionRefs r -> k ∈ imgKeys ->
     im_identify W (imgPathOf dir k +:+ "." +:+ "png") = None \/
     im_identify W (imgPathOf dir k +:+ "." +:+ "jpg") = None) ->
  processRound W pl1 slot r i = processRound W pl2 slot r i.
Proof.
  intros Hone. unfold processRound.
  rewrite (foldTask_ext
             (forEachQuestion W pl1 slot {| rr_roundId := i; rr_title := rs_title r |}
                false)
             (forEachQuestion W pl2 slot {| rr_roundId := i; rr_title := rs_title r |}
                false)).
  2: { intros st dir Hdir. apply forEachQuestion_oneFormat. intros k Hk.
       apply Hone; [| done]. unfold questionRefs. apply elem_of_app. by left. }
  task_unfold. cbv beta zeta. unfold questionRefs in Hone.
  destruct (rs_example r) as [dir|]; [| done].
  destruct (JS.truthy dir); [| done].
  rewrite (forEachQuestion_oneFormat W pl1 pl2); [done |].
  intros k Hk. apply Hone; [| done]. apply elem_of_app. right. by left.
Qed.

(** X19.  When no image of the tree exists in both accepted formats, the run
    does not depend on the order in which the identification callbacks come
    back: what it does and the state it ends in are the same for any two
    such orders. *)
Theorem single_format_deterministic (W : World) (pl1 pl2 : string -> bool)
    (slot : Job -> bool) :
  oneFormat W -> buildApiMaster W pl1 slot = buildApiMaster W pl2 slot.
Proof.
  intros Hone. unfold buildApiMaster, roundPromises, forEach.
  rewrite (forEachFrom_ext (processRound W pl1 slot) (processRound W pl2 slot));
    [done |].
  intros r i Hr. apply processRound_oneFormat. intros dir k. by apply Hone.
Qed.

(** The sample tree holds jpg images only. *)
Lemma single_format_deterministic_witness :
  buildApiMaster oneResizeFails (fun _ => true) (fun _ => true)
  = buildApiMaster oneResizeFails (fun _ => false) (fun _ => true).
Proof.
  apply single_format_deterministic.
  intros r dir k Hr Hdir Hk. left.
  apply list_elem_of_singleton in Hr as ->.
  unfold imgKeys in Hk.
  repeat (apply elem_of_cons in Hdir as [->|Hdir]);
    [.. | by apply elem_of_nil in Hdir];
    (repeat (apply elem_of_cons in Hk as [->|Hk]);
       [.. | by apply elem_of_nil in Hk]); reflexivity.
Defined.

(** X20.  The aspect ratio of a role in the output is the quotient of the
    height by the width that the identification reported for the resolved
    source when both are known and neither is zero, and [null] in every
    other case: the task never divides by a width of zero or by a width it
    does not know. *)
Theorem aspect_ratio_guarded (W : World) (pl : string -> bool) (slot : Job -> bool)
    (questionDir : string) (q : QuestionData) (k : string) (d : ImgVariantsData) :
  (role W pl slot questionDir q k).2 = Fulfilled d ->
  exists src,
    imgFileData W pl (imgPathOf questionDir k) k = Some src /\
    im_identify W (path src) = Some (metadata src) /\
    match aspectRatio d with
    | Some (Quot h w) =>
        height (metadata src) = Some h /\ width (metadata src) = Some w /\
        h <> 0%Z /\ w <> 0%Z
    | None =>
        height (metadata src) = None \/ height (metadata src) = Some 0%Z \/
        width (metadata src) = None \/ width (metadata src) = Some 0%Z
    end.
Proof.
  unfold role. intros Hd.
  apply role_srcs in Hd as (src & Hsrc & -> & _).
  exists src. split; [done |].
  destruct (imgFileData_some _ _ _ _ _ Hsrc) as (_ & _ & _ & Hmd).
  split; [done |]. unfold aspectRatioOf, JS.truthy_num.
  destruct (height (metadata src)) as [h|], (width (metadata src)) as [w|];
    cbn; try tauto.
  - destruct (Z.eqb_spec h 0) as [->|Hh]; cbn; [tauto |].
    destruct (Z.eqb_spec w 0) as [->|Hw]; cbn; [tauto | done].
  - destruct (Z.eqb_spec h 0) as [->|Hh]; cbn; tauto.
Qed.

(** The sample tree: the first image of [q0] is 200 wide and 100 high. *)
Lemma aspect_ratio_guarded_witness :
  exists d,
    (role oneResizeFails (fun _ => false) (fun _ => true) "q0"
       (questionOf {| rr_roundId := 0; rr_title := "Round 1" |} false 0 []) "a").2
    = Fulfilled d /\
    exists src,
      imgFileData oneResizeFails (fun _ => false) (imgPathOf "q0" "a") "a" = Some src /\
      im_identify oneResizeFails (path src) = Some (metadata src) /\
      match aspectRatio d with
      | Some (Quot h w) =>
          height (metadata src) = Some h /\ width (metadata src) = Some w /\
          h <> 0%Z /\ w <> 0%Z
      | None =>
          height (metadata src) = None \/ height (metadata src) = Some 0%Z \/
          width (metadata src) = None \/ width (metadata src) = Some 0%Z
      end.
Proof.
  assert (exists d,
    (role oneResizeFails (fun _ => false) (fun _ => true) "q0"
       (questionOf {| rr_roundId := 0; rr_title := "Round 1" |} false 0 []) "a").2
    = Fulfilled d) as (d & Hd).
  { vm_compute. eexists. reflexivity. }
  exists d. split; [exact Hd |].
  exact (aspect_ratio_guarded oneResizeFails (fun _ => false) (fun _ => true) "q0"
           (questionOf {| rr_roundId := 0; rr_title := "Round 1" |} false 0 []) "a"
           d Hd).
Defined.

(** ** The index and the files *)

Lemma index_question_call (W : World) pl slot data i rd q :
  data ∈ indexWrites (buildApiMaster W pl slot).1 ->
  rounds data !! i = Some (Some rd) ->
  Some q ∈ rd_questionsData rd \/ rd_exampleData rd = Some q ->
  exists r c,
    questionsIndex W !! i = Some r /\ c ∈ questionCalls W r i /\
    resultOf W pl slot c.1 c.2 q.
Proof.
  intros Hdata Hrd Hq.
  destruct (questionsIndex W !! i) as [r|] eqn:Hr.
  - destruct (index_round W _ _ data i r Hdata Hr) as (rd' & Hrd' & Hround).
    assert (rd' = rd) as -> by congruence.
    destruct (processRound_result W _ _ r i rd Hround) as (qs & Hlen & Hval & Hqd & Hex).
    exists r. unfold questionCalls. destruct Hq as [Hq|Hq].
    + rewrite Hqd in Hq. apply list_elem_of_fmap in Hq as (q' & [= <-] & Hq).
      apply list_elem_of_lookup in Hq as [k Hk].
      destruct (Hval k q Hk) as (df & Hdf & Hres).
      eexists (df.1, _). split; [done |]. split; [| exact Hres].
      apply elem_of_app. left. apply list_elem_of_lookup. exists k.
      by rewrite list_lookup_imap, Hdf.
    + destruct (exampleOf W r) as [df|]; [| congruence].
      destruct Hex as (q' & Hq' & Hres).
      assert (q' = q) as -> by congruence.
      eexists (df.1, _). split; [done |]. rewrite <- Hlen. split; [| exact Hres].
      apply elem_of_app. right. by left.
  - apply index_data in Hdata as [Hall ->].
    destruct (settled_rounds W _ _ Hall) as (rds & Hps & Hrounds).
    rewrite Hrounds in Hrd. apply lookup_lt_Some in Hrd.
    rewrite length_fmap in Hrd.
    assert (length rds = length (questionsIndex W)) as Hlen.
    { rewrite <- (length_fmap Fulfilled rds), <- Hps.
      unfold roundPromises, forEach. apply forEachFrom_length. }
    apply lookup_ge_None in Hr. lia.
Qed.

Lemma call_in_index (W : World) pl slot data i r c :
  data ∈ indexWrites (buildApiMaster W pl slot).1 ->
  questionsIndex W !! i = Some r -> c ∈ questionCalls W r i ->
  exists rd q,
    rounds data !! i = Some (Some rd) /\
    (Some q ∈ rd_questionsData rd \/ rd_exampleData rd = Some q) /\
    resultOf W pl slot c.1 c.2 q.
Proof.
  intros Hdata Hr Hc.
  destruct (index_round W _ _ data i r Hdata Hr) as (rd & Hrd & Hround).
  destruct (processRound_result W _ _ r i rd Hround) as (qs & Hlen & Hval & Hqd & Hex).
  exists rd. unfold questionCalls in Hc. apply elem_of_app in Hc as [Hc|Hc].
  - apply list_elem_of_lookup in Hc as [k Hk].
    apply list_lookup_imap_Some in Hk as (df & Hdf & ->).
    destruct (qs !! k) as [q|] eqn:Hq.
    + exists q. split; [done |].
      destruct (Hval k q Hq) as (df' & Hdf' & Hres).
      assert (df' = df) as -> by congruence.
      split; [| exact Hres]. left. rewrite Hqd. apply list_elem_of_fmap.
      exists q. split; [done |]. by apply list_elem_of_lookup_2 in Hq.
    + apply lookup_ge_None in Hq. apply lookup_lt_Some in Hdf. lia.
  - destruct (exampleOf W r) as [df|]; [| by apply elem_of_nil in Hc].
    apply list_elem_of_singleton in Hc as ->.
    destruct Hex as (q & Hq & Hres). exists q.
    split; [done |]. split; [by right |]. by rewrite <- Hlen.
Qed.

Lemma role_srcs_value (W : World) pl slot imgPath distDir imgName_ roundId qid d w p :
  (createImageVariants W pl slot imgPath distDir imgName_ roundId qid).2 = Fulfilled d ->
  srcs d !! w = Some p ->
  exists src pos,
    imgFileData W pl imgPath imgName_ = Some src /\
    imgSizes (config W) !! pos = Some w /\
    (createImageVariant W slot src
       (distDir +:+ "round-" +:+ JS.str_nat roundId +:+ "/" +:+
        "question-" +:+ str_questionId qid) w roundId qid pos).2 = Fulfilled p.
Proof.
  intros Hd Hp.
  destruct (createImageVariants_cases W pl slot imgPath distDir imgName_ roundId qid)
    as [(_ & Hpend & _)|(src & Hi & Hsrc)]; [congruence |].
  rewrite (createImageVariants_some W pl slot _ _ _ _ _ src) in Hd by done.
  cbn [snd] in Hd.
  match type of Hd with
  | context [if ?b then _ else _] => destruct b
  end; [| done].
  injection Hd as <-. cbn [srcs] in Hp.
  apply saveSrcs_lookup in Hp as [Hp|Hp]; [by rewrite lookup_empty in Hp |].
  apply list_elem_of_lookup in Hp as [pos Hpos].
  unfold forEach in Hpos. rewrite forEachFrom_lookup in Hpos.
  destruct (imgSizes (config W) !! pos) as [sz|] eqn:Hsz; [| done].
  cbn [fmap option_fmap option_map] in Hpos. rewrite forEachSize_snd in Hpos.
  assert (sz = w) as -> by congruence.
  exists src, pos. split_and!; [done | done |]. cbn [Nat.add] in Hpos. congruence.
Qed.

Lemma saveSrcs_listed (vs : list (Z * Outcome string)) (m : gmap Z string)
    (w : Z) (p : string) :
  (forall p', (w, Fulfilled p') ∈ vs -> p' = p) ->
  m !! w = Some p \/ (w, Fulfilled p) ∈ vs ->
  foldl saveSrc m vs !! w = Some p.
Proof.
  revert m. induction vs as [|[w' o] vs IH]; intros m Hsame Hin.
  - destruct Hin as [Hin|Hin]; [done | by apply elem_of_nil in Hin].
  - cbn [foldl]. apply IH; [intros p' Hp'; apply Hsame; by right |].
    unfold saveSrc. cbn [fst snd].
    destruct Hin as [Hm|[[= <- <-]|Hin]%elem_of_cons].
    + left. destruct o as [|p'|e]; [done | | done].
      destruct (decide (w' = w)) as [->|Hne].
      * rewrite lookup_insert_eq. f_equal. apply Hsame. by left.
      * by rewrite lookup_insert_ne.
    + left. by rewrite lookup_insert_eq.
    + by right.
Qed.

Lemma role_srcs_listed (W : World) pl slot imgPath distDir imgName_ roundId qid
    d src pos w p :
  (createImageVariants W pl slot imgPath distDir imgName_ roundId qid).2 = Fulfilled d ->
  imgFileData W pl imgPath imgName_ = Some src ->
  imgSizes (config W) !! pos = Some w ->
  (createImageVariant W slot src
     (distDir +:+ "round-" +:+ JS.str_nat roundId +:+ "/" +:+
      "question-" +:+ str_questionId qid) w roundId qid pos).2 = Fulfilled p ->
  srcs d !! w = Some p.
Proof.
  intros Hd Hsrc Hpos Hv.
  destruct (imgFileData_some _ _ _ _ _ Hsrc) as [Hi _].
  rewrite (createImageVariants_some W pl slot _ _ _ _ _ src) in Hd by done.
  cbn [snd] in Hd.
  match type of Hd with
  | context [if ?b then _ else _] => destruct b
  end; [| done].
  injection Hd as <-. cbn [srcs].
  set (outputDir := distDir +:+ "round-" +:+ JS.str_nat roundId +:+ "/" +:+
                    "question-" +:+ str_questionId qid) in *.
  rewrite createImageVariant_outcome in Hv.
  apply saveSrcs_listed; [| right].
  - intros p' Hp'. apply list_elem_of_lookup in Hp' as [pos' Hpos'].
    unfold forEach in Hpos'. rewrite forEachFrom_lookup in Hpos'.
    destruct (imgSizes (config W) !! pos') as [sz|]; [| done].
    cbn [fmap option_fmap option_map] in Hpos'. rewrite forEachSize_snd in Hpos'.
    assert (sz = w) as -> by congruence.
    assert ((createImageVariant W slot src outputDir w roundId qid (0 + pos')).2
            = Fulfilled p') as Hv' by congruence.
    rewrite createImageVariant_outcome in Hv'.
    destruct (slot _); [| done]. destruct (slot _); [| done].
    destruct (im_resize _ _ _ _); [done |]. congruence.
  - apply list_elem_of_lookup. exists pos. unfold forEach.
    rewrite forEachFrom_lookup, Hpos. cbn [fmap option_fmap option_map Nat.add].
    rewrite forEachSize_snd, createImageVariant_outcome. by rewrite <- Hv.
Qed.

Lemma resultOf_role (W : World) pl slot dir q0 q k :
  resultOf W pl slot dir q0 q -> k ∈ imgKeys ->
  exists imgs d,
    qd_imgs q = Some imgs /\ (k, d) ∈ imgs /\
    (role W pl slot dir q0 k).2 = Fulfilled d.
Proof.
  intros (da & db & dm & Ha & Hb & Hm & ->) Hk.
  exists [("a", da); ("b", db); ("mix", dm)]. unfold imgKeys in Hk.
  repeat (apply elem_of_cons in Hk as [->|Hk]); [.. | by apply elem_of_nil in Hk].
  - exists da. split_and!; [done | by left | done].
  - exists db. split_and!; [done | right; by left | done].
  - exists dm. split_and!; [done | right; right; by left | done].
Qed.

Lemma resultOf_imgs (W : World) pl slot dir q0 q imgs k d :
  resultOf W pl slot dir q0 q -> qd_imgs q = Some imgs -> (k, d) ∈ imgs ->
  k ∈ imgKeys /\ (role W pl slot dir q0 k).2 = Fulfilled d.
Proof.
  intros (da & db & dm & Ha & Hb & Hm & ->) [= <-] Hkd.
  repeat (apply elem_of_cons in Hkd as [[= -> ->]|Hkd]);
    [.. | by apply elem_of_nil in Hkd].
  - split; [by left | done].
  - split; [right; by left | done].
  - split; [right; right; by left | done].
Qed.

(** X21.  The index lists no variant that was not written: every path in the
    [srcs] of a role of a question of a written index is the API path of a
    file that the run wrote. *)
Theorem listed_paths_written (W : World) (S : Schedule) (data : ApiData) (i : nat)
    (rd : RoundData) (q : QuestionData) (imgs : list (string * ImgVariantsData))
    (k : string) (d : ImgVariantsData) (w : Z) (p : string) :
  data ∈ indexWrites (build_api W S).1 ->
  rounds data !! i = Some (Some rd) ->
  Some q ∈ rd_questionsData rd \/ rd_exampleData rd = Some q ->
  qd_imgs q = Some imgs -> (k, d) ∈ imgs ->
  srcs d !! w = Some p ->
  exists file bytes,
    WriteFile file bytes ∈ (build_api W S).1 /\
    p = apiFilePath (config W) file.
Proof.
  unfold build_api. intros Hdata Hrd Hq Himgs Hkd Hp.
  destruct (index_question_call W _ _ data i rd q Hdata Hrd Hq)
    as (r & [dir q0] & Hr & Hc & Hres).
  cbn [fst snd] in Hres.
  destruct (resultOf_imgs _ _ _ _ _ _ _ _ _ Hres Himgs Hkd) as [Hk Hrole].
  unfold role in Hrole. rewrite (role_roundId _ _ _ _ _ Hc) in Hrole.
  destruct (role_srcs_value _ _ _ _ _ _ _ _ _ _ _ Hrole Hp)
    as (src & pos & Hsrc & Hpos & Hv).
  fold (outputDirOf W i (qd_questionId q0)) in Hv.
  set (c := {| vc_round := i; vc_spec := r; vc_dir := dir; vc_question := q0;
               vc_role := k; vc_src := src; vc_pos := pos; vc_size := w |}).
  assert (called W (pngLast S) c) as Hcalled by done.
  pose proof Hv as Hv'. rewrite createImageVariant_outcome in Hv'.
  destruct (resizeSlot W S _) eqn:Hslot; [| done].
  destruct (im_resize _ _ _ _) as [err|bytes] eqn:Hout; [done |].
  injection Hv' as <-.
  eexists _, bytes. split; [| reflexivity].
  apply (called_sub _ _ _ c); [done |]. unfold variantOf.
  apply createImageVariant_events. right. right. split; [done |]. by exists bytes.
Qed.

(** The sample tree: the path listed for the first image of [q0] at width
    320 is that of a file of the run. *)
Lemma listed_paths_written_witness :
  exists file bytes,
    WriteFile file bytes
      ∈ (build_api oneResizeFails (inOrder oneResizeFails (fun _ => false))).1 /\
    "/imgs/round-0/question-0/a/r0q0.a.320.jpg" = apiFilePath defaults file.
Proof.
  assert (exists data rd q imgs d,
    indexWrites (build_api oneResizeFails (inOrder oneResizeFails (fun _ => false))).1
      = [data] /\
    rounds data !! 0 = Some (Some rd) /\
    rd_questionsData rd !! 0 = Some (Some q) /\
    qd_imgs q = Some imgs /\ imgs !! 0 = Some ("a", d) /\
    srcs d !! 320%Z = Some "/imgs/round-0/question-0/a/r0q0.a.320.jpg")
    as (data & rd & q & imgs & d & Ht & Hrd & Hq & Himgs & Hd & Hp).
  { vm_compute. do 5 eexists. split_and!; reflexivity. }
  apply (listed_paths_written oneResizeFails (inOrder oneResizeFails (fun _ => false))
           data 0 rd q imgs "a" d 320%Z).
  - rewrite Ht. left.
  - exact Hrd.
  - left. by apply list_elem_of_lookup_2 in Hq.
  - exact Himgs.
  - by apply list_elem_of_lookup_2 in Hd.
  - exact Hp.
Defined.

(** X22.  The index of a run that completes lists every file that the run
    wrote: each image file written is the file of an entry of the [srcs] of
    a role of a question of the index, under its API path. *)
Theorem written_files_listed (W : World) (S : Schedule) (data : ApiData)
    (file bytes : string) :
  data ∈ indexWrites (build_api W S).1 ->
  WriteFile file bytes ∈ (build_api W S).1 ->
  exists i rd q imgs k d w,
    rounds data !! i = Some (Some rd) /\
    (Some q ∈ rd_questionsData rd \/ rd_exampleData rd = Some q) /\
    qd_imgs q = Some imgs /\ (k, d) ∈ imgs /\
    srcs d !! w = Some (apiFilePath (config W) file).
Proof.
  unfold build_api. intros Hdata Hw.
  apply variant_origin in Hw as (c & Hc & Hw); [| done].
  pose proof Hc as (Hr & Hcall & Hk & Hsrc & Hpos).
  unfold variantOf in Hw.
  apply createImageVariant_events in Hw
    as [[=]|[[=]|(Hslot & out & Hout & [= -> ->])]].
  destruct (call_in_index W _ _ data _ _ _ Hdata Hr Hcall) as (rd & q & Hrd & Hq & Hres).
  cbn [fst snd] in Hres.
  destruct (resultOf_role _ _ _ _ _ _ (vc_role c) Hres Hk)
    as (imgs & d & Himgs & Hkd & Hrole).
  exists (vc_round c), rd, q, imgs, (vc_role c), d, (vc_size c).
  split_and!; [done | done | done | done |].
  unfold role in Hrole. rewrite (role_roundId _ _ _ _ _ Hcall) in Hrole.
  apply (role_srcs_listed _ _ _ _ _ _ _ _ _ _ _ _ _ Hrole Hsrc Hpos).
  fold (outputDirOf W (vc_round c) (qd_questionId (vc_question c))).
  by rewrite createImageVariant_outcome, Hslot, Hout.
Qed.

(** The sample tree: the variant of width 320 of the first image of [q0] is
    listed. *)
Lemma written_files_listed_witness :
  exists data i rd q imgs k d w,
    indexWrites (build_api oneResizeFails (inOrder oneResizeFails (fun _ => false))).1
      = [data] /\
    rounds data !! i = Some (Some rd) /\
    (Some q ∈ rd_questionsData rd \/ rd_exampleData rd = Some q) /\
    qd_imgs q = Some imgs /\ (k, d) ∈ imgs /\
    srcs d !! w = Some "/imgs/round-0/question-0/a/r0q0.a.320.jpg".
Proof.
  assert (exists data,
    indexWrites (build_api oneResizeFails (inOrder oneResizeFails (fun _ => false))).1
      = [data]) as (data & Ht).
  { vm_compute. eexists. reflexivity. }
  destruct (written_files_listed oneResizeFails
              (inOrder oneResizeFails (fun _ => false)) data
              "./dist/api/imgs/round-0/question-0/a/r0q0.a.320.jpg"
              "./src/questions/q0/a.jpg@320")
    as (i & rd & q & imgs & k & d & w & H).
  - rewrite Ht. left.
  - apply list_elem_of_In. vm_compute.
    repeat (first [left; reflexivity | right]).
  - exists data, i, rd, q, imgs, k, d, w. split; [exact Ht | exact H].
Defined.

(** ** Failed resizes and the limiter *)

(** X23.  Failed resizes use up the limiter.  Under a schedule that fits the
    run, once as many resize tasks that fail (and so never free their slot)
    stand before a task as the limiter has slots, that task is never let
    in, and the run never reaches its end: [taskComplete] stays pending,
    no index is written and no success message is printed. *)
Theorem failed_resizes_block_the_run (W : World) (S : Schedule)
    (p rest : list Job) (j : Job) :
  schedule_ok W S ->
  resizeOrder S = p ++ j :: rest -> j ∉ p ->
  imThreadConcurrency (config W)
    <= length (filter (fun j => resizeReleases W j = false) p) ->
  resizeSlot W S j = false /\
  (build_api W S).2 = Pending /\
  indexWrites (build_api W S).1 = [] /\
  Log successMessage ∉ (build_api W S).1.
Proof.
  intros Hok Horder Hfresh Hleaks.
  pose proof (resizeSlot_after_leaks W S p rest j Horder Hfresh Hleaks) as Hslot.
  split; [done |].
  assert (allSettled (roundPromises W (pngLast S) (resizeSlot W S)).2 = false) as Hall.
  { apply not_true_is_false. intros Hall.
    assert (NewThreadResize j ∈ (build_api W S).1) as Hj.
    { apply resizeJobs_elem. rewrite <- Hok, Horder. apply elem_of_app. right. by left. }
    unfold build_api in Hj.
    apply variant_origin in Hj as (c & Hc & Hj); [| done].
    rewrite (called_job _ _ _ _ _ Hc Hj) in Hslot.
    by rewrite (rounds_settled_slot _ _ _ _ Hall Hc) in Hslot. }
  unfold build_api. rewrite buildApiMaster_unfold.
  unfold indexSaved, ending. rewrite Hall. cbn [fst snd andb].
  rewrite app_nil_r. split_and!; [done | |].
  - unfold indexWrites. cbn [omap list_omap].
    fold (indexWrites (roundPromises W (pngLast S) (resizeSlot W S)).1).
    apply inner_no_index, roundPromises_inner.
  - intros [[=]|H]%elem_of_cons.
    by apply (inner_no_success _ (roundPromises_inner W _ _)) in H.
Qed.

(** One slot, and the first resize of the run fails: the second task is
    never let in. *)
Lemma failed_resizes_block_the_run_witness :
  (build_api (firstResizeFails 1) (inOrder (firstResizeFails 1) (fun _ => false))).2
  = Pending.
Proof.
  destruct (failed_resizes_block_the_run (firstResizeFails 1)
              (inOrder (firstResizeFails 1) (fun _ => false))
              [ {| job_src := "./src/questions/q0/a.jpg";
                   job_out := "./dist/api/imgs/round-0/question-0/a/r0q0.a.320.jpg";
                   job_size := 320; job_pos := 0 |} ]
              (tail (tail (resizeOrder (inOrder (firstResizeFails 1) (fun _ => false)))))
              {| job_src := "./src/questions/q0/a.jpg";
                 job_out := "./dist/api/imgs/round-0/question-0/a/r0q0.a.640.jpg";
                 job_size := 640; job_pos := 1 |})
    as (_ & Hp & _).
  - apply inOrder_ok.
  - vm_compute. reflexivity.
  - apply (bool_decide_unpack _). vm_compute. exact I.
  - vm_compute. lia.
  - exact Hp.
Defined.

(** * The run as a whole *)

(** ** The directory of the index file *)





(** A run in which the questions that load have their source images and
    every resize task is let in saves the index when the variants that
    are due leave a directory for it. *)
Lemma run_saved (W : World) (S : Schedule) :
  schedule_ok W S -> sourcesFound W = true ->
  length (leaks W S) < imThreadConcurrency (config W) ->
  indexDirReady W = true ->
  indexSaved W (pngLast S) (resizeSlot W S) = true.
Proof.
  intros Hok Hsrc Hleaks Hdir.
  assert (identifySlot W = true) as Hi.
  { unfold identifySlot. apply bool_decide_eq_true. lia. }
  unfold indexSaved. apply andb_true_intro. split.
  - apply buildApiMaster_completes; [done | done |]. by apply run_letIn.
  - rewrite mkdirCalled_due; [done | done | by right].
Qed.


Lemma unsaved_index (W : World) pl slot :
  indexSaved W pl slot = false ->
  indexWrites (buildApiMaster W pl slot).1 = [].
Proof.
  intros Hs. rewrite buildApiMaster_unfold. cbn [fst].
  unfold indexWrites. cbn [omap list_omap]. rewrite omap_app.
  fold (indexWrites (roundPromises W pl slot).1).
  rewrite (inner_no_index _ (roundPromises_inner W _ _)).
  destruct (ending_cases W pl slot)
    as [(Hn & _)|[(_ & _ & _ & ->)|(_ & _ & ->)]]; [congruence | done ..].
Qed.

(** ** C1 *)

(** C1, as the code has it.  When every question whose metadata loads has a
    source image for each of its three roles, identification has a slot,
    fewer resize calls fail than the resize limiter has slots, and the
    variants that are due leave a directory for the index file (some
    question loads and a width is configured, so that a directory is made
    below the output directory that the run deleted at its start, or the
    index file lies beside the output directory in a directory that is
    there), the build reaches its end whatever else fails below the top
    level (metadata that does not load, a format that is not there,
    resizes that fail) and in whatever order the resize tasks reach the
    limiter: [taskComplete] is resolved and the success message is
    printed. *)
Theorem build_completes (W : World) (S : Schedule) :
  schedule_ok W S ->
  sourcesFound W = true ->
  length (leaks W S) < imThreadConcurrency (config W) ->
  indexDirReady W = true ->
  completes W S.
Proof.
  intros Hok Hsrc Hleaks Hdir.
  pose proof (run_saved W S Hok Hsrc Hleaks Hdir) as Hs.
  unfold completes, build_api. rewrite buildApiMaster_unfold. cbn [fst snd].
  rewrite Hs. split; [done |].
  destruct (ending_cases W (pngLast S) (resizeSlot W S))
    as [(_ & _ & _ & ->)|[(Hn & _)|(Hn & _)]]; [| congruence ..].
  right. apply elem_of_app. right. right. left.
Qed.

(** The sample tree in which one resize fails and one question has no
    metadata: the run completes. *)
Lemma build_completes_witness :
  completes oneResizeFails (inOrder oneResizeFails (fun _ => false)).
Proof.
  apply build_completes.
  - unfold schedule_ok. vm_compute. reflexivity.
  - vm_compute. reflexivity.
  - vm_compute. lia.
  - vm_compute. reflexivity.
Defined.

(** A missing source image keeps the build from ever reaching its end. *)
Lemma build_completes_counterexample :
  schedule_ok mixMissing (inOrder mixMissing (fun _ => false)) /\
  ~ completes mixMissing (inOrder mixMissing (fun _ => false)).
Proof.
  split.
  - unfold schedule_ok. vm_compute. reflexivity.
  - intros [H _]. vm_compute in H. discriminate.
Qed.

(** ** C2 *)

(** C2, as the code has it.  When neither accepted format of a role's
    image yields metadata, for a question of some round whose metadata
    loads, the run stalls without a word: once the two probes have run,
    the error of the missing image is logged and thrown inside the
    continuation of the probes, where nothing catches it; the promise of
    the role is not rejected but never settled, and so [taskComplete]
    stays pending, no index file is written and the success message is not
    printed.  Nothing is aborted: every call of [createImageVariant] for a
    source image that was identified is made all the same. *)
Theorem missing_source_stalls (W : World) (S : Schedule) (i : nat) (r : RoundSpec)
    (dir k : string) :
  questionsIndex W !! i = Some r ->
  dir ∈ questionRefs r -> is_Some (requireQuestion W dir) -> k ∈ imgKeys ->
  found W (imgPathOf dir k) = false ->
  (0 < imThreadConcurrency (config W) ->
     LogError (NotFound (imgPathOf dir k)) ∈ (build_api W S).1 /\
     Throw (NotFound (imgPathOf dir k)) ∈ (build_api W S).1) /\
  (forall q, (role W (pngLast S) (resizeSlot W S) dir q k).2 = Pending) /\
  (build_api W S).2 = Pending /\
  indexWrites (build_api W S).1 = [] /\
  (Log successMessage ∉ (build_api W S).1) /\
  (forall c e, called W (pngLast S) c ->
     e ∈ (variantOf W (resizeSlot W S) c).1 -> e ∈ (build_api W S).1).
Proof.
  intros Hr Hdir [fields Hreq] Hk Hf. unfold build_api.
  set (pl := pngLast S). set (slot := resizeSlot W S).
  assert (allSettled (roundPromises W pl slot).2 = false) as Hpend.
  { apply allSettled_pending. apply list_elem_of_lookup. exists i.
    rewrite roundPromises_lookup, Hr. cbn. f_equal.
    by apply (processRound_pending W pl slot r i dir fields k). }
  assert (indexSaved W pl slot = false) as Hs by (unfold indexSaved; by rewrite Hpend).
  split_and!.
  - intros Hcap. apply missingSource_reported. split_and!; [done | done |].
    exists r, dir, k. split_and!; [| done | by exists fields | done | done].
    by apply list_elem_of_lookup_2 in Hr.
  - intros q. unfold role. by rewrite createImageVariants_missing.
  - rewrite buildApiMaster_unfold. cbn [snd]. by rewrite Hs.
  - by apply unsaved_index.
  - rewrite buildApiMaster_unfold. cbn [fst]. unfold ending. rewrite Hpend.
    rewrite app_nil_r. intros [Hin|Hin]%elem_of_cons; [done |].
    by apply (inner_no_success _ (roundPromises_inner W pl slot)).
  - intros c e Hc He. by apply (called_sub W pl slot c).
Qed.

(** [q0] of the sample tree has no combined image: the run stalls. *)
Lemma missing_source_stalls_witness :
  (build_api mixMissing (inOrder mixMissing (fun _ => false))).2 = Pending /\
  indexWrites (build_api mixMissing (inOrder mixMissing (fun _ => false))).1 = [] /\
  Throw (NotFound "./src/questions/q0/mix")
    ∈ (build_api mixMissing (inOrder mixMissing (fun _ => false))).1.
Proof.
  destruct (missing_source_stalls mixMissing (inOrder mixMissing (fun _ => false))
              0 {| rs_title := "Round 1"; rs_questions := ["q0"; "bad"; "q1"];
                   rs_example := Some "ex" |} "q0" "mix")
    as (Hthrow & _ & Hp & Hw & _).
  - reflexivity.
  - apply (bool_decide_unpack _). vm_compute. exact I.
  - vm_compute. eauto.
  - apply (bool_decide_unpack _). vm_compute. exact I.
  - vm_compute. reflexivity.
  - split_and!; [exact Hp | exact Hw |].
    apply Hthrow. vm_compute. lia.
Defined.

(** The combined image of [q0] is missing, and the run neither rejects the
    promise of the role nor leaves the other questions: [q1] and the example
    are completed, and the twenty-four variants of the images that were
    identified are written. *)
Lemma abortsOn_counterexample :
  found mixMissing (imgPathOf "q0" "mix") = false /\
  ~ abortsOn mixMissing (inOrder mixMissing (fun _ => false)) "q0" "mix" /\
  ~ propagates mixMissing (inOrder mixMissing (fun _ => false)) "q0" "mix" /\
  ~ abandons mixMissing (inOrder mixMissing (fun _ => false)) "q0" /\
  length (writtenFiles (build_api mixMissing (inOrder mixMissing (fun _ => false))).1)
  = 24.
Proof.
  assert (~ propagates mixMissing (inOrder mixMissing (fun _ => false)) "q0" "mix")
    as Hprop.
  { intros (q & e & H). unfold role in H.
    rewrite createImageVariants_missing in H by (vm_compute; reflexivity).
    discriminate. }
  assert (~ abandons mixMissing (inOrder mixMissing (fun _ => false)) "q0") as Hab.
  { intros (r & dir' & Hr & Hdir & Hload & Hne & Hlog).
    apply list_elem_of_singleton in Hr as ->.
    apply Hlog. apply list_elem_of_In.
    cbn in Hdir. rewrite !elem_of_cons, elem_of_nil in Hdir.
    destruct Hdir as [->|[->|[->|[->|[]]]]].
    - done.
    - by destruct Hload.
    - vm_compute. tauto.
    - vm_compute. tauto. }
  split_and!; [by vm_compute | by intros [H _] | done | done | by vm_compute].
Qed.

(** ** C5 *)



